(** * ai-translator: markup masking, chunking, batch packing and job orchestration

    A shallow embedding of [translator.py] and [main.py].

    Python [str] values are modelled as lists of characters; a character is a
    code point below 256 (Rocq's [ascii]), classified the way Python's [re]
    and [str] methods classify the code points of that range.  Python [int]
    counters are [nat]; limits that the caller may configure freely are [Z]. *)

From Stdlib Require Decimal DecimalNat DecimalString.
From Stdlib Require Import String Ascii List Arith Lia ZArith Bool.
From Stdlib Require Import Permutation Sorted.
Import ListNotations.

Set Warnings "-via-type-mismatch".

(* ================================================================== *)
(** * The program *)

(** ** Texts *)

Definition text := list ascii.

Inductive text_literal := LNil | LCons (c : ascii) (l : text_literal).

Fixpoint literal_of_bytes (l : list Byte.byte) : text_literal :=
  match l with
  | [] => LNil
  | b :: l' => LCons (ascii_of_byte b) (literal_of_bytes l')
  end.

Fixpoint bytes_of_literal (t : text_literal) : list Byte.byte :=
  match t with
  | LNil => []
  | LCons c t' => byte_of_ascii c :: bytes_of_literal t'
  end.

Declare Scope text_scope.
Delimit Scope text_scope with text.
String Notation list literal_of_bytes bytes_of_literal
  (via text_literal mapping [[nil] => LNil, [cons] => LCons]) : text_scope.
Open Scope text_scope.

(** The line feed and the double quote, which a literal cannot hold. *)
Definition newline : ascii := "010"%char.
Definition dquote : ascii := "034"%char.

Definition code (c : ascii) : nat := nat_of_ascii c.

Definition between (lo hi : nat) (c : ascii) : bool :=
  (lo <=? code c) && (code c <=? hi).

(** [\d] on code points below 256. *)
Definition is_digit (c : ascii) : bool := between 48 57 c.

(** [\w] on code points below 256: alphanumerics and the underscore. *)
Definition is_word (c : ascii) : bool :=
  between 48 57 c || between 65 90 c || (code c =? 95) || between 97 122 c
  || (code c =? 170) || between 178 179 c || (code c =? 181)
  || between 185 186 c || between 188 190 c || between 192 214 c
  || between 216 246 c || between 248 255 c.

(** [str.isspace] on code points below 256, the characters [str.strip] drops. *)
Definition is_space (c : ascii) : bool :=
  between 9 13 c || between 28 32 c || (code c =? 133) || (code c =? 160).

Fixpoint text_eqb (a b : text) : bool :=
  match a, b with
  | [], [] => true
  | x :: a', y :: b' => Ascii.eqb x y && text_eqb a' b'
  | _, _ => false
  end.

(** [s.startswith(p)]. *)
Fixpoint starts_with (p s : text) : bool :=
  match p, s with
  | [], _ => true
  | x :: p', y :: s' => Ascii.eqb x y && starts_with p' s'
  | _ :: _, [] => false
  end.

(** [s.endswith(p)]. *)
Definition ends_with (p s : text) : bool := starts_with (rev p) (rev s).

(** [p in s]. *)
Fixpoint contains (p s : text) : bool :=
  starts_with p s ||
  match s with
  | [] => false
  | _ :: s' => contains p s'
  end.

Fixpoint drop_while (f : ascii -> bool) (s : text) : text :=
  match s with
  | [] => []
  | c :: s' => if f c then drop_while f s' else s
  end.

Definition lstrip (s : text) : text := drop_while is_space s.
Definition rstrip (s : text) : text := rev (drop_while is_space (rev s)).

(** [s.strip()]. *)
Definition strip (s : text) : text := rstrip (lstrip s).

(** [s[:-n]] for [0 < n]. *)
Definition drop_last (n : nat) (s : text) : text := firstn (length s - n) s.

(** [str(n)] for a non-negative [int]. *)
Definition str_of_nat (n : nat) : text :=
  list_ascii_of_string (DecimalString.NilEmpty.string_of_uint (Nat.to_uint n)).

(** [int(s)] for a text of decimal digits. *)
Definition int_of_text (s : text) : nat :=
  fold_left (fun acc c => 10 * acc + (code c - 48)) s 0.

(** [s.replace(old, new)]: the occurrences of [old] are found from the left
    and do not overlap; [skip] counts the characters of an occurrence that
    are still to be passed over. *)
Fixpoint replace_from (old new : text) (skip : nat) (s : text) : text :=
  match s with
  | [] => []
  | c :: s' =>
      match skip with
      | S k => replace_from old new k s'
      | O =>
          if starts_with old s
          then new ++ replace_from old new (length old - 1) s'
          else c :: replace_from old new 0 s'
      end
  end.

Definition str_replace (old new s : text) : text :=
  match old with
  | [] => new ++ flat_map (fun c => c :: new) s
  | _ :: _ => replace_from old new 0 s
  end.

(* ================================================================== *)
(** ** Regular expressions, matched by backtracking as [re] does *)

Inductive cls :=
| CChr (c : ascii)        (* the character itself *)
| CNot (c : ascii)        (* [^c] *)
| CDigit                  (* \d *)
| CWord.                  (* \w *)

Definition in_cls (k : cls) (c : ascii) : bool :=
  match k with
  | CChr x => Ascii.eqb x c
  | CNot x => negb (Ascii.eqb x c)
  | CDigit => is_digit c
  | CWord => is_word c
  end.

Inductive regex :=
| Eps
| One (k : cls)
| Many1 (k : cls)         (* k+, greedy *)
| Many0 (k : cls)         (* k*, greedy *)
| Bound                   (* \b *)
| Seq (r1 r2 : regex)
| Alt (r1 r2 : regex).

(** A position in the subject: the character before it, if any, and the
    rest of the subject. *)
Definition pos := (option ascii * text)%type.

Definition word_before (p : option ascii) : bool :=
  match p with
  | Some c => is_word c
  | None => false
  end.

Definition word_after (s : text) : bool :=
  match s with
  | c :: _ => is_word c
  | [] => false
  end.

Definition one (k : cls) (p : pos) : list pos :=
  match snd p with
  | c :: s' => if in_cls k c then [(Some c, s')] else []
  | [] => []
  end.

(** The positions where [k*] may stop, the longest run first. *)
Fixpoint many0 (k : cls) (prev : option ascii) (s : text) : list pos :=
  match s with
  | c :: s' =>
      if in_cls k c then many0 k (Some c) s' ++ [(prev, s)] else [(prev, s)]
  | [] => [(prev, s)]
  end.

(** All the positions where a match of [r] that starts at [p] may end, in
    the order in which a backtracking matcher tries them. *)
Fixpoint run (r : regex) (p : pos) : list pos :=
  match r with
  | Eps => [p]
  | One k => one k p
  | Many0 k => many0 k (fst p) (snd p)
  | Many1 k => flat_map (fun q => many0 k (fst q) (snd q)) (one k p)
  | Bound => if xorb (word_before (fst p)) (word_after (snd p)) then [p] else []
  | Seq a b => flat_map (run b) (run a p)
  | Alt a b => run a p ++ run b p
  end.

(** The length of the match of [r] at the start of [s], if there is one. *)
Definition match_len (r : regex) (prev : option ascii) (s : text) : option nat :=
  match run r (prev, s) with
  | (_, rest) :: _ => Some (length s - length rest)
  | [] => None
  end.

Fixpoint lit (s : text) : regex :=
  match s with
  | [] => Eps
  | c :: s' => Seq (One (CChr c)) (lit s')
  end.

(** The subject cut into its matches and the characters between them, as
    [re.finditer] walks it: after a match the search goes on where the match
    ended.  None of the patterns below matches the empty text
    ([match_len_positive]), so a position with no match of positive length
    is a plain character. *)
Inductive piece :=
| Lit (c : ascii)
| Span (s : text).

Fixpoint scan (r : regex) (skip : nat) (prev : option ascii) (s : text)
  : list piece :=
  match s with
  | [] => []
  | c :: s' =>
      match skip with
      | S k => scan r k (Some c) s'
      | O =>
          match match_len r prev s with
          | Some (S k) => Span (firstn (S k) s) :: scan r k (Some c) s'
          | _ => Lit c :: scan r 0 (Some c) s'
          end
      end
  end.

Definition finditer (r : regex) (s : text) : list piece := scan r 0 None s.

Definition piece_text (p : piece) : text :=
  match p with
  | Lit c => [c]
  | Span s => s
  end.

Definition flatten (ps : list piece) : text := flat_map piece_text ps.

Fixpoint spans (ps : list piece) : list text :=
  match ps with
  | [] => []
  | Lit _ :: ps' => spans ps'
  | Span s :: ps' => s :: spans ps'
  end.

(** [re.findall(r, s)]. *)
Definition re_findall (r : regex) (s : text) : list text := spans (finditer r s).

(** [re.search(r, s).group()]. *)
Definition re_search (r : regex) (s : text) : option text :=
  hd_error (re_findall r s).

(** [re.sub(r, repl, s)] for a callback [repl] that reads and writes a state. *)
Fixpoint sub_pieces {St : Type} (repl : text -> St -> text * St)
  (ps : list piece) (st : St) : text * St :=
  match ps with
  | [] => ([], st)
  | Lit c :: ps' =>
      let (out, st') := sub_pieces repl ps' st in (c :: out, st')
  | Span m :: ps' =>
      let (r, st1) := repl m st in
      let (out, st2) := sub_pieces repl ps' st1 in
      (r ++ out, st2)
  end.

Definition re_sub {St : Type} (r : regex) (repl : text -> St -> text * St)
  (s : text) (st : St) : text * St :=
  sub_pieces repl (finditer r s) st.

(** [re.split(r, s)] for a pattern that is one capturing group: the texts
    between the matches and the matches themselves, alternating. *)
Fixpoint split_pieces (acc : text) (ps : list piece) : list text :=
  match ps with
  | [] => [acc]
  | Lit c :: ps' => split_pieces (acc ++ [c]) ps'
  | Span m :: ps' => acc :: m :: split_pieces [] ps'
  end.

Definition re_split (r : regex) (s : text) : list text :=
  split_pieces [] (finditer r s).

(** The pattern of [extract_html_tags]:
    [<[^>]+>], or a line feed, or a double quote, or [\b\d+\|\|\|\d+\b],
    or [\b\d+\|\|\|\d+\w*], tried in this order. *)
Definition span_pattern : regex :=
  Alt (Seq (One (CChr "<")) (Seq (Many1 (CNot ">")) (One (CChr ">"))))
 (Alt (One (CChr newline))
 (Alt (One (CChr dquote))
 (Alt (Seq Bound (Seq (Many1 CDigit) (Seq (lit "|||") (Seq (Many1 CDigit) Bound))))
      (Seq Bound (Seq (Many1 CDigit) (Seq (lit "|||") (Seq (Many1 CDigit) (Many0 CWord)))))))).

(** The pattern of [split_text_into_chunks_with_tags]: [\{\{tag_\d+\}\}]. *)
Definition tag_pattern : regex :=
  Seq (lit "{{tag_") (Seq (Many1 CDigit) (lit "}}")).

(** The pattern of the sort keys: [\d+]. *)
Definition digits_pattern : regex := Many1 CDigit.

(* ================================================================== *)
(** ** TagExtractor: [extract_html_tags] and [restore_img_tags] *)

(** A Python [dict] from placeholder to span, in insertion order. *)
Definition tag_dict := list (text * text).

(** [tag_dict[k] = v]. *)
Fixpoint dict_set (k v : text) (d : tag_dict) : tag_dict :=
  match d with
  | [] => [(k, v)]
  | (k', v') :: d' =>
      if text_eqb k' k then (k', v) :: d' else (k', v') :: dict_set k v d'
  end.

(** [tag in tag_dict.values()]. *)
Definition has_value (tag : text) (d : tag_dict) : bool :=
  existsb (fun kv => text_eqb (snd kv) tag) d.

(** The first key of [d] that holds [tag]. *)
Fixpoint find_id (tag : text) (d : tag_dict) : option text :=
  match d with
  | [] => None
  | (k, v) :: d' => if text_eqb v tag then Some k else find_id tag d'
  end.

(** [f"{{{{tag_{n}}}}}"]. *)
Definition tag_id (n : nat) : text := "{{tag_" ++ str_of_nat n ++ "}}".

(** The closure [replacement]; its state is [tag_dict] and
    [tag_id_counter].  The loop over the items always returns, since it runs
    only when [tag] is among the values; had it fallen through, the callback
    would have returned [None]. *)
Definition replacement (tag : text) (st : tag_dict * nat)
  : text * (tag_dict * nat) :=
  let (d, tag_id_counter) := st in
  if negb (has_value tag d)
  then (tag_id tag_id_counter,
        (dict_set (tag_id tag_id_counter) tag d, S tag_id_counter))
  else match find_id tag d with
       | Some existing_id => (existing_id, st)
       | None => ([], st)
       end.

Arguments replacement : simpl never.

Definition extract_html_tags (s : text) : text * tag_dict :=
  let (masked, st) := re_sub span_pattern replacement s ([], 1) in
  (masked, fst st).

(** [int(re.search(r"\d+", s).group())]; [None] where Python raises
    because [s] holds no digit. *)
Definition first_number (s : text) : option nat :=
  option_map int_of_text (re_search digits_pattern s).

(** The items of the dictionary, each with its sort key. *)
Fixpoint keyed (d : tag_dict) : option (list (nat * (text * text))) :=
  match d with
  | [] => Some []
  | kv :: d' =>
      match first_number (fst kv), keyed d' with
      | Some n, Some l => Some ((n, kv) :: l)
      | _, _ => None
      end
  end.

(** [sorted] is stable: an item goes before the items of an equal key that
    came after it. *)
Fixpoint insert_sorted (x : nat * (text * text)) (l : list (nat * (text * text)))
  : list (nat * (text * text)) :=
  match l with
  | [] => [x]
  | y :: l' => if fst x <=? fst y then x :: l else y :: insert_sorted x l'
  end.

Definition sorted_by_key (l : list (nat * (text * text)))
  : list (nat * (text * text)) :=
  fold_right insert_sorted [] l.

Definition restore_img_tags (s : text) (d : tag_dict) : option text :=
  match keyed d with
  | Some l =>
      Some (fold_left (fun acc x => str_replace (fst (snd x)) (snd (snd x)) acc)
              (sorted_by_key l) s)
  | None => None
  end.

(* ================================================================== *)
(** ** Chunker: [count_tokens] and [split_text_into_chunks_with_tags] *)

(** The tokenizer library.  [encoding_for_model] is [None] where the library
    raises [KeyError]; an encoding maps a text to its token ids. *)
Class Tiktoken := {
  encoding_for_model : text -> option (text -> list nat);
  get_encoding : text -> text -> list nat
}.

Section Chunker.
Context {tiktoken : Tiktoken}.

Definition count_tokens (s : text) (model : text) : nat :=
  let tokenizer :=
    match encoding_for_model model with
    | Some enc => enc
    | None => get_encoding "cl100k_base"
    end in
  length (tokenizer s).

(** [n > max_tokens * 0.9].  The product is a double; comparing [10 * n]
    with [9 * max_tokens] exactly gives the same answer for every
    [max_tokens] of magnitude below [2^49]. *)
Definition over_threshold (n : nat) (max_tokens : Z) : bool :=
  (9 * max_tokens <? 10 * Z.of_nat n)%Z.

Record splitter := {
  chunks : list text;
  current_chunk : text;
  current_chunk_length : nat
}.

(** One turn of the loop over the parts. *)
Definition split_step (max_tokens : Z) (model : text)
  (st : splitter) (part : text) : splitter :=
  match part with
  | [] => st
  | _ :: _ =>
      let part_length := count_tokens part model in
      if over_threshold (current_chunk_length st + part_length) max_tokens
      then
        if ends_with "{{tag_1}}" (current_chunk st)
        then
          {| chunks :=
               chunks st ++
               [strip (drop_last (length "{{tag_1}}") (current_chunk st))];
             current_chunk := "{{tag_1}}" ++ part;
             current_chunk_length := count_tokens ("{{tag_1}}" ++ part) model |}
        else
          {| chunks := chunks st ++ [strip (current_chunk st)];
             current_chunk := part;
             current_chunk_length := part_length |}
      else
        {| chunks := chunks st;
           current_chunk := current_chunk st ++ part;
           current_chunk_length := current_chunk_length st + part_length |}
  end.

Definition splitter_start : splitter :=
  {| chunks := []; current_chunk := []; current_chunk_length := 0 |}.

(** The last lines of the function: the chunk in hand is appended unless
    stripping leaves nothing of it. *)
Definition flush (st : splitter) : list text :=
  match strip (current_chunk st) with
  | [] => chunks st
  | _ :: _ => chunks st ++ [strip (current_chunk st)]
  end.

Definition split_text_into_chunks_with_tags
  (s : text) (max_tokens : Z) (model : text) : list text :=
  let parts := re_split tag_pattern s in
  flush (fold_left (split_step max_tokens model) parts splitter_start).

(** *** The splitter with its bookkeeping made visible

    The same loop, recording for every chunk it appends the value of
    [current_chunk] and of [current_chunk_length] at that moment. *)
Record sealed := {
  sealed_chunk : text;          (* what was appended to [chunks] *)
  sealed_from : text;           (* [current_chunk] when it was appended *)
  sealed_count : nat            (* [current_chunk_length] at that moment *)
}.

Record accounted := {
  ledger : list sealed;
  acc_chunk : text;
  acc_length : nat
}.

Definition account_step (max_tokens : Z) (model : text)
  (st : accounted) (part : text) : accounted :=
  match part with
  | [] => st
  | _ :: _ =>
      let part_length := count_tokens part model in
      if over_threshold (acc_length st + part_length) max_tokens
      then
        if ends_with "{{tag_1}}" (acc_chunk st)
        then
          {| ledger :=
               ledger st ++
               [{| sealed_chunk :=
                     strip (drop_last (length "{{tag_1}}") (acc_chunk st));
                   sealed_from := acc_chunk st;
                   sealed_count := acc_length st |}];
             acc_chunk := "{{tag_1}}" ++ part;
             acc_length := count_tokens ("{{tag_1}}" ++ part) model |}
        else
          {| ledger :=
               ledger st ++
               [{| sealed_chunk := strip (acc_chunk st);
                   sealed_from := acc_chunk st;
                   sealed_count := acc_length st |}];
             acc_chunk := part;
             acc_length := part_length |}
      else
        {| ledger := ledger st;
           acc_chunk := acc_chunk st ++ part;
           acc_length := acc_length st + part_length |}
  end.

Definition account_flush (st : accounted) : list sealed :=
  match strip (acc_chunk st) with
  | [] => ledger st
  | _ :: _ =>
      ledger st ++
      [{| sealed_chunk := strip (acc_chunk st);
          sealed_from := acc_chunk st;
          sealed_count := acc_length st |}]
  end.

Definition split_ledger (s : text) (max_tokens : Z) (model : text)
  : list sealed :=
  account_flush
    (fold_left (account_step max_tokens model) (re_split tag_pattern s)
       {| ledger := []; acc_chunk := []; acc_length := 0 |}).

End Chunker.

(* ================================================================== *)
(** ** BatchRequestBuilder: [file_to_jsonl] *)

(** An element of [text_chunks]: a [str], or the list of token ids that
    [encode] returns. *)
Inductive chunk :=
| TextChunk (s : text)
| TokenChunk (ids : list nat).

Record batch_request := {
  custom_id : text;
  method : text;
  url : text;
  body_model : text;
  system_content : text;
  user_content : chunk;
  body_max_tokens : nat;
  body_temperature : nat
}.

(** A batch file as it is written: its name and its lines. *)
Definition batch_file := (text * list batch_request)%type.

Inductive outcome (A : Type) :=
| Returned (a : A)
| TypeError.
Arguments Returned {A} a.
Arguments TypeError {A}.

Definition system_message (translation_language : text) : text :=
  "You are a translation assistant. Translate the following text to "
  ++ translation_language ++ "."
  ++ "The following STEPS must be followed. Whenever you are forming a response, ensure all STEPS have been followed otherwise start over, forming a new response and repeat until the finished response follows all the STEPS. Then send the response."
  ++ "STEPS:"
  ++ "STEP-1: Keep {{tag_x}} tags with numbers as they are."
  ++ "STEP-2: You must not miss the data from user's input in your responses especially {{tag_x}} tags, special symbols '{{{', '}}}', '|||' etc.!"
  ++ "STEP-3: Just translate. No comments or explanations."
  ++ "STEP-4: If you can't assist with the request just return the request as an answer.".

Section BatchRequestBuilder.
Context {tiktoken : Tiktoken}.

Record packer := {
  written : list batch_file;
  current_batch_tokens : nat;
  current_batch_requests : list batch_request;
  file_count : nat;
  request_count : nat;
  global_request_id : nat
}.

Definition packer_start : packer :=
  {| written := [];
     current_batch_tokens := 0;
     current_batch_requests := [];
     file_count := 1;
     request_count := 0;
     global_request_id := 1 |}.

Definition batch_file_name (n : nat) : text :=
  "batch_requests_part_" ++ str_of_nat n ++ ".jsonl".

(** [tokenizer.encode(chunk)]: the encoder takes a [str] and raises on
    anything else. *)
Definition encode_chunk (ch : chunk) : outcome (list nat) :=
  match ch with
  | TextChunk s => Returned (get_encoding "cl100k_base" s)
  | TokenChunk _ => TypeError
  end.

(** The body of the [if] that closes the batch in hand. *)
Definition seal (st : packer) : packer :=
  {| written :=
       written st ++ [(batch_file_name (file_count st), current_batch_requests st)];
     current_batch_tokens := 0;
     current_batch_requests := [];
     file_count := S (file_count st);
     request_count := 0;
     global_request_id := global_request_id st |}.

Definition make_request (system : text) (id : nat) (ch : chunk) : batch_request :=
  {| custom_id := "request-" ++ str_of_nat id;
     method := "POST";
     url := "/v1/chat/completions";
     body_model := "gpt-4o";
     system_content := system;
     user_content := ch;
     body_max_tokens := 1000;
     body_temperature := 0 |}.

(** One turn of the loop over [text_chunks]. *)
Definition pack_step (system : text) (system_tokens : nat)
  (max_tokens_per_batch max_requests_per_file : Z)
  (st : packer) (ch : chunk) : outcome packer :=
  match encode_chunk ch with
  | TypeError => TypeError
  | Returned chunk_tokens =>
      let total_tokens := system_tokens + length chunk_tokens + 100 in
      let st1 :=
        if (max_tokens_per_batch <? Z.of_nat (current_batch_tokens st + total_tokens))%Z
           || (max_requests_per_file <=? Z.of_nat (request_count st))%Z
        then seal st else st in
      Returned
        {| written := written st1;
           current_batch_tokens := current_batch_tokens st1 + total_tokens;
           current_batch_requests :=
             current_batch_requests st1
             ++ [make_request system (global_request_id st1) ch];
           file_count := file_count st1;
           request_count := S (request_count st1);
           global_request_id := S (global_request_id st1) |}
  end.

Fixpoint pack_loop (system : text) (system_tokens : nat)
  (max_tokens_per_batch max_requests_per_file : Z)
  (text_chunks : list chunk) (st : packer) : outcome packer :=
  match text_chunks with
  | [] => Returned st
  | ch :: rest =>
      match pack_step system system_tokens max_tokens_per_batch
              max_requests_per_file st ch with
      | Returned st' =>
          pack_loop system system_tokens max_tokens_per_batch
            max_requests_per_file rest st'
      | TypeError => TypeError
      end
  end.

(** The [if current_batch_requests:] after the loop. *)
Definition finish (st : packer) : list batch_file :=
  match current_batch_requests st with
  | [] => written st
  | _ :: _ =>
      written st ++ [(batch_file_name (file_count st), current_batch_requests st)]
  end.

(** [file_to_jsonl], given the language typed in and the content of the
    input file; the result is the batch files written, in order, and the
    content of [tag_dict.json]. *)
Definition file_to_jsonl (translation_language raw_input : text)
  (max_tokens_per_batch max_tokens_per_request max_requests_per_file : Z)
  : outcome (list batch_file * tag_dict) :=
  let (raw_data, tags) := extract_html_tags raw_input in
  let system := system_message translation_language in
  let system_tokens := count_tokens system "gpt-4o" in
  let user_tokens := count_tokens raw_data "gpt-4o" in
  let text_chunks :=
    if (max_tokens_per_request <? Z.of_nat user_tokens)%Z
    then
      map TextChunk
        (split_text_into_chunks_with_tags raw_data
           (max_tokens_per_request - Z.of_nat system_tokens - 100) "gpt-4o")
    else [TokenChunk (get_encoding "cl100k_base" raw_data)] in
  match pack_loop system system_tokens max_tokens_per_batch
          max_requests_per_file text_chunks packer_start with
  | Returned st => Returned (finish st, tags)
  | TypeError => TypeError
  end.

End BatchRequestBuilder.

(* ================================================================== *)
(** ** JobOrchestrator: [create_all_batches] and [monitor_and_download_results] *)

(** What the orchestrator reads of the job record that [check_batch_status]
    returns: [errors] is the list [errors.data] (empty when absent), each
    entry with its [message] if it has one. *)
Record batch_status := {
  status : text;
  output_file_id : option text;
  input_file_id : option text;
  errors : list (option text)
}.

(** The remote service, seen through the HTTP wrappers of [translator.py].
    Every call is answered according to the moment it is made (the number
    of calls made before it), so that any sequence of responses can be
    played; [None] is the wrapper's answer to a response that is not 200. *)
Class Remote := {
  check_batch_status : nat -> text -> option batch_status;
  check_active_batches : nat -> option (list (text * text));
  create_batch : nat -> text -> option text
}.

Inductive event :=
| Polled (batch_id : text) (answer : option batch_status)
| Listed (jobs : list (text * text))
| Created (file_id : text) (answer : option text)
| Downloaded (file_id filename : text)
| Slept (seconds : nat).

Record world := {
  clock : nat;
  history : list event
}.

Definition M (A : Type) : Type := world -> A * world.

Definition ret {A : Type} (a : A) : M A := fun w => (a, w).

Definition bind {A B : Type} (m : M A) (k : A -> M B) : M B :=
  fun w => let (a, w') := m w in k a w'.

Notation "x <- m ;; k" := (bind m (fun x => k))
  (at level 61, m at next level, right associativity).
Notation "m ;;; k" := (bind m (fun _ => k))
  (at level 61, right associativity).

(** A remote call: it advances the clock and is recorded. *)
Definition call {A : Type} (answer : nat -> A) (ev : A -> event) : M A :=
  fun w =>
    let a := answer (clock w) in
    (a, {| clock := S (clock w); history := history w ++ [ev a] |}).

Definition sleep (seconds : nat) : M unit :=
  fun w => (tt, {| clock := clock w; history := history w ++ [Slept seconds] |}).

(** The truth value of an id: [None] and the empty text are false. *)
Definition truthy (o : option text) : bool :=
  match o with
  | Some (_ :: _) => true
  | _ => false
  end.

Definition unwrap (o : option text) : text :=
  match o with
  | Some s => s
  | None => []
  end.

(** [status in ["in_progress", "cancelling", "finalizing", "validating"]]. *)
Definition is_active (s : text) : bool :=
  existsb (text_eqb s) ["in_progress"; "cancelling"; "finalizing"; "validating"].

Definition active_count (jobs : list (text * text)) : nat :=
  length (filter (fun b => is_active (snd b)) jobs).

(** [l.remove(x)]: the first occurrence goes. *)
Fixpoint remove_first (x : text) (l : list text) : list text :=
  match l with
  | [] => []
  | y :: l' => if text_eqb y x then l' else y :: remove_first x l'
  end.

Section JobOrchestrator.
Context {remote : Remote}.

(** [manage_batches]: the id and status of every listed job, and no job
    at all when the listing failed or came without [data]. *)
Definition manage_batches : M (list (text * text)) :=
  call (fun t => match check_active_batches t with
                 | Some data => data
                 | None => []
                 end)
       Listed.

Definition poll_status (batch_id : text) : M (option batch_status) :=
  call (fun t => check_batch_status t batch_id) (Polled batch_id).

Definition submit (file_id : text) : M (option text) :=
  call (fun t => create_batch t file_id) (Created file_id).

Definition download_batch_results (file_id filename : text) : M unit :=
  call (fun _ => tt) (fun _ => Downloaded file_id filename).

(** [create_all_batches]; every unit of [fuel] pays for one turn of the
    [while], and [None] says that the loop was still running when the fuel
    ran out. *)
Fixpoint create_all_batches_loop (fuel : nat) (pending_files batch_ids : list text)
  : M (option (list text)) :=
  match pending_files with
  | [] => ret (Some batch_ids)
  | file_id :: rest =>
      match fuel with
      | O => ret None
      | S fuel' =>
          jobs <- manage_batches ;;
          if active_count jobs <? 2
          then
            batch_id <- submit file_id ;;
            sleep 5 ;;;
            create_all_batches_loop fuel' rest
              (if truthy batch_id then batch_ids ++ [unwrap batch_id]
               else batch_ids)
          else
            sleep 5 ;;;
            create_all_batches_loop fuel' pending_files batch_ids
      end
  end.

Definition create_all_batches (fuel : nat) (file_ids : list text)
  : M (option (list text)) :=
  create_all_batches_loop fuel file_ids [].

(** The two lists that [monitor_and_download_results] mutates. *)
Record monitor := {
  batch_ids : list text;
  retry_batches : list text
}.

Definition no_message : text := "No error message provided".

(** [errors[0].get("message", ...) if errors else ...]. *)
Definition error_message (bs : batch_status) : text :=
  match errors bs with
  | Some m :: _ => m
  | None :: _ => no_message
  | [] => no_message
  end.

(** The branch of a job reported as failed. *)
Definition on_failed (batch_id : text) (bs : batch_status) (st : monitor)
  : monitor :=
  let retry :=
    if contains "Enqueued token limit reached" (error_message bs)
    then
      if truthy (input_file_id bs)
      then retry_batches st ++ [unwrap (input_file_id bs)]
      else retry_batches st
    else retry_batches st in
  {| batch_ids := remove_first batch_id (batch_ids st);
     retry_batches := retry |}.

(** The body of [for batch_id in batch_ids[:]].  The name of the output
    file is [os.path.join(output_dir, ...)] for a directory given with its
    final separator, as [main] gives it. *)
Definition poll_one (output_dir : text) (st : monitor) (batch_id : text)
  : M monitor :=
  answer <- poll_status batch_id ;;
  match answer with
  | None => ret st
  | Some bs =>
      if text_eqb (status bs) "completed" then
        (if truthy (output_file_id bs)
         then download_batch_results (unwrap (output_file_id bs))
                (output_dir ++ "output_" ++ batch_id ++ ".jsonl")
         else ret tt) ;;;
        ret {| batch_ids := remove_first batch_id (batch_ids st);
               retry_batches := retry_batches st |}
      else if text_eqb (status bs) "failed" then
        ret (on_failed batch_id bs st)
      else if is_active (status bs) then
        sleep 5 ;;; ret st
      else ret st
  end.

Fixpoint poll_all (output_dir : text) (snapshot : list text) (st : monitor)
  : M monitor :=
  match snapshot with
  | [] => ret st
  | batch_id :: rest =>
      st' <- poll_one output_dir st batch_id ;;
      poll_all output_dir rest st'
  end.

(** The body of [for input_file_id in retry_batches[:]]. *)
Fixpoint resubmit (snapshot : list text) (st : monitor) : M monitor :=
  match snapshot with
  | [] => ret st
  | input_file_id :: rest =>
      retry_batch_id <- submit input_file_id ;;
      resubmit rest
        (if truthy retry_batch_id
         then {| batch_ids := batch_ids st ++ [unwrap retry_batch_id];
                 retry_batches := remove_first input_file_id (retry_batches st) |}
         else st)
  end.

(** One turn of the outer [while]. *)
Definition monitor_round (output_dir : text) (st : monitor) : M monitor :=
  st1 <- poll_all output_dir (batch_ids st) st ;;
  match batch_ids st1, retry_batches st1 with
  | [], _ :: _ =>
      jobs <- manage_batches ;;
      if active_count jobs =? 0
      then resubmit (retry_batches st1) st1
      else sleep 10 ;;; ret st1
  | _, _ => ret st1
  end.

(** [monitor_and_download_results], for at most [fuel] turns of the outer
    [while]; the state returned tells whether the loop has ended (both
    lists empty) or was still running. *)
Fixpoint monitor_loop (fuel : nat) (output_dir : text) (st : monitor)
  : M monitor :=
  match batch_ids st, retry_batches st with
  | [], [] => ret st
  | _, _ =>
      match fuel with
      | O => ret st
      | S fuel' =>
          st' <- monitor_round output_dir st ;;
          monitor_loop fuel' output_dir st'
      end
  end.

Definition monitor_and_download_results (fuel : nat)
  (batch_ids0 : list text) (output_dir : text) : M monitor :=
  monitor_loop fuel output_dir
    {| batch_ids := batch_ids0; retry_batches := [] |}.

End JobOrchestrator.

Definition world_start : world := {| clock := 0; history := [] |}.

(* ================================================================== *)
(** ** Uploads: [upload_all_files] *)

(** [a <= b] on [str]: the order of the code points, a prefix before the
    texts it begins. *)
Fixpoint text_leb (a b : text) : bool :=
  match a, b with
  | [], _ => true
  | _ :: _, [] => false
  | x :: a', y :: b' =>
      if code x <? code y then true
      else if code y <? code x then false
      else text_leb a' b'
  end.

(** [sorted] on the entries of a directory, by name; it is stable. *)
Fixpoint insert_by_name {A : Type} (x : text * A) (l : list (text * A))
  : list (text * A) :=
  match l with
  | [] => [x]
  | y :: l' => if text_leb (fst x) (fst y) then x :: l else y :: insert_by_name x l'
  end.

Definition sorted_by_name {A : Type} (l : list (text * A)) : list (text * A) :=
  fold_right insert_by_name [] l.

(** [sorted(os.listdir(dir))]. *)
Definition sorted_names (names : list text) : list text :=
  map fst (sorted_by_name (map (fun n => (n, tt)) names)).



(* ================================================================== *)
(** ** Reassembler: [merge_jsonl_files] and [jsonl_to_csv_manual] *)

(** A line of a JSONL file as far as the code reads it: [custom_id] if it
    is there, and of every element of [response.body.choices] the [role] of
    its message, if it has one, and its [content], taken to be a string.  A
    line without [response], as those of the batch files, has no choice. *)
Record choice := {
  role : option text;
  content : text
}.

Record answer_line := {
  answer_id : option text;
  choices : list choice
}.

(** The directory as [os.listdir] returns it, every file with its lines. *)
Definition directory := list (text * list answer_line).

Definition is_assistant (c : choice) : bool :=
  match role c with
  | Some r => text_eqb r "assistant"
  | None => false
  end.

(** The loop over the choices of a line; [None] where [restore_img_tags]
    raises. *)
Fixpoint merge_choices (img_dict : tag_dict) (id : option text) (cs : list choice)
  : option (list (text * text)) :=
  match cs with
  | [] => Some []
  | c :: cs' =>
      if is_assistant c
      then
        match restore_img_tags (content c) img_dict with
        | None => None
        | Some restored_content =>
            match merge_choices img_dict id cs' with
            | None => None
            | Some rows =>
                Some (match id with
                      | Some custom => (custom, restored_content) :: rows
                      | None => rows
                      end)
            end
        end
      else merge_choices img_dict id cs'
  end.

Fixpoint merge_lines (img_dict : tag_dict) (ls : list answer_line)
  : option (list (text * text)) :=
  match ls with
  | [] => Some []
  | l :: ls' =>
      match merge_choices img_dict (answer_id l) (choices l),
            merge_lines img_dict ls' with
      | Some a, Some b => Some (a ++ b)
      | _, _ => None
      end
  end.

Fixpoint merge_files (img_dict : tag_dict) (files : list (text * list answer_line))
  : option (list (text * text)) :=
  match files with
  | [] => Some []
  | f :: files' =>
      match (if ends_with ".jsonl" (fst f) then merge_lines img_dict (snd f)
             else Some []),
            merge_files img_dict files' with
      | Some a, Some b => Some (a ++ b)
      | _, _ => None
      end
  end.

(** [merge_jsonl_files], given the directory and the content of
    [tag_dict.json]; a row is a [custom_id] with its restored content. *)
Definition merge_jsonl_files (jsonl_dir : directory) (img_dict : tag_dict)
  : option (list (text * text)) :=
  merge_files img_dict (sorted_by_name jsonl_dir).

Definition backslash : ascii := "092"%char.

(** The [re.sub] of [jsonl_to_csv_manual]: every backslash that a double
    quote follows is removed together with that quote. *)
Definition cleaned (s : text) : text :=
  fst (re_sub (lit [backslash; dquote]) (fun _ (st : unit) => ([], st)) s tt).

(** [jsonl_to_csv_manual]: what is written to the output file; [None]
    where the run raises, a [custom_id] holding no digit included. *)
Definition jsonl_to_csv_manual (jsonl_dir : directory) (img_dict : tag_dict)
  : option text :=
  match merge_jsonl_files jsonl_dir img_dict with
  | None => None
  | Some merged_data =>
      match keyed merged_data with
      | None => None
      | Some l => Some (flat_map (fun x => cleaned (snd (snd x))) (sorted_by_key l))
      end
  end.

(* ================================================================== *)
(** * The vocabulary of the properties *)

(** ** The matcher *)

(** A pattern that cannot match without taking a character. *)
Fixpoint consumes (r : regex) : bool :=
  match r with
  | Eps | Many0 _ | Bound => false
  | One _ | Many1 _ => true
  | Seq a b => consumes a || consumes b
  | Alt a b => consumes a && consumes b
  end.

(** ** Numerals and dictionaries *)

Definition all_digits (s : text) : Prop := Forall (fun c => is_digit c = true) s.

(** A dictionary whose keys are the placeholders numbered from [a] on. *)
Definition keys_from (a : nat) (d : tag_dict) : Prop :=
  map fst d = map tag_id (seq a (length d)).

(** ** Masked texts

    A masked text seen as a sequence of plain characters and placeholders,
    every placeholder carrying the span it stands for. *)

Inductive masked :=
| MChar (c : ascii)
| MTag (n : nat) (span : text).

Definition shown (p : masked) : text :=
  match p with
  | MChar c => [c]
  | MTag n _ => tag_id n
  end.

Definition meant (p : masked) : text :=
  match p with
  | MChar c => [c]
  | MTag _ span => span
  end.

(** The masked text as it is written, and the text it stands for. *)
Definition render (ps : list masked) : text := flat_map shown ps.

Definition original (ps : list masked) : text := flat_map meant ps.

(** Placeholder [n] put back. *)
Definition unmask_one (n : nat) (p : masked) : list masked :=
  match p with
  | MChar c => [p]
  | MTag m span => if m =? n then map MChar span else [p]
  end.

Definition unmask (n : nat) (ps : list masked) : list masked :=
  flat_map (unmask_one n) ps.

(** A text that cannot begin where a placeholder begins, wherever it is cut. *)
Fixpoint clash_free (p : text) : bool :=
  match p with
  | [] => true
  | c :: p' =>
      (negb (Ascii.eqb c "{")
       || match p' with
          | c' :: _ => negb (Ascii.eqb c' "{")
          | [] => false
          end)
      && clash_free p'
  end.

(** ** Placeholders in a text *)

(** The texts that [tag_pattern] matches. *)
Definition is_placeholder (p : text) : Prop :=
  exists d, d <> [] /\ all_digits d /\ p = "{{tag_" ++ d ++ "}}".

(** [re.findall] for [tag_pattern]: the placeholders of a text, in order. *)
Definition placeholders (s : text) : list text := re_findall tag_pattern s.

Definition no_braces (w : text) : Prop :=
  Forall (fun c => c <> "{"%char /\ c <> "}"%char) w.

(** Texts and placeholders in turn, beginning with a text. *)
Inductive text_first : list text -> Prop :=
| text_last (t : text) : text_first [t]
| text_then (t p : text) (l : list text) :
    is_placeholder p -> text_first l -> text_first (t :: p :: l).

Definition piece_ok (pc : piece) : Prop :=
  match pc with
  | Lit _ => True
  | Span m => is_placeholder m
  end.

(** The chunk in hand is empty or ends with a placeholder. *)
Definition ends_whole (cur : text) : Prop :=
  cur = [] \/ exists a p, is_placeholder p /\ cur = a ++ p.

(** The placeholders of what has been appended and of what is still to
    come. *)
Definition kept (st : splitter) (rest : text) : list text :=
  flat_map placeholders (chunks st) ++ placeholders (current_chunk st ++ rest).

(** ** A tokenizer to compute with: every character is one token *)

Definition one_token_per_character : Tiktoken :=
  {| encoding_for_model := fun _ => Some (map code);
     get_encoding := fun _ => map code |}.

(** ** The ledger of the splitter *)

(** The ledger is the splitter with its counts kept. *)
Definition mirrors (a : accounted) (st : splitter) : Prop :=
  map sealed_chunk (ledger a) = chunks st
  /\ acc_chunk a = current_chunk st
  /\ acc_length a = current_chunk_length st.

Section AccountingTerms.
Context {tiktoken : Tiktoken}.
Variables (max_tokens : Z) (model : text).

(** A count within the threshold, or the count of one part taken alone,
    or the count of a part together with the placeholder carried over to
    it. *)
Definition accounted_for (parts : list text) (from : text) (n : nat) : Prop :=
  over_threshold n max_tokens = false
  \/ (In from parts /\ n = count_tokens from model)
  \/ (exists part,
        In part parts /\ from = "{{tag_1}}" ++ part
        /\ n = count_tokens ("{{tag_1}}" ++ part) model).

Definition settled (parts : list text) (a : accounted) : Prop :=
  Forall (fun e => accounted_for parts (sealed_from e) (sealed_count e)) (ledger a)
  /\ accounted_for parts (acc_chunk a) (acc_length a).

End AccountingTerms.

(** The claim read on the chunks themselves: a chunk counts no more than
    the threshold, or is one of the parts of the text. *)
Definition chunk_bounded {tiktoken : Tiktoken}
  (s : text) (max_tokens : Z) (model : text) (c : text) : bool :=
  negb (over_threshold (count_tokens c model) max_tokens)
  || existsb (text_eqb c) (re_split tag_pattern s).

(** ** Packing *)

(** The requests for the chunks [chs], numbered from [id] on. *)
Fixpoint numbered (system : text) (id : nat) (chs : list chunk) : list batch_request :=
  match chs with
  | [] => []
  | ch :: rest => make_request system id ch :: numbered system (S id) rest
  end.

Section PackingTerms.
Context {tiktoken : Tiktoken}.

(** What a request adds to [current_batch_tokens]. *)
Definition request_cost (system_tokens : nat) (r : batch_request) : nat :=
  match user_content r with
  | TextChunk s => system_tokens + length (get_encoding "cl100k_base" s) + 100
  | TokenChunk _ => 0
  end.

Definition file_cost (system_tokens : nat) (reqs : list batch_request) : nat :=
  list_sum (map (request_cost system_tokens) reqs).

(** Every request made so far, in the order of creation. *)
Definition all_requests (st : packer) : list batch_request :=
  flat_map snd (written st) ++ current_batch_requests st.

(** A batch within its limits, or with no more than the one request that
    every batch receives when it is opened. *)
Definition within (system_tokens : nat) (budget cap : Z)
  (reqs : list batch_request) : Prop :=
  length reqs <= 1
  \/ ((Z.of_nat (file_cost system_tokens reqs) <= budget)%Z
      /\ (Z.of_nat (length reqs) <= cap)%Z).

Definition tidy (system_tokens : nat) (budget cap : Z) (st : packer) : Prop :=
  current_batch_tokens st = file_cost system_tokens (current_batch_requests st)
  /\ request_count st = length (current_batch_requests st)
  /\ within system_tokens budget cap (current_batch_requests st)
  /\ Forall (fun f => within system_tokens budget cap (snd f)) (written st).

End PackingTerms.

Definition within_limits {tiktoken : Tiktoken} (system_tokens : nat)
  (budget cap : Z) (reqs : list batch_request) : bool :=
  (Z.of_nat (file_cost system_tokens reqs) <=? budget)%Z
  && (Z.of_nat (length reqs) <=? cap)%Z.

(** ** Inputs *)

Definition scenario_input : text := "Hello <b>world</b>" ++ [newline].

(** An input long enough to be split: sixty paragraphs. *)
Definition long_input : text :=
  concat (repeat ("<p>some words here</p>" ++ [newline]) 60).

(** ** Histories of the orchestrator *)

(** What the events so far allow: [None] once a job has been created out of
    turn; otherwise whether a job may be created now, which is so from a
    listing that reports no active job until something other than the
    creation of a job happens. *)
Definition gate_step (s : option bool) (e : event) : option bool :=
  match s with
  | None => None
  | Some open =>
      match e with
      | Listed jobs => Some (active_count jobs =? 0)
      | Created _ _ => if open then Some true else None
      | _ => Some false
      end
  end.

Definition gate (h : list event) : option bool := fold_left gate_step h (Some false).

(** Every job of the history was created behind the barrier. *)
Definition behind_barrier (h : list event) : Prop := gate h <> None.

(** An event that neither lists nor creates jobs closes the gate. *)
Definition quiet (e : event) : Prop :=
  match e with
  | Listed _ | Created _ _ => False
  | _ => True
  end.

(** As [gate_step], for the admission rule: a listing that reports fewer
    than two active jobs lets one job in. *)
Definition admission_step (s : option bool) (e : event) : option bool :=
  match s with
  | None => None
  | Some open =>
      match e with
      | Listed jobs => Some (active_count jobs <? 2)
      | Created _ _ => if open then Some false else None
      | _ => Some false
      end
  end.

Definition admission (h : list event) : option bool :=
  fold_left admission_step h (Some false).

(** ** Reports of the remote service *)

(** The first message of a failed job, if it has one, names the quota. *)
Definition first_error_is_quota (bs : batch_status) : bool :=
  match errors bs with
  | Some m :: _ => contains "Enqueued token limit reached" m
  | _ => false
  end.

Definition some_error_is_quota (bs : batch_status) : bool :=
  existsb (fun e => match e with
                    | Some m => contains "Enqueued token limit reached" m
                    | None => false
                    end) (errors bs).

(** A job that failed for two reasons, the quota being the second. *)
Definition quota_named_second : batch_status :=
  {| status := "failed";
     output_file_id := None;
     input_file_id := Some "file-1";
     errors := [Some "Invalid JSON on line 3";
                Some "Enqueued token limit reached for gpt-4o" ] |}.

Definition answers_quota_named_second : Remote :=
  {| check_batch_status := fun _ _ => Some quota_named_second;
     check_active_batches := fun _ => Some [];
     create_batch := fun _ _ => None |}.

Definition quota_named_first : batch_status :=
  {| status := "failed";
     output_file_id := None;
     input_file_id := Some "file-1";
     errors := [Some "Enqueued token limit reached for gpt-4o";
                Some "Invalid JSON on line 3"] |}.

Definition answers_quota_named_first : Remote :=
  {| check_batch_status := fun _ _ => Some quota_named_first;
     check_active_batches := fun _ => Some [];
     create_batch := fun _ _ => None |}.

Definition failed_on_quota (file_id : text) : batch_status :=
  {| status := "failed";
     output_file_id := None;
     input_file_id := Some file_id;
     errors := [Some "Enqueued token limit reached for gpt-4o"] |}.

Definition validating (file_id : text) : batch_status :=
  {| status := "validating";
     output_file_id := None;
     input_file_id := Some file_id;
     errors := [] |}.

(** A service on which the three jobs of the run have failed on the quota,
    and which accepts every job and starts validating it. *)
Definition three_quota_failures : Remote :=
  {| check_batch_status := fun _ batch_id =>
       if text_eqb batch_id "batch_1" then Some (failed_on_quota "file_1")
       else if text_eqb batch_id "batch_2" then Some (failed_on_quota "file_2")
       else if text_eqb batch_id "batch_3" then Some (failed_on_quota "file_3")
       else Some (validating (skipn (length "retry_of_") batch_id));
     check_active_batches := fun _ =>
       Some [("batch_1", "failed"); ("batch_2", "failed"); ("batch_3", "failed")];
     create_batch := fun _ file_id => Some ("retry_of_" ++ file_id) |}.

(** ** More on dictionaries

    The distinct items of [l] that are not in [seen], in the order in which
    they first occur. *)
Fixpoint first_occurrences (seen l : list text) : list text :=
  match l with
  | [] => []
  | x :: l' =>
      if existsb (fun v => text_eqb v x) seen
      then first_occurrences seen l'
      else x :: first_occurrences (seen ++ [x]) l'
  end.

(** What the masked text holds in place of a piece, for the dictionary [d]
    of the whole run. *)
Definition masked_piece (d : tag_dict) (p : piece) : text :=
  match p with
  | Lit c => [c]
  | Span m =>
      match find_id m d with
      | Some id => id
      | None => []
      end
  end.


(** The order of the sort keys. *)
Definition key_le (x y : nat * (text * text)) : Prop := fst x <= fst y.

(** ** More on chunks *)

(** The characters of a text that [str.strip] never drops. *)
Definition visible (s : text) : text := filter (fun c => negb (is_space c)) s.

(** What a splitter holds: its chunks and the chunk in hand. *)
Definition held (st : splitter) : text :=
  visible (concat (chunks st) ++ current_chunk st).

(** ** More on packing *)

Section PackingTermsMore.
Context {tiktoken : Tiktoken}.

(** The files written are numbered from one on, and [file_count] is the
    number of the next. *)
Definition files_in_order (st : packer) : Prop :=
  map fst (written st) = map batch_file_name (seq 1 (length (written st)))
  /\ file_count st = S (length (written st)).

(** An empty file can only be the first: once a request has been made, the
    batch in hand is never empty again. *)
Definition only_first_empty (st : packer) : Prop :=
  (written st = [] /\ current_batch_requests st = [])
  \/ (current_batch_requests st <> []
      /\ Forall (fun f => snd f <> []) (tl (written st))).

(** The batch in hand, unless it is empty, and the files written are all
    within both limits, and no file is empty. *)
Definition snug (system_tokens : nat) (budget cap : Z) (st : packer) : Prop :=
  current_batch_tokens st = file_cost system_tokens (current_batch_requests st)
  /\ request_count st = length (current_batch_requests st)
  /\ (current_batch_requests st = []
      \/ within_limits system_tokens budget cap (current_batch_requests st) = true)
  /\ Forall (fun f => snd f <> []
                      /\ within_limits system_tokens budget cap (snd f) = true)
       (written st).

(** What the request for a chunk adds to the batch. *)
Definition chunk_cost (system_tokens : nat) (s : text) : nat :=
  system_tokens + length (get_encoding "cl100k_base" s) + 100.

End PackingTermsMore.

(** ** More on histories *)

(** The input files for which a job was asked, in order. *)
Definition created_files (h : list event) : list text :=
  flat_map (fun e => match e with Created f _ => [f] | _ => [] end) h.

(** The ids of the jobs that the service accepted, in order. *)
Definition accepted_jobs (h : list event) : list text :=
  flat_map (fun e => match e with
                     | Created _ a => if truthy a then [unwrap a] else []
                     | _ => []
                     end) h.


Definition sleeps (h : list event) : list nat :=
  flat_map (fun e => match e with Slept n => [n] | _ => [] end) h.

(** An event of a monitor that only waits. *)
Definition waiting (e : event) : bool :=
  match e with
  | Polled _ _ | Slept _ => true
  | _ => false
  end.

(** What [manage_batches] returns at the moment [t]. *)
Definition listing {remote : Remote} (t : nat) : list (text * text) :=
  match check_active_batches t with
  | Some data => data
  | None => []
  end.

(** ** More services *)

(** A service on which two jobs of some other run are always in progress. *)
Definition two_jobs_in_progress : Remote :=
  {| check_batch_status := fun _ _ => None;
     check_active_batches := fun _ =>
       Some [("batch_a", "in_progress"); ("batch_b", "in_progress")];
     create_batch := fun _ file_id => Some ("job_of_" ++ file_id) |}.

(** A service on which every job stays in progress. *)
Definition always_in_progress : Remote :=
  {| check_batch_status := fun _ _ =>
       Some {| status := "in_progress"; output_file_id := None;
               input_file_id := Some "file_1"; errors := [] |};
     check_active_batches := fun _ => Some [("batch_1", "in_progress")];
     create_batch := fun _ _ => None |}.

(** A service on which every job has expired. *)
Definition always_expired : Remote :=
  {| check_batch_status := fun _ _ =>
       Some {| status := "expired"; output_file_id := None;
               input_file_id := Some "file_1"; errors := [] |};
     check_active_batches := fun _ => Some [];
     create_batch := fun _ _ => None |}.


(** A service that is idle and refuses every job. *)
Definition refusing : Remote :=
  {| check_batch_status := fun _ _ => None;
     check_active_batches := fun _ => Some [];
     create_batch := fun _ _ => None |}.

(** An event of a monitor that only asks. *)
Definition polling (e : event) : bool :=
  match e with
  | Polled _ _ => true
  | _ => false
  end.


(** The answer of the service for a job that is neither completed nor
    failed, or no answer at all. *)
Definition unfinished (a : option batch_status) : bool :=
  match a with
  | Some bs => negb (text_eqb (status bs) "completed")
               && negb (text_eqb (status bs) "failed")
  | None => true
  end.

(** As [unfinished], for a status that is not among the active ones
    either, as [expired] and [cancelled] are. *)
Definition abandoned (a : option batch_status) : bool :=
  match a with
  | Some bs => negb (text_eqb (status bs) "completed")
               && negb (text_eqb (status bs) "failed")
               && negb (is_active (status bs))
  | None => true
  end.

(** ** More on directories *)

(** The order of the file names. *)
Definition name_le {A : Type} (x y : text * A) : Prop :=
  text_leb (fst x) (fst y) = true.

(** A line none of whose choices is the assistant's, as the lines of the
    batch files, which hold requests. *)
Definition no_answer (l : answer_line) : bool :=
  forallb (fun c => negb (is_assistant c)) (choices l).

(** ** Directories to compute with *)

Definition answer (id : text) (s : text) : answer_line :=
  {| answer_id := Some id;
     choices := [{| role := Some "assistant"; content := s |}] |}.

Definition request_line (id : text) : answer_line :=
  {| answer_id := Some id; choices := [] |}.

(** The answers to three requests in one file. *)
Definition answers_in_one_file : directory :=
  [("output_batch_1.jsonl",
    [answer "request-2" "deux{{tag_1}}"; answer "request-10" "dix";
     answer "request-1" "un{{tag_1}}"])].

(** The same answers in two files, beside the batch file and the
    dictionary. *)
Definition answers_in_two_files : directory :=
  [("tag_dict.json", []);
   ("output_batch_b.jsonl", [answer "request-10" "dix"]);
   ("batch_requests_part_1.jsonl",
    [request_line "request-1"; request_line "request-2"; request_line "request-10"]);
   ("output_batch_a.jsonl",
    [answer "request-1" "un{{tag_1}}"; answer "request-2" "deux{{tag_1}}"])].

(* ================================================================== *)
(** * Texts, numerals and the matcher *)

(** ** Texts *)

Lemma text_eqb_eq (a b : text) : text_eqb a b = true <-> a = b.
Proof.
  revert b; induction a as [|x a IH]; intros [|y b]; simpl; split;
    try discriminate; try reflexivity.
  - intros H. apply andb_true_iff in H as [H1 H2].
    apply Ascii.eqb_eq in H1. apply IH in H2. congruence.
  - intros H. injection H as -> ->.
    rewrite Ascii.eqb_refl. simpl. apply IH. reflexivity.
Qed.

Lemma text_eqb_refl (a : text) : text_eqb a a = true.
Proof. apply text_eqb_eq. reflexivity. Qed.

Lemma text_eqb_neq (a b : text) : text_eqb a b = false <-> a <> b.
Proof.
  split.
  - intros H E. apply text_eqb_eq in E. congruence.
  - intros H. destruct (text_eqb a b) eqn:E; [|reflexivity].
    apply text_eqb_eq in E. contradiction.
Qed.

Lemma starts_with_iff (p s : text) :
  starts_with p s = true <-> exists r, s = p ++ r.
Proof.
  revert s; induction p as [|x p IH]; intros s; simpl.
  - split; [intros _; exists s; reflexivity | reflexivity].
  - destruct s as [|y s].
    + split; [discriminate | intros [r H]; discriminate].
    + rewrite andb_true_iff, Ascii.eqb_eq, IH. split.
      * intros [-> [r ->]]. exists r. reflexivity.
      * intros [r H]. injection H as -> ->. split; [reflexivity | exists r; reflexivity].
Qed.

Lemma starts_with_app (p r : text) : starts_with p (p ++ r) = true.
Proof. apply starts_with_iff. exists r. reflexivity. Qed.

Lemma starts_with_trans (p q s : text) :
  starts_with p q = true -> starts_with q s = true -> starts_with p s = true.
Proof.
  rewrite !starts_with_iff. intros [r ->] [r' ->].
  exists (r ++ r'). rewrite app_assoc. reflexivity.
Qed.

Lemma contains_tail (p : text) (c : ascii) (s : text) :
  contains p (c :: s) = false -> contains p s = false.
Proof. simpl. intros H. apply orb_false_iff in H as [_ H]. exact H. Qed.

Lemma contains_head (p s : text) :
  contains p s = false -> starts_with p s = false.
Proof.
  destruct s; simpl; intros H; apply orb_false_iff in H as [H _]; exact H.
Qed.

Lemma contains_app_r (p u s : text) :
  contains p (u ++ s) = false -> contains p s = false.
Proof.
  induction u as [|c u IH]; simpl app; intros H; [exact H|].
  apply IH. eapply contains_tail. exact H.
Qed.

(** ** Decimal numerals *)

Lemma uint_digits (d : Decimal.uint) :
  all_digits (list_ascii_of_string (DecimalString.NilEmpty.string_of_uint d)).
Proof. induction d; simpl; constructor; try reflexivity; assumption. Qed.

Lemma uint_value (d : Decimal.uint) (acc : nat) :
  fold_left (fun a c => 10 * a + (code c - 48))
    (list_ascii_of_string (DecimalString.NilEmpty.string_of_uint d)) acc
  = Nat.of_uint_acc d acc.
Proof.
  revert acc; induction d; intros acc; simpl fold_left; simpl Nat.of_uint_acc;
    try reflexivity; rewrite IHd; f_equal; rewrite Nat.tail_mul_spec;
    unfold code; simpl nat_of_ascii; lia.
Qed.

Lemma unorm_not_nil (d : Decimal.uint) : Decimal.unorm d <> Decimal.Nil.
Proof. induction d; simpl; try discriminate. exact IHd. Qed.

Lemma str_of_nat_digits (n : nat) : all_digits (str_of_nat n).
Proof. apply uint_digits. Qed.

Lemma str_of_nat_not_empty (n : nat) : str_of_nat n <> [].
Proof.
  unfold str_of_nat.
  pose proof (DecimalNat.Unsigned.to_of (Nat.to_uint n)) as H.
  rewrite DecimalNat.Unsigned.of_to in H.
  pose proof (unorm_not_nil (Nat.to_uint n)) as H'.
  rewrite <- H in H'.
  destruct (Nat.to_uint n); simpl; try discriminate.
Qed.

Lemma int_of_str (n : nat) : int_of_text (str_of_nat n) = n.
Proof.
  unfold int_of_text, str_of_nat. rewrite uint_value.
  apply DecimalNat.Unsigned.of_to.
Qed.

Lemma str_of_nat_inj (n m : nat) : str_of_nat n = str_of_nat m -> n = m.
Proof.
  intros H. rewrite <- (int_of_str n), <- (int_of_str m), H. reflexivity.
Qed.

(** ** The matcher and the scanner *)

Lemma many0_stops (k : cls) (prev : option ascii) (s : text) (q : pos) :
  In q (many0 k prev s) ->
  exists u, s = u ++ snd q /\ Forall (fun c => in_cls k c = true) u.
Proof.
  revert prev; induction s as [|c s IH]; intros prev; simpl.
  - intros [<-|[]]. exists []. split; [reflexivity | constructor].
  - destruct (in_cls k c) eqn:E.
    + intros H. apply in_app_or in H as [H|[<-|[]]].
      * apply IH in H as [u [-> Hu]]. exists (c :: u).
        split; [reflexivity | constructor; assumption].
      * exists []. split; [reflexivity | constructor].
    + intros [<-|[]]. exists []. split; [reflexivity | constructor].
Qed.

Lemma many0_greedy (k : cls) (d : text) (prev : option ascii) (rest : text) :
  Forall (fun c => in_cls k c = true) d ->
  match rest with c :: _ => in_cls k c = false | [] => True end ->
  exists prev' l, many0 k prev (d ++ rest) = (prev', rest) :: l.
Proof.
  intros Hd Hrest. revert prev; induction Hd as [|c d Hc Hd IH]; intros prev.
  - simpl. destruct rest as [|c rest]; [do 2 eexists; reflexivity|].
    simpl in *. rewrite Hrest. do 2 eexists; reflexivity.
  - simpl. rewrite Hc. destruct (IH (Some c)) as [prev' [l ->]]. simpl.
    do 2 eexists; reflexivity.
Qed.

Lemma one_stops (k : cls) (p q : pos) :
  In q (one k p) -> exists c, snd p = c :: snd q /\ in_cls k c = true.
Proof.
  unfold one. destruct (snd p) as [|c s]; [intros []|].
  destruct (in_cls k c) eqn:E; [|intros []].
  intros [<-|[]]. exists c. split; [reflexivity | assumption].
Qed.

(** Every match ends inside the subject. *)
Lemma run_stops (r : regex) (p q : pos) :
  In q (run r p) -> exists u, snd p = u ++ snd q.
Proof.
  revert p q; induction r; intros p q; simpl.
  - intros [<-|[]]. exists []. reflexivity.
  - intros H. apply one_stops in H as [c [H _]]. exists [c]. exact H.
  - intros H. apply in_flat_map in H as [m [H1 H2]].
    apply one_stops in H1 as [c [H1 _]].
    apply many0_stops in H2 as [u [H2 _]].
    exists (c :: u). rewrite H1, H2. reflexivity.
  - intros H. apply many0_stops in H as [u [H _]]. exists u. exact H.
  - destruct (xorb _ _); [|intros []]. intros [<-|[]]. exists []. reflexivity.
  - intros H. apply in_flat_map in H as [m [H1 H2]].
    apply IHr1 in H1 as [u1 H1]. apply IHr2 in H2 as [u2 H2].
    exists (u1 ++ u2). rewrite H1, H2, app_assoc. reflexivity.
  - intros H. apply in_app_or in H as [H|H]; [apply IHr1 in H | apply IHr2 in H]; exact H.
Qed.

Lemma run_consumes (r : regex) :
  forall p q, consumes r = true -> In q (run r p) -> length (snd q) < length (snd p).
Proof.
  induction r; intros p q Hc Hin; simpl in Hc; try discriminate.
  - apply one_stops in Hin as [c [H _]]. rewrite H. simpl. lia.
  - simpl in Hin. apply in_flat_map in Hin as [m [H1 H2]].
    apply one_stops in H1 as [c [H1 _]]. apply many0_stops in H2 as [u [H2 _]].
    rewrite H1, H2. simpl. rewrite length_app. lia.
  - simpl in Hin. apply in_flat_map in Hin as [m [H1 H2]].
    pose proof (run_stops _ _ _ H1) as [u1 E1].
    pose proof (run_stops _ _ _ H2) as [u2 E2].
    apply orb_true_iff in Hc as [Hc|Hc].
    + specialize (IHr1 _ _ Hc H1). rewrite E2, length_app in IHr1. lia.
    + specialize (IHr2 _ _ Hc H2). rewrite E1, length_app. lia.
  - apply andb_true_iff in Hc as [Hc1 Hc2].
    simpl in Hin. apply in_app_or in Hin as [H|H]; [apply IHr1 | apply IHr2]; assumption.
Qed.

(** The three patterns of the program never match the empty text. *)
Lemma match_len_positive (r : regex) (prev : option ascii) (s : text) (n : nat) :
  consumes r = true -> match_len r prev s = Some n -> 0 < n.
Proof.
  intros Hc. unfold match_len.
  destruct (run r (prev, s)) as [|[prev' rest] l] eqn:E; [discriminate|].
  intros H. injection H as <-.
  assert (Hin : In (prev', rest) (run r (prev, s))) by (rewrite E; left; reflexivity).
  apply (run_consumes r _ _ Hc) in Hin. simpl in Hin. lia.
Qed.

Lemma patterns_consume :
  consumes span_pattern = true /\ consumes tag_pattern = true
  /\ consumes digits_pattern = true.
Proof. repeat split. Qed.

Lemma match_len_le (r : regex) (prev : option ascii) (s : text) (n : nat) :
  match_len r prev s = Some n -> n <= length s.
Proof.
  unfold match_len. destruct (run r (prev, s)) as [|[prev' rest] l]; [discriminate|].
  intros H. injection H as <-. lia.
Qed.

(** The scanner loses nothing of the subject. *)
Lemma flatten_scan (r : regex) (s : text) :
  forall skip prev, flatten (scan r skip prev s) = skipn skip s.
Proof.
  induction s as [|c s IH]; intros skip prev; simpl.
  - destruct skip; reflexivity.
  - destruct skip as [|k]; [|apply IH].
    destruct (match_len r prev (c :: s)) as [[|k]|] eqn:E; simpl.
    + rewrite IH. reflexivity.
    + rewrite IH. f_equal. apply firstn_skipn.
    + rewrite IH. reflexivity.
Qed.

Lemma flatten_finditer (r : regex) (s : text) : flatten (finditer r s) = s.
Proof. apply flatten_scan. Qed.

Lemma last_cons {A : Type} (x : A) (l : list A) (d : A) :
  last (x :: l) d = last l x.
Proof.
  revert x d; induction l as [|y l IH]; intros x d; [reflexivity|].
  change (last (x :: y :: l) d) with (last (y :: l) d).
  rewrite !IH. reflexivity.
Qed.

Lemma scan_skip (r : regex) (u s : text) (prev : option ascii) :
  scan r (length u) prev (u ++ s) = scan r 0 (last (map Some u) prev) s.
Proof.
  revert prev; induction u as [|c u IH]; intros prev; [reflexivity|].
  simpl length. simpl app. simpl scan. rewrite IH.
  f_equal. symmetry. apply (last_cons (Some c) (map Some u) prev).
Qed.

Lemma scan_lit (r : regex) (prev : option ascii) (c : ascii) (s : text) :
  match_len r prev (c :: s) = None ->
  scan r 0 prev (c :: s) = Lit c :: scan r 0 (Some c) s.
Proof. intros H. simpl. rewrite H. reflexivity. Qed.

Lemma scan_span (r : regex) (prev : option ascii) (m s : text) :
  m <> [] -> match_len r prev (m ++ s) = Some (length m) ->
  scan r 0 prev (m ++ s) = Span m :: scan r 0 (last (map Some m) prev) s.
Proof.
  destruct m as [|c m]; [congruence|]. intros _ H.
  assert (E : last (map Some (c :: m)) prev = last (map Some m) (Some c))
    by apply last_cons.
  rewrite E. clear E.
  simpl app in *. simpl length in *. simpl scan. rewrite H.
  rewrite firstn_app, Nat.sub_diag, firstn_all, firstn_O, app_nil_r.
  rewrite scan_skip. reflexivity.
Qed.

(** ** [str.replace] *)

Lemma replace_skip (old new u s : text) :
  replace_from old new (length u) (u ++ s) = replace_from old new 0 s.
Proof. induction u as [|c u IH]; [reflexivity | exact IH]. Qed.

Lemma replace_miss (old new : text) (c : ascii) (s : text) :
  starts_with old (c :: s) = false ->
  replace_from old new 0 (c :: s) = c :: replace_from old new 0 s.
Proof. intros H. simpl replace_from. rewrite H. reflexivity. Qed.

Lemma replace_hit (old new s : text) :
  old <> [] ->
  replace_from old new 0 (old ++ s) = new ++ replace_from old new 0 s.
Proof.
  destruct old as [|c old]; [congruence|]. intros _.
  simpl app. simpl replace_from.
  rewrite Ascii.eqb_refl, starts_with_app. simpl.
  rewrite Nat.sub_0_r, replace_skip. reflexivity.
Qed.

Lemma replace_other_head (old new u s : text) (x : ascii) :
  starts_with [x] old = true ->
  Forall (fun c => c <> x) u ->
  replace_from old new 0 (u ++ s) = u ++ replace_from old new 0 s.
Proof.
  intros Hx Hu. induction Hu as [|c u Hc Hu IH]; [reflexivity|].
  simpl app. rewrite replace_miss, IH; [reflexivity|].
  destruct (starts_with old (c :: u ++ s)) eqn:E; [|reflexivity].
  pose proof (starts_with_trans _ _ _ Hx E) as H. simpl in H.
  apply andb_true_iff in H as [H _]. apply Ascii.eqb_eq in H. congruence.
Qed.

(* ================================================================== *)
(** * Placeholders *)

(** ** The names of the placeholders *)

Lemma digit_not_brace (c : ascii) : is_digit c = true -> c <> "{"%char /\ c <> "}"%char.
Proof. intros H; split; intros ->; discriminate. Qed.

Lemma digits_then_brace (d1 d2 r1 r2 : text) :
  all_digits d1 -> all_digits d2 ->
  d1 ++ "}"%char :: r1 = d2 ++ "}"%char :: r2 -> d1 = d2 /\ r1 = r2.
Proof.
  intros H1; revert d2; induction H1 as [|c d1 Hc H1 IH]; intros d2 H2 E.
  - destruct H2 as [|c' d2 Hc' H2]; simpl in E.
    + injection E as ->. split; reflexivity.
    + injection E as <- _. discriminate.
  - destruct H2 as [|c' d2 Hc' H2]; simpl in E.
    + injection E as -> _. discriminate.
    + injection E as -> E. apply IH in E as [-> ->]; [split; reflexivity | assumption].
Qed.

Lemma tag_id_inj (n m : nat) : tag_id n = tag_id m -> n = m.
Proof.
  unfold tag_id. intros H. apply app_inv_head in H.
  apply digits_then_brace in H as [H _]; try apply str_of_nat_digits.
  apply str_of_nat_inj. exact H.
Qed.

Lemma tag_id_not_empty (n : nat) : tag_id n <> [].
Proof. discriminate. Qed.

(** A placeholder is the start of a text only where the text goes on with
    that very placeholder. *)
Lemma starts_with_tag_id (n m : nat) (s : text) :
  starts_with (tag_id n) (tag_id m ++ s) = true -> n = m.
Proof.
  intros H. apply starts_with_iff in H as [r H].
  unfold tag_id in H. rewrite <- !app_assoc in H. apply app_inv_head in H.
  simpl in H. symmetry in H.
  apply digits_then_brace in H as [H _]; try apply str_of_nat_digits.
  apply str_of_nat_inj. exact H.
Qed.

(** ** The number in a placeholder or in a request id *)

Lemma match_digits_none (prev : option ascii) (c : ascii) (s : text) :
  is_digit c = false -> match_len digits_pattern prev (c :: s) = None.
Proof. intros H. unfold match_len. simpl. unfold one. simpl. rewrite H. reflexivity. Qed.

Lemma match_digits_some (prev : option ascii) (d rest : text) :
  d <> [] -> all_digits d ->
  match rest with c :: _ => is_digit c = false | [] => True end ->
  match_len digits_pattern prev (d ++ rest) = Some (length d).
Proof.
  intros Hne Hd Hrest. destruct Hd as [|c d Hc Hd]; [congruence|].
  unfold match_len. simpl. unfold one. simpl. rewrite Hc. simpl.
  destruct (many0_greedy CDigit d (Some c) rest Hd Hrest) as [prev' [l ->]].
  simpl. f_equal. rewrite length_app. destruct (length rest); lia.
Qed.

Lemma search_digits_tag_id (n : nat) :
  re_search digits_pattern (tag_id n) = Some (str_of_nat n).
Proof.
  unfold re_search, re_findall, finditer, tag_id.
  simpl app. do 6 (rewrite scan_lit by (apply match_digits_none; reflexivity)).
  rewrite scan_span.
  - reflexivity.
  - apply str_of_nat_not_empty.
  - apply match_digits_some;
      [apply str_of_nat_not_empty | apply str_of_nat_digits | reflexivity].
Qed.

Lemma first_number_tag_id (n : nat) : first_number (tag_id n) = Some n.
Proof. unfold first_number. rewrite search_digits_tag_id. simpl. rewrite int_of_str. reflexivity. Qed.

Lemma keys_from_cons (a : nat) (kv : text * text) (d : tag_dict) :
  keys_from a (kv :: d) <-> fst kv = tag_id a /\ keys_from (S a) d.
Proof.
  unfold keys_from. simpl. split.
  - intros H. injection H as H1 H2. split; assumption.
  - intros [-> ->]. reflexivity.
Qed.

Lemma keys_from_snoc (a : nat) (d : tag_dict) (v : text) :
  keys_from a d -> keys_from a (d ++ [(tag_id (a + length d), v)]).
Proof.
  unfold keys_from. intros H.
  rewrite map_app, length_app, seq_app, map_app, H. reflexivity.
Qed.

Lemma keys_from_in (a : nat) (d : tag_dict) (k v : text) :
  keys_from a d -> In (k, v) d -> exists n, k = tag_id n /\ a <= n < a + length d.
Proof.
  unfold keys_from. intros H Hin.
  apply (in_map fst) in Hin. rewrite H in Hin. simpl in Hin.
  apply in_map_iff in Hin as [n [<- Hn]]. apply in_seq in Hn.
  exists n. split; [reflexivity | exact Hn].
Qed.

Lemma keyed_keys_from (d : tag_dict) :
  forall a, keys_from a d -> keyed d = Some (combine (seq a (length d)) d).
Proof.
  induction d as [|kv d IH]; intros a H; [reflexivity|].
  apply keys_from_cons in H as [Hk Hd].
  simpl. rewrite Hk, first_number_tag_id, (IH (S a) Hd). reflexivity.
Qed.

Lemma sorted_by_key_ascending (d : tag_dict) :
  forall a, sorted_by_key (combine (seq a (length d)) d) = combine (seq a (length d)) d.
Proof.
  induction d as [|kv d IH]; intros a; [reflexivity|].
  simpl. unfold sorted_by_key in *. rewrite IH.
  destruct d as [|kv' d]; [reflexivity|].
  simpl. destruct (a <=? S a) eqn:E; [reflexivity|].
  apply Nat.leb_gt in E. lia.
Qed.

Lemma fold_combine (d : tag_dict) :
  forall a s,
    fold_left (fun acc x => str_replace (fst (snd x)) (snd (snd x)) acc)
      (combine (seq a (length d)) d) s
    = fold_left (fun acc kv => str_replace (fst kv) (snd kv) acc) d s.
Proof. induction d as [|kv d IH]; intros a s; [reflexivity | apply IH]. Qed.

Lemma restore_keys_from (a : nat) (d : tag_dict) (s : text) :
  keys_from a d ->
  restore_img_tags s d
  = Some (fold_left (fun acc kv => str_replace (fst kv) (snd kv) acc) d s).
Proof.
  intros H. unfold restore_img_tags.
  rewrite (keyed_keys_from d a H), sorted_by_key_ascending, fold_combine.
  reflexivity.
Qed.

(** ** Placeholders in a text *)

Lemma run_lit_in (w : text) :
  forall p q, In q (run (lit w) p) -> snd p = w ++ snd q.
Proof.
  induction w as [|c w IH]; intros p q; simpl.
  - intros [<-|[]]. reflexivity.
  - intros H. apply in_flat_map in H as [m [H1 H2]].
    apply one_stops in H1 as [x [H1 Hx]]. simpl in Hx. apply Ascii.eqb_eq in Hx. subst x.
    apply IH in H2. rewrite H1, H2. reflexivity.
Qed.

Lemma run_lit_app (w : text) :
  forall prev r, exists prev', run (lit w) (prev, w ++ r) = [(prev', r)].
Proof.
  induction w as [|c w IH]; intros prev r; simpl.
  - exists prev. reflexivity.
  - unfold one. simpl. rewrite Ascii.eqb_refl. simpl. rewrite app_nil_r. apply IH.
Qed.

Lemma tag_run_in (prev : option ascii) (s : text) (q : pos) :
  In q (run tag_pattern (prev, s)) ->
  exists d, d <> [] /\ all_digits d /\ s = "{{tag_" ++ d ++ "}}" ++ snd q.
Proof.
  unfold tag_pattern. intros H.
  change (run (Seq (lit "{{tag_") (Seq (Many1 CDigit) (lit "}}"))) (prev, s))
    with (flat_map (fun m => flat_map (run (lit "}}")) (run (Many1 CDigit) m))
            (run (lit "{{tag_") (prev, s))) in H.
  apply in_flat_map in H as [m1 [H1 H]].
  apply in_flat_map in H as [m2 [H2 H3]].
  apply run_lit_in in H1. apply run_lit_in in H3. simpl snd in H1.
  simpl run in H2. apply in_flat_map in H2 as [m [Hm H2]].
  apply one_stops in Hm as [c [Hm Hc]]. apply many0_stops in H2 as [u [H2 Hu]].
  exists (c :: u). split; [discriminate|]. split.
  - constructor; assumption.
  - rewrite H1, Hm, H2, H3. reflexivity.
Qed.

Lemma tag_run_head (prev : option ascii) (d r : text) :
  d <> [] -> all_digits d ->
  exists prev' l, run tag_pattern (prev, "{{tag_" ++ d ++ "}}" ++ r) = (prev', r) :: l.
Proof.
  intros Hne Hd. destruct Hd as [|c d Hc Hd]; [congruence|].
  unfold tag_pattern.
  change (run (Seq (lit "{{tag_") (Seq (Many1 CDigit) (lit "}}")))
            (prev, "{{tag_" ++ (c :: d) ++ "}}" ++ r))
    with (flat_map (fun m => flat_map (run (lit "}}")) (run (Many1 CDigit) m))
            (run (lit "{{tag_") (prev, "{{tag_" ++ (c :: d) ++ "}}" ++ r))).
  destruct (run_lit_app "{{tag_" prev ((c :: d) ++ "}}" ++ r)) as [p1 ->].
  cbn [flat_map]. rewrite app_nil_r.
  change (run (Many1 CDigit) (p1, (c :: d) ++ "}}" ++ r))
    with (flat_map (fun q => many0 CDigit (fst q) (snd q))
            (one CDigit (p1, c :: d ++ "}}" ++ r))).
  unfold one. cbn [snd in_cls]. rewrite Hc. cbn [flat_map fst snd]. rewrite app_nil_r.
  destruct (many0_greedy CDigit d (Some c) ("}}" ++ r) Hd) as [p2 [l ->]];
    [reflexivity|].
  cbn [flat_map].
  destruct (run_lit_app "}}" p2 r) as [p3 E3].
  exists p3, (flat_map (run (lit "}}")) l).
  change ((p3, r) :: flat_map (run (lit "}}")) l)
    with ([(p3, r)] ++ flat_map (run (lit "}}")) l).
  f_equal. exact E3.
Qed.

Lemma tag_match_some (prev : option ascii) (p r : text) :
  is_placeholder p -> match_len tag_pattern prev (p ++ r) = Some (length p).
Proof.
  intros [d [Hne [Hd ->]]].
  assert (E : ("{{tag_" ++ d ++ "}}") ++ r = "{{tag_" ++ d ++ "}}" ++ r)
    by (rewrite <- !app_assoc; reflexivity).
  rewrite E at 1.
  destruct (tag_run_head prev d r Hne Hd) as [prev' [l H]].
  unfold match_len.
  match goal with
  | |- context [run ?a ?b] =>
      replace (run a b) with ((prev', r) :: l) by (symmetry; exact H)
  end.
  f_equal. rewrite <- E, length_app. lia.
Qed.

Lemma tag_match_inv (prev : option ascii) (s : text) (n : nat) :
  match_len tag_pattern prev s = Some n ->
  exists p r, is_placeholder p /\ s = p ++ r /\ n = length p.
Proof.
  unfold match_len. destruct (run tag_pattern (prev, s)) as [|[prev' rest] l] eqn:E;
    [discriminate|].
  intros H. injection H as <-.
  assert (Hin : In (prev', rest) (run tag_pattern (prev, s))) by (rewrite E; left; reflexivity).
  apply tag_run_in in Hin as [d [Hne [Hd Hs]]]. simpl snd in Hs.
  exists ("{{tag_" ++ d ++ "}}"), rest. split; [exists d; repeat split; assumption|].
  split.
  - rewrite Hs, <- !app_assoc. reflexivity.
  - rewrite Hs, !length_app. simpl length. lia.
Qed.

Lemma placeholder_shape (p : text) :
  is_placeholder p ->
  exists u, p = "{"%char :: "{"%char :: u ++ ["}"%char]
            /\ Forall (fun c => c <> "{"%char) u.
Proof.
  intros [d [_ [Hd ->]]]. exists ("tag_" ++ d ++ "}"). split.
  - simpl. rewrite <- app_assoc. reflexivity.
  - repeat (constructor; [discriminate|]). apply Forall_app. split.
    + eapply Forall_impl; [|exact Hd]. intros c Hc. apply digit_not_brace. exact Hc.
    + constructor; [discriminate | constructor].
Qed.

Lemma placeholder_not_empty (p : text) : is_placeholder p -> p <> [].
Proof. intros [d [_ [_ ->]]]. discriminate. Qed.

Lemma tag_1_placeholder : is_placeholder "{{tag_1}}".
Proof. exists "1". repeat split; [discriminate | repeat constructor]. Qed.

Lemma tag_match_prev (prev prev' : option ascii) (s : text) :
  match_len tag_pattern prev s = match_len tag_pattern prev' s.
Proof.
  destruct (match_len tag_pattern prev s) as [n|] eqn:E.
  - apply tag_match_inv in E as [p [r [Hp [-> ->]]]].
    symmetry. apply tag_match_some. exact Hp.
  - destruct (match_len tag_pattern prev' s) as [n|] eqn:E'; [|reflexivity].
    apply tag_match_inv in E' as [p [r [Hp [-> ->]]]].
    rewrite tag_match_some in E by exact Hp. discriminate.
Qed.

Lemma tag_scan_prev (s : text) :
  forall skip prev prev', scan tag_pattern skip prev s = scan tag_pattern skip prev' s.
Proof.
  induction s as [|c s IH]; intros skip prev prev'; [reflexivity|].
  simpl. destruct skip as [|k]; [|apply IH].
  rewrite (tag_match_prev prev prev').
  destruct (match_len tag_pattern prev' (c :: s)) as [[|k]|]; f_equal; apply IH.
Qed.

Lemma placeholders_char (c : ascii) (s : text) :
  match_len tag_pattern None (c :: s) = None ->
  placeholders (c :: s) = placeholders s.
Proof.
  intros H. unfold placeholders, re_findall, finditer.
  rewrite scan_lit by exact H. simpl. rewrite (tag_scan_prev s 0 (Some c) None).
  reflexivity.
Qed.

Lemma placeholders_here (p s : text) :
  is_placeholder p -> placeholders (p ++ s) = p :: placeholders s.
Proof.
  intros Hp. unfold placeholders, re_findall, finditer.
  rewrite scan_span;
    [| apply placeholder_not_empty; exact Hp | apply tag_match_some; exact Hp].
  simpl. rewrite (tag_scan_prev s 0 _ None). reflexivity.
Qed.

Lemma tag_match_needs_brace (c : ascii) (s : text) :
  c <> "{"%char -> match_len tag_pattern None (c :: s) = None.
Proof.
  intros Hc. destruct (match_len tag_pattern None (c :: s)) as [n|] eqn:E; [|reflexivity].
  apply tag_match_inv in E as [p [r [Hp [E _]]]].
  apply placeholder_shape in Hp as [u [-> _]]. simpl in E. congruence.
Qed.

Lemma no_brace_prefix (u : text) :
  Forall (fun c => c <> "{"%char) u ->
  forall a x r, a ++ "{"%char :: x = u ++ r -> exists a', a = u ++ a'.
Proof.
  induction 1 as [|c u Hc Hu IH]; intros a x r E.
  - exists a. reflexivity.
  - destruct a as [|y a]; simpl in E.
    + injection E as E _. congruence.
    + injection E as -> E. apply IH in E as [a' ->]. exists a'. reflexivity.
Qed.

(** A match cannot begin before a placeholder and run into it. *)
Lemma no_straddle (c : ascii) (a p s : text) :
  is_placeholder p ->
  match_len tag_pattern None (c :: a) = None ->
  match_len tag_pattern None (c :: a ++ p ++ s) = None.
Proof.
  intros Hp Hnone.
  destruct (match_len tag_pattern None (c :: a ++ p ++ s)) as [n|] eqn:E; [|reflexivity].
  exfalso. apply tag_match_inv in E as [q [r [Hq [E _]]]].
  assert (Hex : exists a', c :: a = q ++ a').
  { destruct (placeholder_shape q Hq) as [u [Eq Hu]].
    destruct (placeholder_shape p Hp) as [u' [Ep _]].
    rewrite Eq, Ep in E. simpl in E. injection E as -> E.
    destruct a as [|c2 a]; simpl in E.
    - injection E as E. destruct u as [|x u]; simpl in E.
      + discriminate.
      + injection E as <- _. inversion Hu. congruence.
    - injection E as -> E.
      assert (Hu1 : Forall (fun c => c <> "{"%char) (u ++ ["}"%char])).
      { apply Forall_app. split; [exact Hu|]. constructor; [discriminate | constructor]. }
      destruct (no_brace_prefix _ Hu1 _ _ _ E) as [a' ->].
      exists a'. rewrite Eq. simpl. rewrite <- app_assoc. reflexivity. }
  destruct Hex as [a' Ha]. rewrite Ha, tag_match_some in Hnone by exact Hq.
  discriminate.
Qed.

(** The placeholders before a placeholder, that placeholder, and those after. *)
Lemma placeholders_around (p s : text) :
  is_placeholder p ->
  forall a, placeholders (a ++ p ++ s) = placeholders a ++ p :: placeholders s.
Proof.
  intros Hp a. remember (length a) as n eqn:Hn.
  revert a Hn. induction n as [n IH] using lt_wf_ind. intros a Hn.
  destruct a as [|c a].
  - simpl. apply placeholders_here. exact Hp.
  - destruct (match_len tag_pattern None (c :: a)) as [k|] eqn:E.
    + apply tag_match_inv in E as [q [r [Hq [E _]]]].
      rewrite E, <- app_assoc.
      rewrite (placeholders_here q (r ++ p ++ s) Hq), (placeholders_here q r Hq).
      simpl. f_equal. apply (IH (length r)); [|reflexivity].
      subst n. rewrite E, length_app.
      pose proof (placeholder_not_empty q Hq). destruct q; [congruence | simpl; lia].
    + change ((c :: a) ++ p ++ s) with (c :: a ++ p ++ s).
      rewrite placeholders_char by (apply no_straddle; assumption).
      rewrite (placeholders_char c a) by exact E.
      apply (IH (length a)); [subst n; simpl; lia | reflexivity].
Qed.

Lemma placeholders_nil : placeholders [] = [].
Proof. reflexivity. Qed.

Lemma placeholders_cut_after (a p y : text) :
  is_placeholder p ->
  placeholders ((a ++ p) ++ y) = placeholders (a ++ p) ++ placeholders y.
Proof.
  intros Hp. rewrite <- app_assoc, placeholders_around by exact Hp.
  rewrite <- (app_nil_r p) at 2. rewrite placeholders_around by exact Hp.
  rewrite placeholders_nil, <- app_assoc. reflexivity.
Qed.

Lemma placeholders_cut_before (a p y : text) :
  is_placeholder p ->
  placeholders (a ++ p ++ y) = placeholders a ++ placeholders (p ++ y).
Proof.
  intros Hp. rewrite placeholders_around, placeholders_here by exact Hp. reflexivity.
Qed.

(* ================================================================== *)
(** * TagExtractor *)

(** ** Masked texts *)

Lemma render_chars (s : text) : render (map MChar s) = s.
Proof. induction s as [|c s IH]; simpl; [|rewrite IH]; reflexivity. Qed.

Lemma original_chars (s : text) : original (map MChar s) = s.
Proof. induction s as [|c s IH]; simpl; [|rewrite IH]; reflexivity. Qed.

Lemma render_app (a b : list masked) : render (a ++ b) = render a ++ render b.
Proof. apply flat_map_app. Qed.

Lemma original_app (a b : list masked) : original (a ++ b) = original a ++ original b.
Proof. apply flat_map_app. Qed.

Lemma original_unmask (n : nat) (ps : list masked) :
  original (unmask n ps) = original ps.
Proof.
  induction ps as [|[c|m span] ps IH]; simpl; [reflexivity | rewrite IH; reflexivity |].
  fold (unmask n ps). rewrite original_app, IH.
  destruct (m =? n); [rewrite original_chars | simpl; rewrite app_nil_r]; reflexivity.
Qed.

Lemma in_unmask (n m : nat) (span : text) (ps : list masked) :
  In (MTag m span) (unmask n ps) -> In (MTag m span) ps /\ m <> n.
Proof.
  unfold unmask. intros H. apply in_flat_map in H as [p [Hp H]].
  destruct p as [c|m' span']; simpl in H.
  - destruct H as [H|[]]. discriminate.
  - destruct (m' =? n) eqn:E.
    + apply in_map_iff in H as [c [H _]]. discriminate.
    + destruct H as [H|[]]. injection H as -> ->.
      apply Nat.eqb_neq in E. split; assumption.
Qed.

Lemma render_no_tags (ps : list masked) :
  (forall n span, ~ In (MTag n span) ps) -> render ps = original ps.
Proof.
  induction ps as [|[c|m span] ps IH]; intros H; [reflexivity| |].
  - simpl. f_equal. apply IH. intros n span Hin. apply (H n span). right. exact Hin.
  - exfalso. apply (H m span). left. reflexivity.
Qed.

Lemma clash_free_start (p : text) (ps : list masked) :
  clash_free p = true ->
  starts_with p (render ps) = true -> starts_with p (original ps) = true.
Proof.
  revert p; induction ps as [|[c|m span] ps IH]; intros p Hp H.
  - exact H.
  - destruct p as [|x p]; [reflexivity|].
    simpl in Hp. apply andb_true_iff in Hp as [_ Hp].
    simpl in *. apply andb_true_iff in H as [H1 H2].
    rewrite H1. simpl. apply IH; assumption.
  - destruct p as [|x p]; [reflexivity|]. exfalso.
    simpl in Hp. apply andb_true_iff in Hp as [Hp _].
    unfold render in H. simpl flat_map in H. unfold tag_id in H. simpl in H.
    apply andb_true_iff in H as [H1 H2].
    apply orb_true_iff in Hp as [Hp|Hp].
    + rewrite H1 in Hp. discriminate.
    + destruct p as [|y p]; [discriminate|].
      apply andb_true_iff in H2 as [H2 _]. rewrite H2 in Hp. discriminate.
Qed.

Lemma clash_free_digits (d : text) :
  all_digits d -> clash_free (d ++ "}}") = true.
Proof.
  induction 1 as [|c d Hc Hd IH]; [reflexivity|].
  simpl app. cbn [clash_free]. rewrite IH.
  destruct (digit_not_brace c Hc) as [Hb _].
  apply Ascii.eqb_neq in Hb. rewrite Hb. reflexivity.
Qed.

Lemma contains_iff (p s : text) :
  contains p s = true <-> exists a r, s = a ++ p ++ r.
Proof.
  split.
  - induction s as [|c s IH]; simpl; intros H.
    + rewrite orb_false_r in H. apply starts_with_iff in H as [r H].
      exists [], r. exact H.
    + apply orb_true_iff in H as [H|H].
      * apply starts_with_iff in H as [r H]. exists [], r. exact H.
      * apply IH in H as [a [r ->]]. exists (c :: a), r. reflexivity.
  - intros [a [r ->]]. induction a as [|c a IH].
    + simpl app. destruct (p ++ r) eqn:E; simpl; rewrite <- E, starts_with_app; reflexivity.
    + simpl. rewrite IH. apply orb_true_r.
Qed.

Lemma tag_id_placeholder (n : nat) : is_placeholder (tag_id n).
Proof.
  exists (str_of_nat n). split; [apply str_of_nat_not_empty|].
  split; [apply str_of_nat_digits | reflexivity].
Qed.

(** A text in which the scanner finds no placeholder holds none. *)
Lemma no_placeholder_no_tag_id (t : text) (n : nat) :
  placeholders t = [] -> contains (tag_id n) t = false.
Proof.
  intros H. destruct (contains (tag_id n) t) eqn:E; [|reflexivity].
  apply contains_iff in E as [a [r E]]. rewrite E in H.
  rewrite placeholders_around in H by apply tag_id_placeholder.
  destruct (placeholders a); discriminate.
Qed.

(** Where the text meant does not hold placeholder [n], that placeholder
    does not start at a plain character of the masked text. *)
Lemma no_tag_at_char (n : nat) (c : ascii) (ps : list masked) :
  contains (tag_id n) (original (MChar c :: ps)) = false ->
  starts_with (tag_id n) (render (MChar c :: ps)) = false.
Proof.
  intros H. apply contains_head in H.
  destruct (starts_with (tag_id n) (render (MChar c :: ps))) eqn:E; [|reflexivity].
  set (tl := "{tag_" ++ str_of_nat n ++ "}}") in *.
  change (starts_with (tag_id n) (render (MChar c :: ps)))
    with (Ascii.eqb "{" c && starts_with tl (render ps)) in E.
  change (starts_with (tag_id n) (original (MChar c :: ps)))
    with (Ascii.eqb "{" c && starts_with tl (original ps)) in H.
  apply andb_true_iff in E as [E1 E2]. rewrite E1 in H. cbn [andb] in H.
  apply clash_free_start in E2.
  - rewrite E2 in H. discriminate.
  - subst tl. simpl app. cbn [clash_free]. simpl.
    apply clash_free_digits, str_of_nat_digits.
Qed.

Lemma replace_over_tag (n m : nat) (v s : text) :
  n <> m ->
  replace_from (tag_id n) v 0 (tag_id m ++ s)
  = tag_id m ++ replace_from (tag_id n) v 0 s.
Proof.
  intros Hnm.
  assert (E : starts_with (tag_id n) (tag_id m ++ s) = false).
  { destruct (starts_with (tag_id n) (tag_id m ++ s)) eqn:E; [|reflexivity].
    apply starts_with_tag_id in E. contradiction. }
  remember (tag_id n) as old eqn:Hold.
  unfold tag_id in *. simpl app in *.
  rewrite replace_miss by exact E. f_equal.
  rewrite replace_miss by (rewrite Hold; reflexivity). f_equal.
  change ("t"%char :: "a"%char :: "g"%char :: "_"%char
            :: (str_of_nat m ++ "}}") ++ s)
    with (("tag_" ++ str_of_nat m ++ "}}") ++ s).
  rewrite (replace_other_head _ _ _ _ "{"%char);
    [reflexivity | rewrite Hold; reflexivity |].
  repeat (constructor; [discriminate|]).
  apply Forall_app. split.
  - eapply Forall_impl; [|apply str_of_nat_digits].
    intros c Hc. apply digit_not_brace. exact Hc.
  - repeat (constructor; [discriminate|]). constructor.
Qed.

(** One step of the restoration puts back one placeholder, everywhere, and
    touches nothing else. *)
Lemma replace_render (n : nat) (v : text) (ps : list masked) :
  contains (tag_id n) (original ps) = false ->
  (forall span, In (MTag n span) ps -> span = v) ->
  str_replace (tag_id n) v (render ps) = render (unmask n ps).
Proof.
  change (str_replace (tag_id n) v (render ps))
    with (replace_from (tag_id n) v 0 (render ps)).
  induction ps as [|[c|m span] ps IH]; intros Hc Hv; [reflexivity| |].
  - pose proof (no_tag_at_char n c ps Hc) as Hs.
    change (render (MChar c :: ps)) with (c :: render ps) in *.
    rewrite replace_miss by exact Hs.
    change (unmask n (MChar c :: ps)) with (MChar c :: unmask n ps).
    change (render (MChar c :: unmask n ps)) with (c :: render (unmask n ps)).
    f_equal. apply IH.
    + eapply contains_tail. exact Hc.
    + intros span Hin. apply Hv. right. exact Hin.
  - change (render (MTag m span :: ps)) with (tag_id m ++ render ps).
    change (unmask n (MTag m span :: ps))
      with (unmask_one n (MTag m span) ++ unmask n ps).
    rewrite render_app.
    assert (Hc' : contains (tag_id n) (original ps) = false).
    { change (original (MTag m span :: ps)) with (span ++ original ps) in Hc.
      eapply contains_app_r. exact Hc. }
    assert (Hv' : forall span0, In (MTag n span0) ps -> span0 = v).
    { intros span0 Hin. apply Hv. right. exact Hin. }
    simpl unmask_one. destruct (m =? n) eqn:E.
    + apply Nat.eqb_eq in E. subst m.
      rewrite replace_hit by apply tag_id_not_empty.
      rewrite render_chars, IH by assumption.
      f_equal. symmetry. apply Hv. left. reflexivity.
    + apply Nat.eqb_neq in E.
      rewrite replace_over_tag by congruence.
      rewrite IH by assumption. simpl. rewrite app_nil_r. reflexivity.
Qed.

(** ** Extraction *)

Lemma dict_set_fresh (k v : text) (d : tag_dict) :
  (forall k' v', In (k', v') d -> k' <> k) -> dict_set k v d = d ++ [(k, v)].
Proof.
  induction d as [|[k' v'] d IH]; intros H; [reflexivity|].
  simpl. destruct (text_eqb k' k) eqn:E.
  - apply text_eqb_eq in E. exfalso. apply (H k' v'); [left; reflexivity | exact E].
  - rewrite IH; [reflexivity|]. intros k0 v0 Hin. apply (H k0 v0). right. exact Hin.
Qed.

(** The loop of [replacement] over the items always finds its id. *)
Lemma find_id_has_value (tag : text) (d : tag_dict) :
  has_value tag d = true -> exists id, find_id tag d = Some id /\ In (id, tag) d.
Proof.
  induction d as [|[k v] d IH]; simpl; [discriminate|].
  destruct (text_eqb v tag) eqn:E; simpl.
  - intros _. apply text_eqb_eq in E. subst v. exists k. split; [reflexivity | left; reflexivity].
  - intros H. apply IH in H as [id [H1 H2]]. exists id. split; [exact H1 | right; exact H2].
Qed.

Lemma replacement_cases (m : text) (d : tag_dict) (n : nat) :
  (exists id, In (id, m) d /\ replacement m (d, n) = (id, (d, n)))
  \/ replacement m (d, n) = (tag_id n, (dict_set (tag_id n) m d, S n)).
Proof.
  unfold replacement. destruct (has_value m d) eqn:Ev; simpl; [left | right; reflexivity].
  destruct (find_id_has_value m d Ev) as [id [-> Hid]].
  exists id. split; [exact Hid | reflexivity].
Qed.

Lemma sub_pieces_masked (ps : list piece) :
  forall d n,
    keys_from 1 d -> n = S (length d) ->
    exists mps d' n',
      sub_pieces replacement ps (d, n) = (render mps, (d', n'))
      /\ keys_from 1 d' /\ n' = S (length d') /\ (exists e, d' = d ++ e)
      /\ original mps = flatten ps
      /\ (forall k v, In (MTag k v) mps -> In (tag_id k, v) d').
Proof.
  induction ps as [|[c|m] ps IH]; intros d n Hd Hn.
  - exists [], d, n. simpl. repeat split; try assumption.
    + exists []. rewrite app_nil_r. reflexivity.
    + intros k v [].
  - destruct (IH d n Hd Hn) as [mps [d' [n' [E [Hd' [Hn' [He [Ho Hin]]]]]]]].
    exists (MChar c :: mps), d', n'. simpl sub_pieces. rewrite E.
    repeat split; try assumption.
    + simpl. f_equal. exact Ho.
    + intros k v [H|H]; [discriminate | apply Hin; exact H].
  - simpl sub_pieces.
    destruct (replacement_cases m d n) as [[id [Hid ->]] | ->]; cbv beta iota.
    + destruct (keys_from_in 1 d id m Hd Hid) as [k [-> _]].
      destruct (IH d n Hd Hn) as [mps [d' [n' [E [Hd' [Hn' [[e He] [Ho Hin]]]]]]]].
      exists (MTag k m :: mps), d', n'. rewrite E.
      repeat split; try assumption.
      * exists e. exact He.
      * simpl. f_equal. exact Ho.
      * intros k0 v0 [H|H]; [|apply Hin; exact H].
        injection H as <- <-. rewrite He. apply in_or_app. left. exact Hid.
    + rewrite dict_set_fresh.
      2:{ intros k' v' Hin E. destruct (keys_from_in 1 d k' v' Hd Hin) as [j [-> Hj]].
          apply tag_id_inj in E. lia. }
      assert (Hd1 : keys_from 1 (d ++ [(tag_id n, m)])).
      { replace n with (1 + length d) by lia. apply keys_from_snoc. exact Hd. }
      assert (Hn1 : S n = S (length (d ++ [(tag_id n, m)]))).
      { rewrite length_app. simpl. lia. }
      destruct (IH _ _ Hd1 Hn1) as [mps [d' [n' [E [Hd' [Hn' [[e He] [Ho Hin]]]]]]]].
      exists (MTag n m :: mps), d', n'. rewrite E.
      repeat split; try assumption.
      * exists ([(tag_id n, m)] ++ e). rewrite He, <- app_assoc. reflexivity.
      * simpl. f_equal. exact Ho.
      * intros k0 v0 [H|H]; [|apply Hin; exact H].
        injection H as <- <-. rewrite He. apply in_or_app. left.
        apply in_or_app. right. left. reflexivity.
Qed.

(** What extraction returns: a masked text that stands for the input, and
    a dictionary that holds every placeholder in it, numbered from 1. *)
Lemma extract_masked (s : text) :
  exists mps,
    fst (extract_html_tags s) = render mps
    /\ original mps = s
    /\ keys_from 1 (snd (extract_html_tags s))
    /\ (forall k v, In (MTag k v) mps -> In (tag_id k, v) (snd (extract_html_tags s))).
Proof.
  destruct (sub_pieces_masked (finditer span_pattern s) [] 1)
    as [mps [d' [n' [E [Hd' [_ [_ [Ho Hin]]]]]]]]; [reflexivity | reflexivity |].
  assert (X : extract_html_tags s = (render mps, d')).
  { unfold extract_html_tags, re_sub.
    match goal with
    | |- context [sub_pieces ?f ?ps ?st] =>
        replace (sub_pieces f ps st) with (render mps, (d', n')) by (symmetry; exact E)
    end.
    reflexivity. }
  rewrite X. exists mps. simpl. repeat split; try assumption.
  rewrite Ho. apply flatten_finditer.
Qed.

(** ** Restoration *)

Lemma restore_masked (d : tag_dict) :
  forall a mps,
    keys_from a d ->
    (forall n, contains (tag_id n) (original mps) = false) ->
    (forall k v, In (MTag k v) mps -> In (tag_id k, v) d) ->
    fold_left (fun acc kv => str_replace (fst kv) (snd kv) acc) d (render mps)
    = original mps.
Proof.
  induction d as [|[key v] d IH]; intros a mps Hd Hc Hin.
  - simpl. apply render_no_tags. intros n span H. exact (Hin n span H).
  - apply keys_from_cons in Hd as [Hk Hd]. simpl in Hk. subst key.
    cbn [fold_left fst snd]. rewrite replace_render.
    + rewrite (IH (S a) (unmask a mps) Hd).
      * apply original_unmask.
      * rewrite original_unmask. exact Hc.
      * intros k v0 H. apply in_unmask in H as [H Hne].
        destruct (Hin k v0 H) as [E|E]; [|exact E].
        pose proof (f_equal fst E) as E1. cbn [fst] in E1.
        apply tag_id_inj in E1. congruence.
    + apply Hc.
    + intros span H. destruct (Hin a span H) as [E|E].
      { pose proof (f_equal snd E) as E2. cbn [snd] in E2. congruence. }
      destruct (keys_from_in (S a) d _ _ Hd E) as [j [Ej Hj]].
      apply tag_id_inj in Ej. lia.
Qed.

(** ** C1: the tag round trip *)

(** C1, as stated, fails: in the text made of the bracket tag
    [<{{tag_2}}>] and a double quote, which holds nothing but supported
    spans, the tag holds the text of the placeholder that the quote
    receives, and restoration rewrites it. *)
Lemma roundtrip_fails_on_placeholder_text :
  let t := "<{{tag_2}}>" ++ [dquote] in
  restore_img_tags (fst (extract_html_tags t)) (snd (extract_html_tags t))
  <> Some t.
Proof. vm_compute. discriminate. Qed.

(** C1, amended: for every input text that holds no text of the form of a
    placeholder, [{{tag_N}}] with [N] one or more decimal digits, restoring
    the masked text with the dictionary of the same extraction returns the
    input text. *)
Theorem restore_extract_roundtrip (t : text) :
  placeholders t = [] ->
  restore_img_tags (fst (extract_html_tags t)) (snd (extract_html_tags t))
  = Some t.
Proof.
  intros Hc.
  destruct (extract_masked t) as [mps [Em [Eo [Hk Hin]]]].
  rewrite (restore_keys_from 1 _ _ Hk), Em. f_equal.
  rewrite <- Eo at 2. apply (restore_masked _ 1); [exact Hk | | exact Hin].
  intros n. rewrite Eo. apply no_placeholder_no_tag_id. exact Hc.
Qed.

Lemma restore_extract_roundtrip_witness :
  let t := "a <b>12|||34</b> {{tag_<i>" ++ [dquote; newline] ++ "<b>" in
  placeholders t = []
  /\ restore_img_tags (fst (extract_html_tags t)) (snd (extract_html_tags t))
     = Some t.
Proof.
  split; [reflexivity|].
  apply (restore_extract_roundtrip
           ("a <b>12|||34</b> {{tag_<i>" ++ [dquote; newline] ++ "<b>")).
  reflexivity.
Defined.

(** ** C7: the scenario *)

(** C7, as stated, fails: the dictionary of the scenario does not hold two
    placeholders. *)
Lemma scenario_not_two_placeholders :
  length (snd (extract_html_tags scenario_input)) <> 2.
Proof. vm_compute. discriminate. Qed.

(** C7, amended: for the input ["Hello <b>world</b>\n"] extraction yields
    exactly three placeholders, one for [<b>], one for [</b>] and one for
    the line feed. *)
Theorem scenario_three_placeholders :
  extract_html_tags scenario_input
  = ("Hello {{tag_1}}world{{tag_2}}{{tag_3}}",
     [("{{tag_1}}", "<b>"); ("{{tag_2}}", "</b>"); ("{{tag_3}}", [newline])]).
Proof. vm_compute. reflexivity. Qed.

(* ================================================================== *)
(** * Chunker *)

(** ** [strip] keeps the placeholders *)

Lemma space_not_brace (c : ascii) : is_space c = true -> c <> "{"%char /\ c <> "}"%char.
Proof. intros H; split; intros ->; discriminate. Qed.

Lemma placeholders_no_braces (w : text) : no_braces w -> placeholders w = [].
Proof.
  induction 1 as [|c w [Hc _] Hw IH]; [reflexivity|].
  rewrite placeholders_char by (apply tag_match_needs_brace; exact Hc). exact IH.
Qed.

Lemma no_match_into_tail (c : ascii) (a w : text) :
  no_braces w ->
  match_len tag_pattern None (c :: a) = None ->
  match_len tag_pattern None (c :: a ++ w) = None.
Proof.
  intros Hw Hnone.
  destruct (match_len tag_pattern None (c :: a ++ w)) as [n|] eqn:E; [|reflexivity].
  exfalso. apply tag_match_inv in E as [q [r [Hq [E _]]]].
  change (c :: a ++ w) with ((c :: a) ++ w) in E.
  apply app_eq_app in E as [l [[E1 E2]|[E1 E2]]].
  - rewrite E1, tag_match_some in Hnone by exact Hq. discriminate.
  - destruct (exists_last (l := l)) as [l' [z El]].
    + intros ->. rewrite app_nil_r in E1. rewrite <- E1 in Hnone.
      rewrite <- (app_nil_r q) in Hnone.
      rewrite tag_match_some in Hnone by exact Hq. discriminate.
    + destruct (placeholder_shape q Hq) as [u [Eq _]].
      rewrite Eq, El in E1.
      change ("{"%char :: "{"%char :: u ++ ["}"%char])
        with (("{"%char :: "{"%char :: u) ++ ["}"%char]) in E1.
      rewrite app_assoc in E1. apply app_inj_tail in E1 as [_ <-].
      rewrite El in E2. unfold no_braces in Hw. rewrite E2 in Hw.
      rewrite <- app_assoc in Hw. apply Forall_app in Hw as [_ Hw].
      apply Forall_app in Hw as [Hw _]. inversion Hw as [|? ? [_ Hz] _]. congruence.
Qed.

Lemma placeholders_tail (w : text) :
  no_braces w -> forall a, placeholders (a ++ w) = placeholders a.
Proof.
  intros Hw a. remember (length a) as n eqn:Hn.
  revert a Hn. induction n as [n IH] using lt_wf_ind. intros a Hn.
  destruct a as [|c a].
  - simpl. apply placeholders_no_braces. exact Hw.
  - destruct (match_len tag_pattern None (c :: a)) as [k|] eqn:E.
    + apply tag_match_inv in E as [q [r [Hq [E _]]]].
      rewrite E, <- app_assoc.
      rewrite (placeholders_here q (r ++ w) Hq), (placeholders_here q r Hq).
      f_equal. apply (IH (length r)); [|reflexivity].
      subst n. rewrite E, length_app.
      pose proof (placeholder_not_empty q Hq). destruct q; [congruence | simpl; lia].
    + change ((c :: a) ++ w) with (c :: a ++ w).
      rewrite placeholders_char by (apply no_match_into_tail; assumption).
      rewrite (placeholders_char c a) by exact E.
      apply (IH (length a)); [subst n; simpl; lia | reflexivity].
Qed.

Lemma drop_while_split (f : ascii -> bool) (l : text) :
  exists w, l = w ++ drop_while f l /\ Forall (fun c => f c = true) w.
Proof.
  induction l as [|c l [w [E Hw]]]; simpl.
  - exists []. split; [reflexivity | constructor].
  - destruct (f c) eqn:Ef.
    + exists (c :: w). split; [simpl; f_equal; exact E | constructor; assumption].
    + exists []. split; [reflexivity | constructor].
Qed.

Lemma placeholders_lstrip (s : text) : placeholders (lstrip s) = placeholders s.
Proof.
  unfold lstrip. induction s as [|c s IH]; [reflexivity|]. simpl.
  destruct (is_space c) eqn:E; [|reflexivity].
  rewrite IH. symmetry. apply placeholders_char, tag_match_needs_brace.
  apply space_not_brace. exact E.
Qed.

Lemma placeholders_rstrip (s : text) : placeholders (rstrip s) = placeholders s.
Proof.
  unfold rstrip. destruct (drop_while_split is_space (rev s)) as [w [E Hw]].
  assert (Es : s = rev (drop_while is_space (rev s)) ++ rev w).
  { rewrite <- rev_app_distr, <- E, rev_involutive. reflexivity. }
  rewrite Es at 2. symmetry. apply placeholders_tail.
  apply Forall_rev. eapply Forall_impl; [|exact Hw].
  intros c Hc. apply space_not_brace. exact Hc.
Qed.

Lemma placeholders_strip (s : text) : placeholders (strip s) = placeholders s.
Proof. unfold strip. rewrite placeholders_rstrip. apply placeholders_lstrip. Qed.

(** ** The parts that [re.split] returns *)

Lemma tag_scan_spans (s : text) :
  forall skip prev, Forall piece_ok (scan tag_pattern skip prev s).
Proof.
  induction s as [|c s IH]; intros skip prev; simpl; [constructor|].
  destruct skip as [|k]; [|apply IH].
  destruct (match_len tag_pattern prev (c :: s)) as [[|k]|] eqn:E.
  - constructor; [exact I | apply IH].
  - constructor; [|apply IH].
    apply tag_match_inv in E as [q [r [Hq [E En]]]].
    change (c :: firstn k s) with (firstn (S k) (c :: s)).
    rewrite E, En, firstn_app, Nat.sub_diag, firstn_all, firstn_O, app_nil_r.
    exact Hq.
  - constructor; [exact I | apply IH].
Qed.

Lemma split_pieces_shape (ps : list piece) :
  Forall piece_ok ps -> forall acc, text_first (split_pieces acc ps).
Proof.
  induction 1 as [|[c|m] ps Hpc Hps IH]; intros acc; simpl.
  - constructor.
  - apply IH.
  - constructor; [exact Hpc | apply IH].
Qed.

Lemma concat_split_pieces (ps : list piece) :
  forall acc, concat (split_pieces acc ps) = acc ++ flatten ps.
Proof.
  induction ps as [|[c|m] ps IH]; intros acc; simpl.
  - rewrite !app_nil_r. reflexivity.
  - rewrite IH, <- app_assoc. reflexivity.
  - rewrite IH. reflexivity.
Qed.

Lemma re_split_tag_shape (s : text) : text_first (re_split tag_pattern s).
Proof. apply split_pieces_shape, tag_scan_spans. Qed.

Lemma concat_re_split (r : regex) (s : text) : concat (re_split r s) = s.
Proof. unfold re_split. rewrite concat_split_pieces. apply flatten_finditer. Qed.

Lemma ends_with_iff (p s : text) : ends_with p s = true <-> exists a, s = a ++ p.
Proof.
  unfold ends_with. rewrite starts_with_iff. split.
  - intros [r H]. exists (rev r).
    rewrite <- (rev_involutive s), H, rev_app_distr, rev_involutive. reflexivity.
  - intros [a ->]. exists (rev a). apply rev_app_distr.
Qed.

Lemma drop_last_app (a p : text) : drop_last (length p) (a ++ p) = a.
Proof.
  unfold drop_last. rewrite length_app, Nat.add_sub, firstn_app, Nat.sub_diag.
  rewrite firstn_all, firstn_O, app_nil_r. reflexivity.
Qed.

(** ** The splitter keeps the placeholders *)

Section Splitting.
Context {tiktoken : Tiktoken}.
Variables (max_tokens : Z) (model : text).

Lemma split_step_kept (st : splitter) (part rest : text) :
  ends_whole (current_chunk st) \/ is_placeholder part ->
  kept (split_step max_tokens model st part) rest = kept st (part ++ rest).
Proof.
  intros Hclean. unfold split_step, kept.
  destruct part as [|c part]; [reflexivity|].
  set (pt := c :: part) in *.
  destruct (over_threshold _ _).
  - assert (Hcut : placeholders (current_chunk st ++ pt ++ rest)
                   = placeholders (current_chunk st) ++ placeholders (pt ++ rest)).
    { destruct Hclean as [[E|[a [p [Hp E]]]]|Hp].
      - rewrite E. reflexivity.
      - rewrite E. apply placeholders_cut_after. exact Hp.
      - apply placeholders_cut_before. exact Hp. }
    destruct (ends_with "{{tag_1}}" (current_chunk st)) eqn:Ee.
    + apply ends_with_iff in Ee as [a Ea]. cbn [chunks current_chunk].
      rewrite Ea, drop_last_app, flat_map_app. cbn [flat_map].
      rewrite app_nil_r, placeholders_strip, <- !app_assoc. f_equal.
      rewrite <- placeholders_cut_before by exact tag_1_placeholder.
      reflexivity.
    + cbn [chunks current_chunk]. rewrite flat_map_app. cbn [flat_map].
      rewrite app_nil_r, placeholders_strip, <- app_assoc, Hcut. reflexivity.
  - cbn [chunks current_chunk]. rewrite <- app_assoc. reflexivity.
Qed.

Lemma split_step_whole (st : splitter) (p : text) :
  is_placeholder p ->
  ends_whole (current_chunk (split_step max_tokens model st p)).
Proof.
  intros Hp. right. unfold split_step.
  pose proof (placeholder_not_empty p Hp) as Hne.
  destruct p as [|c p]; [congruence|]. set (pt := c :: p) in *.
  destruct (over_threshold _ _).
  - destruct (ends_with "{{tag_1}}" (current_chunk st)); cbn [current_chunk].
    + exists "{{tag_1}}", pt. split; [exact Hp | reflexivity].
    + exists [], pt. split; [exact Hp | reflexivity].
  - cbn [current_chunk]. exists (current_chunk st), pt. split; [exact Hp | reflexivity].
Qed.

Lemma split_loop_kept (l : list text) :
  text_first l ->
  forall st,
    ends_whole (current_chunk st) ->
    kept (fold_left (split_step max_tokens model) l st) [] = kept st (concat l).
Proof.
  induction 1 as [t|t p l Hp Hl IH]; intros st Hst.
  - simpl. rewrite split_step_kept by (left; exact Hst). reflexivity.
  - cbn [fold_left concat].
    rewrite IH by (apply split_step_whole; exact Hp).
    rewrite split_step_kept by (right; exact Hp).
    rewrite split_step_kept by (left; exact Hst). reflexivity.
Qed.

Lemma flush_kept (st : splitter) : flat_map placeholders (flush st) = kept st [].
Proof.
  unfold flush, kept. rewrite app_nil_r.
  rewrite <- (placeholders_strip (current_chunk st)).
  destruct (strip (current_chunk st)) as [|c s].
  - rewrite placeholders_nil, app_nil_r. reflexivity.
  - rewrite flat_map_app. simpl. rewrite app_nil_r. reflexivity.
Qed.

End Splitting.

(** ** C6: placeholders are never split *)

(** C6: the placeholders found in the chunks, chunk after chunk, are those
    found in the text, in the same order: every placeholder of the text
    lies whole in exactly one chunk. *)
Theorem placeholders_stay_whole {tiktoken : Tiktoken}
  (s : text) (max_tokens : Z) (model : text) :
  flat_map placeholders (split_text_into_chunks_with_tags s max_tokens model)
  = placeholders s.
Proof.
  unfold split_text_into_chunks_with_tags.
  rewrite flush_kept, split_loop_kept.
  - unfold kept. simpl. rewrite concat_re_split. reflexivity.
  - apply re_split_tag_shape.
  - left. reflexivity.
Qed.

(** ** C5: the size of a chunk *)

Section Accounting.
Context {tiktoken : Tiktoken}.
Variables (max_tokens : Z) (model : text).

Lemma account_step_mirrors (a : accounted) (st : splitter) (part : text) :
  mirrors a st ->
  mirrors (account_step max_tokens model a part) (split_step max_tokens model st part).
Proof.
  intros [Hl [Hc Hn]]. unfold account_step, split_step.
  destruct part as [|c part]; [repeat split; assumption|].
  rewrite Hc, Hn. destruct (over_threshold _ _).
  - destruct (ends_with "{{tag_1}}" (current_chunk st)); repeat split; simpl;
      rewrite map_app, Hl; reflexivity.
  - repeat split; simpl; assumption.
Qed.

Lemma account_loop_mirrors (l : list text) :
  forall a st,
    mirrors a st ->
    mirrors (fold_left (account_step max_tokens model) l a)
      (fold_left (split_step max_tokens model) l st).
Proof.
  induction l as [|part l IH]; intros a st H; [exact H|].
  simpl. apply IH, account_step_mirrors, H.
Qed.

Lemma account_flush_mirrors (a : accounted) (st : splitter) :
  mirrors a st -> map sealed_chunk (account_flush a) = flush st.
Proof.
  intros [Hl [Hc _]]. unfold account_flush, flush. rewrite Hc.
  destruct (strip (current_chunk st)); [exact Hl|].
  rewrite map_app, Hl. reflexivity.
Qed.

Lemma account_step_settled (parts : list text) (a : accounted) (part : text) :
  In part parts -> settled max_tokens model parts a ->
  settled max_tokens model parts (account_step max_tokens model a part).
Proof.
  intros Hin [Hl Hc]. unfold account_step.
  destruct part as [|c part]; [split; assumption|]. set (pt := c :: part) in *.
  destruct (over_threshold (acc_length a + count_tokens pt model) max_tokens) eqn:E.
  - destruct (ends_with "{{tag_1}}" (acc_chunk a)); split; cbn [ledger acc_chunk acc_length].
    + apply Forall_app. split; [exact Hl|]. constructor; [exact Hc | constructor].
    + right. right. exists pt. repeat split. exact Hin.
    + apply Forall_app. split; [exact Hl|]. constructor; [exact Hc | constructor].
    + right. left. split; [exact Hin | reflexivity].
  - split; cbn [ledger acc_chunk acc_length]; [exact Hl | left; exact E].
Qed.

Lemma account_loop_settled (parts l : list text) :
  (forall part, In part l -> In part parts) ->
  forall a, settled max_tokens model parts a ->
            settled max_tokens model parts (fold_left (account_step max_tokens model) l a).
Proof.
  induction l as [|part l IH]; intros Hin a Ha; [exact Ha|].
  simpl. apply IH.
  - intros p Hp. apply Hin. right. exact Hp.
  - apply account_step_settled; [apply Hin; left; reflexivity | exact Ha].
Qed.

Lemma account_flush_settled (parts : list text) (a : accounted) :
  settled max_tokens model parts a ->
  Forall (fun e => accounted_for max_tokens model parts (sealed_from e) (sealed_count e))
    (account_flush a).
Proof.
  intros [Hl Hc]. unfold account_flush.
  destruct (strip (acc_chunk a)); [exact Hl|].
  apply Forall_app. split; [exact Hl|]. constructor; [exact Hc | constructor].
Qed.

End Accounting.

(** C5, as stated, fails: with a maximum of 20 tokens the threshold is 18;
    the text and the placeholder after it fill a chunk of 18 tokens, the
    next part, of 10 tokens, does not fit, and the placeholder is carried
    over to it: the chunk made of the two counts 19 tokens, and neither of
    its parts exceeds the threshold. *)
Lemma carried_placeholder_exceeds_threshold :
  @split_text_into_chunks_with_tags one_token_per_character
    "xxxxxxxxx{{tag_1}}yyyyyyyyyy" 20 "gpt-4o"
  = ["xxxxxxxxx"; "{{tag_1}}yyyyyyyyyy"]
  /\ forallb
       (@chunk_bounded one_token_per_character "xxxxxxxxx{{tag_1}}yyyyyyyyyy" 20 "gpt-4o")
       (@split_text_into_chunks_with_tags one_token_per_character
          "xxxxxxxxx{{tag_1}}yyyyyyyyyy" 20 "gpt-4o")
     = false.
Proof. vm_compute. split; reflexivity. Qed.

(** C5, amended: for every input text and every configured maximum that is
    not negative, the chunks are those of the ledger, and the token count
    that the splitter keeps for a chunk when it appends it is at most 90% of
    the maximum, except for a chunk made of a single part, counted alone,
    and for a chunk opened with the placeholder [{{tag_1}}] carried over in
    front of the part that did not fit, counted together with it. *)
Theorem chunk_counts_within_threshold {tiktoken : Tiktoken}
  (s : text) (max_tokens : Z) (model : text) :
  (0 <= max_tokens)%Z ->
  map sealed_chunk (split_ledger s max_tokens model)
  = split_text_into_chunks_with_tags s max_tokens model
  /\ Forall
       (fun e =>
          over_threshold (sealed_count e) max_tokens = false
          \/ (In (sealed_from e) (re_split tag_pattern s)
              /\ sealed_count e = count_tokens (sealed_from e) model)
          \/ (exists part,
                In part (re_split tag_pattern s)
                /\ sealed_from e = "{{tag_1}}" ++ part
                /\ sealed_count e = count_tokens ("{{tag_1}}" ++ part) model))
       (split_ledger s max_tokens model).
Proof.
  intros Hmax. split.
  - apply account_flush_mirrors, account_loop_mirrors. repeat split.
  - apply (account_flush_settled max_tokens model (re_split tag_pattern s)).
    apply account_loop_settled; [intros part H; exact H|].
    split; [constructor|]. left. unfold over_threshold.
    apply Z.ltb_ge. cbn [acc_length Z.of_nat]. lia.
Qed.

Lemma chunk_counts_within_threshold_witness :
  (0 <= 20)%Z
  /\ map sealed_chunk
       (@split_ledger one_token_per_character "xxxxxxxxx{{tag_1}}yyyyyyyyyy" 20 "gpt-4o")
     = @split_text_into_chunks_with_tags one_token_per_character
         "xxxxxxxxx{{tag_1}}yyyyyyyyyy" 20 "gpt-4o"
  /\ Forall
       (fun e =>
          over_threshold (sealed_count e) 20 = false
          \/ (In (sealed_from e) (re_split tag_pattern "xxxxxxxxx{{tag_1}}yyyyyyyyyy")
              /\ sealed_count e
                 = @count_tokens one_token_per_character (sealed_from e) "gpt-4o")
          \/ (exists part,
                In part (re_split tag_pattern "xxxxxxxxx{{tag_1}}yyyyyyyyyy")
                /\ sealed_from e = "{{tag_1}}" ++ part
                /\ sealed_count e
                   = @count_tokens one_token_per_character ("{{tag_1}}" ++ part) "gpt-4o"))
       (@split_ledger one_token_per_character "xxxxxxxxx{{tag_1}}yyyyyyyyyy" 20 "gpt-4o").
Proof.
  split; [lia|].
  apply (@chunk_counts_within_threshold one_token_per_character
           "xxxxxxxxx{{tag_1}}yyyyyyyyyy" 20 "gpt-4o").
  lia.
Defined.

(* ================================================================== *)
(** * BatchRequestBuilder *)

(** ** Packing *)

Section Packing.
Context {tiktoken : Tiktoken}.

Variables (system : text) (system_tokens : nat) (budget cap : Z).

Lemma file_cost_app (a b : list batch_request) :
  file_cost system_tokens (a ++ b)
  = file_cost system_tokens a + file_cost system_tokens b.
Proof. unfold file_cost. rewrite map_app, list_sum_app. reflexivity. Qed.

Lemma all_requests_seal (st : packer) : all_requests (seal st) = all_requests st.
Proof.
  unfold all_requests, seal. simpl.
  rewrite flat_map_app. simpl. rewrite !app_nil_r. reflexivity.
Qed.

Lemma pack_step_requests (st st' : packer) (ch : chunk) :
  pack_step system system_tokens budget cap st ch = Returned st' ->
  all_requests st' = all_requests st ++ [make_request system (global_request_id st) ch]
  /\ global_request_id st' = S (global_request_id st).
Proof.
  unfold pack_step. destruct (encode_chunk ch) as [toks|]; [|discriminate].
  intros H. injection H as <-.
  destruct (_ || _).
  - split; [|reflexivity]. rewrite <- (all_requests_seal st).
    unfold all_requests. simpl. rewrite app_nil_r. reflexivity.
  - split; [|reflexivity]. unfold all_requests. simpl. rewrite app_assoc. reflexivity.
Qed.

Lemma pack_loop_requests (chs : list chunk) :
  forall st st',
    pack_loop system system_tokens budget cap chs st = Returned st' ->
    all_requests st' = all_requests st ++ numbered system (global_request_id st) chs.
Proof.
  induction chs as [|ch chs IH]; intros st st' H; simpl in H.
  - injection H as <-. simpl. rewrite app_nil_r. reflexivity.
  - destruct (pack_step system system_tokens budget cap st ch) as [st1|] eqn:E;
      [|discriminate].
    apply pack_step_requests in E as [E1 E2].
    rewrite (IH st1 st' H), E1, E2, <- app_assoc. reflexivity.
Qed.

Lemma pack_loop_returns (l : list text) :
  forall st, exists st',
    pack_loop system system_tokens budget cap (map TextChunk l) st = Returned st'.
Proof.
  induction l as [|s l IH]; intros st; simpl.
  - exists st. reflexivity.
  - apply IH.
Qed.

Lemma finish_requests (st : packer) : flat_map snd (finish st) = all_requests st.
Proof.
  unfold finish, all_requests. destruct (current_batch_requests st) as [|r reqs].
  - rewrite app_nil_r. reflexivity.
  - rewrite flat_map_app. simpl. rewrite app_nil_r. reflexivity.
Qed.

Lemma tidy_start : tidy system_tokens budget cap packer_start.
Proof.
  unfold tidy, packer_start. simpl. repeat split; try reflexivity.
  - left. simpl. lia.
  - constructor.
Qed.

Lemma tidy_step (st st' : packer) (ch : chunk) :
  tidy system_tokens budget cap st ->
  pack_step system system_tokens budget cap st ch = Returned st' ->
  tidy system_tokens budget cap st'.
Proof.
  intros [Ht [Hn [Hw Hf]]]. unfold pack_step.
  destruct ch as [s|ids]; simpl encode_chunk; cbv iota; [|discriminate].
  intros H. injection H as <-.
  destruct ((budget <? Z.of_nat (current_batch_tokens st
               + (system_tokens + length (get_encoding "cl100k_base" s) + 100)))%Z
            || (cap <=? Z.of_nat (request_count st))%Z) eqn:E.
  - unfold tidy. simpl. repeat split.
    + unfold file_cost, request_cost. simpl. lia.
    + left. simpl. lia.
    + apply Forall_app. split; [exact Hf|]. constructor; [exact Hw | constructor].
  - apply orb_false_iff in E as [E1 E2].
    apply Z.ltb_ge in E1. apply Z.leb_gt in E2.
    unfold tidy. simpl. repeat split.
    + rewrite file_cost_app, Ht. f_equal. unfold file_cost, request_cost. simpl. lia.
    + rewrite length_app, Hn. simpl. lia.
    + right. rewrite file_cost_app, length_app, <- Ht, <- Hn.
      assert (Hc : file_cost system_tokens
                     [make_request system (global_request_id st) (TextChunk s)]
                   = system_tokens + length (get_encoding "cl100k_base" s) + 100)
        by (unfold file_cost, request_cost; simpl; lia).
      rewrite Hc. simpl length. split; lia.
    + exact Hf.
Qed.

Lemma tidy_loop (chs : list chunk) :
  forall st st',
    tidy system_tokens budget cap st ->
    pack_loop system system_tokens budget cap chs st = Returned st' ->
    tidy system_tokens budget cap st'.
Proof.
  induction chs as [|ch chs IH]; intros st st' Ht H; simpl in H.
  - injection H as <-. exact Ht.
  - destruct (pack_step system system_tokens budget cap st ch) as [st1|] eqn:E;
      [|discriminate].
    apply (IH st1 st'); [eapply tidy_step; eassumption | exact H].
Qed.

Lemma tidy_finish (st : packer) :
  tidy system_tokens budget cap st ->
  Forall (fun f => within system_tokens budget cap (snd f)) (finish st).
Proof.
  intros [_ [_ [Hw Hf]]]. unfold finish.
  destruct (current_batch_requests st) as [|r reqs] eqn:E; [exact Hf|].
  apply Forall_app. split; [exact Hf|]. constructor; [exact Hw | constructor].
Qed.

End Packing.

Lemma first_number_request (n : nat) :
  first_number ("request-" ++ str_of_nat n) = Some n.
Proof.
  unfold first_number, re_search, re_findall, finditer.
  simpl app. do 8 (rewrite scan_lit by (apply match_digits_none; reflexivity)).
  rewrite <- (app_nil_r (str_of_nat n)) at 1. rewrite scan_span.
  - simpl. rewrite int_of_str. reflexivity.
  - apply str_of_nat_not_empty.
  - apply match_digits_some;
      [apply str_of_nat_not_empty | apply str_of_nat_digits | exact I].
Qed.

Lemma numbered_ids (system : text) (chs : list chunk) :
  forall id,
    map (fun r => first_number (custom_id r)) (numbered system id chs)
    = map Some (seq id (length chs)).
Proof.
  induction chs as [|ch chs IH]; intros id; [reflexivity|].
  simpl numbered. simpl length. simpl seq. simpl map. rewrite IH. f_equal.
  apply first_number_request.
Qed.

Lemma numbered_length (system : text) (chs : list chunk) :
  forall id, length (numbered system id chs) = length chs.
Proof. induction chs as [|ch chs IH]; intros id; simpl; [|rewrite IH]; reflexivity. Qed.

Lemma numbered_contents (system : text) (chs : list chunk) :
  forall id, map user_content (numbered system id chs) = chs.
Proof. induction chs as [|ch chs IH]; intros id; simpl; [|rewrite IH]; reflexivity. Qed.

(** When the masked input counts more tokens than a request may hold,
    [file_to_jsonl] returns, and its files hold one request per chunk of the
    splitter, numbered from 1 in the order of the chunks, every file
    [within] the limits. *)
Lemma file_to_jsonl_long_input {tiktoken : Tiktoken}
  (translation_language raw_input : text)
  (max_tokens_per_batch max_tokens_per_request max_requests_per_file : Z) :
  let system := system_message translation_language in
  let system_tokens := count_tokens system "gpt-4o" in
  let raw_data := fst (extract_html_tags raw_input) in
  (max_tokens_per_request < Z.of_nat (count_tokens raw_data "gpt-4o"))%Z ->
  exists files,
    file_to_jsonl translation_language raw_input max_tokens_per_batch
      max_tokens_per_request max_requests_per_file
    = Returned (files, snd (extract_html_tags raw_input))
    /\ flat_map snd files
       = numbered system 1
           (map TextChunk
              (split_text_into_chunks_with_tags raw_data
                 (max_tokens_per_request - Z.of_nat system_tokens - 100) "gpt-4o"))
    /\ Forall (fun f => within system_tokens max_tokens_per_batch
                          max_requests_per_file (snd f)) files.
Proof.
  intros system system_tokens raw_data Hlong.
  unfold file_to_jsonl. subst raw_data.
  destruct (extract_html_tags raw_input) as [raw_data tags]. simpl fst in *. simpl snd.
  apply Z.ltb_lt in Hlong. rewrite Hlong.
  fold system. fold system_tokens.
  set (chs := split_text_into_chunks_with_tags raw_data _ _).
  destruct (pack_loop_returns system system_tokens max_tokens_per_batch
              max_requests_per_file chs packer_start) as [st E].
  rewrite E. exists (finish st). split; [reflexivity|]. split.
  - rewrite finish_requests.
    rewrite (pack_loop_requests _ _ _ _ _ _ _ E). reflexivity.
  - apply tidy_finish. eapply tidy_loop; [apply tidy_start | exact E].
Qed.

(** ** C8: the content of a request *)

(** A masked input that fits in one request never reaches the packer as a
    text: [text_chunks] holds the list of its token ids, and the encoder
    refuses it. *)
Lemma file_to_jsonl_short_input {tiktoken : Tiktoken}
  (translation_language raw_input : text)
  (max_tokens_per_batch max_tokens_per_request max_requests_per_file : Z) :
  (Z.of_nat (count_tokens (fst (extract_html_tags raw_input)) "gpt-4o")
   <= max_tokens_per_request)%Z ->
  file_to_jsonl translation_language raw_input max_tokens_per_batch
    max_tokens_per_request max_requests_per_file = TypeError.
Proof.
  intros H. unfold file_to_jsonl.
  destruct (extract_html_tags raw_input) as [raw_data tags]. simpl fst in H.
  apply Z.ltb_ge in H. rewrite H. reflexivity.
Qed.

(** C8: for the input of the scenario, which fits in one request under the
    default limits, no request holding the masked text is made: the run ends
    in a [TypeError]. *)
Theorem short_input_raises_type_error :
  @file_to_jsonl one_token_per_character "French" scenario_input 89900 950 500
  = TypeError.
Proof. vm_compute. reflexivity. Qed.

(** ** C9: the numbering of the requests *)

(** C9: the numbers in the [custom_id]s of all the batch files of a run,
    read file after file and line after line, are 1, 2, 3, ... without a
    gap and without a repeat, however the requests fall into files. *)
Theorem custom_ids_count_from_one {tiktoken : Tiktoken}
  (translation_language raw_input : text)
  (max_tokens_per_batch max_tokens_per_request max_requests_per_file : Z) :
  (max_tokens_per_request
   < Z.of_nat (count_tokens (fst (extract_html_tags raw_input)) "gpt-4o"))%Z ->
  exists files tags,
    file_to_jsonl translation_language raw_input max_tokens_per_batch
      max_tokens_per_request max_requests_per_file = Returned (files, tags)
    /\ map (fun r => first_number (custom_id r)) (flat_map snd files)
       = map Some (seq 1 (length (flat_map snd files))).
Proof.
  intros H.
  destruct (file_to_jsonl_long_input translation_language raw_input
              max_tokens_per_batch max_tokens_per_request max_requests_per_file H)
    as [files [E [Hreq _]]].
  exists files, (snd (extract_html_tags raw_input)). split; [exact E|].
  rewrite Hreq, numbered_ids, numbered_length. reflexivity.
Qed.

Lemma custom_ids_count_from_one_witness :
  (950 < Z.of_nat (@count_tokens one_token_per_character
                     (fst (extract_html_tags long_input)) "gpt-4o"))%Z
  /\ exists files tags,
       @file_to_jsonl one_token_per_character "French" long_input 89900 950 500
       = Returned (files, tags)
       /\ map (fun r => first_number (custom_id r)) (flat_map snd files)
          = map Some (seq 1 (length (flat_map snd files))).
Proof.
  split; [vm_compute; reflexivity|].
  apply (@custom_ids_count_from_one one_token_per_character).
  vm_compute. reflexivity.
Defined.

(** ** C10: the budgets of a batch file *)

(** C10, as stated, fails: with a budget of 3000 tokens, an unbroken text of
    3000 tokens makes one request, which cannot be split and which alone
    costs more than the budget; the file that holds it is written all the
    same. *)
Lemma oversize_request_exceeds_budget :
  match @file_to_jsonl one_token_per_character "French"
          (repeat "a"%char 3000) 3000 950 500 with
  | Returned (files, _) =>
      forallb
        (fun f =>
           @within_limits one_token_per_character
             (@count_tokens one_token_per_character (system_message "French") "gpt-4o")
             3000 500 (snd f))
        files = false
  | TypeError => False
  end.
Proof. vm_compute. reflexivity. Qed.

(** C10, amended: every batch file written holds at most the configured
    number of requests (at most one where the cap is below one), and its
    cumulative token cost, overhead included, is at most the configured
    budget unless it holds no more than one request; the requests of the
    files, the last and possibly partial one included, are those of all the
    chunks. *)
Theorem batch_files_within_budgets {tiktoken : Tiktoken}
  (translation_language raw_input : text)
  (max_tokens_per_batch max_tokens_per_request max_requests_per_file : Z) :
  let system_tokens := count_tokens (system_message translation_language) "gpt-4o" in
  let raw_data := fst (extract_html_tags raw_input) in
  (max_tokens_per_request < Z.of_nat (count_tokens raw_data "gpt-4o"))%Z ->
  exists files tags,
    file_to_jsonl translation_language raw_input max_tokens_per_batch
      max_tokens_per_request max_requests_per_file = Returned (files, tags)
    /\ Forall
         (fun f =>
            (Z.of_nat (length (snd f)) <= Z.max max_requests_per_file 1)%Z
            /\ (length (snd f) <= 1
                \/ (Z.of_nat (file_cost system_tokens (snd f))
                    <= max_tokens_per_batch)%Z))
         files
    /\ map user_content (flat_map snd files)
       = map TextChunk
           (split_text_into_chunks_with_tags raw_data
              (max_tokens_per_request - Z.of_nat system_tokens - 100) "gpt-4o").
Proof.
  intros system_tokens raw_data H.
  destruct (file_to_jsonl_long_input translation_language raw_input
              max_tokens_per_batch max_tokens_per_request max_requests_per_file H)
    as [files [E [Hreq Hw]]].
  exists files, (snd (extract_html_tags raw_input)). split; [exact E|]. split.
  - eapply Forall_impl; [|exact Hw]. intros f [Hf|[Hc Hn]].
    + split; [lia | left; exact Hf].
    + split; [lia | right; exact Hc].
  - rewrite Hreq. apply numbered_contents.
Qed.

Lemma batch_files_within_budgets_witness :
  (950 < Z.of_nat (@count_tokens one_token_per_character
                     (fst (extract_html_tags long_input)) "gpt-4o"))%Z
  /\ exists files tags,
       @file_to_jsonl one_token_per_character "French" long_input 2000 950 500
       = Returned (files, tags)
       /\ Forall
            (fun f =>
               (Z.of_nat (length (snd f)) <= Z.max 500 1)%Z
               /\ (length (snd f) <= 1
                   \/ (Z.of_nat
                         (@file_cost one_token_per_character
                            (@count_tokens one_token_per_character
                               (system_message "French") "gpt-4o") (snd f))
                       <= 2000)%Z))
            files
       /\ map user_content (flat_map snd files)
          = map TextChunk
              (@split_text_into_chunks_with_tags one_token_per_character
                 (fst (extract_html_tags long_input))
                 (950 - Z.of_nat (@count_tokens one_token_per_character
                                    (system_message "French") "gpt-4o") - 100)
                 "gpt-4o").
Proof.
  split; [vm_compute; reflexivity|].
  apply (@batch_files_within_budgets one_token_per_character "French" long_input
           2000 950 500).
  vm_compute. reflexivity.
Defined.

(* ================================================================== *)
(** * JobOrchestrator *)

(** ** Histories *)

Lemma gate_snoc (h : list event) (e : event) : gate (h ++ [e]) = gate_step (gate h) e.
Proof. unfold gate. rewrite fold_left_app. reflexivity. Qed.

(** The gate refuses a job created after anything but a listing that
    reported no active job. *)
Lemma gate_refuses :
  gate [Listed [("batch_1", "in_progress")]; Created "file_1" (Some "batch_2")] = None
  /\ gate [Listed []; Slept 10; Created "file_1" (Some "batch_2")] = None
  /\ gate [Listed [("batch_1", "failed")]; Created "file_1" (Some "batch_2")]
     = Some true.
Proof. repeat split. Qed.

Lemma bind_run {A B : Type} (m : M A) (k : A -> M B) (w : world) :
  bind m k w = k (fst (m w)) (snd (m w)).
Proof. unfold bind. destruct (m w). reflexivity. Qed.

Lemma call_history {A : Type} (answer : nat -> A) (ev : A -> event) (w : world) :
  history (snd (call answer ev w)) = history w ++ [ev (answer (clock w))].
Proof. reflexivity. Qed.

Lemma gate_quiet (h : list event) (e : event) :
  quiet e -> gate h <> None -> gate (h ++ [e]) = Some false.
Proof.
  intros Hq Hg. rewrite gate_snoc. destruct (gate h) as [b|]; [|contradiction].
  destruct e; simpl in *; try reflexivity; contradiction.
Qed.

Section Monitoring.
Context {remote : Remote}.
Variable output_dir : text.

Lemma poll_one_gate (st : monitor) (batch_id : text) (w : world) :
  gate (history w) <> None ->
  gate (history (snd (poll_one output_dir st batch_id w))) = Some false.
Proof.
  intros Hg. unfold poll_one. rewrite bind_run.
  set (w1 := snd (poll_status batch_id w)).
  assert (H1 : gate (history w1) = Some false).
  { subst w1. unfold poll_status. rewrite call_history.
    apply gate_quiet; [exact I | exact Hg]. }
  assert (H1' : gate (history w1) <> None) by (rewrite H1; discriminate).
  destruct (fst (poll_status batch_id w)) as [bs|]; [|exact H1].
  destruct (text_eqb (status bs) "completed").
  - rewrite bind_run. cbn [ret snd].
    destruct (truthy (output_file_id bs)); [|exact H1].
    unfold download_batch_results. rewrite call_history.
    apply gate_quiet; [exact I | exact H1'].
  - destruct (text_eqb (status bs) "failed"); [exact H1|].
    destruct (is_active (status bs)); [|exact H1].
    rewrite bind_run. cbn [ret snd sleep history].
    apply gate_quiet; [exact I | exact H1'].
Qed.

Lemma poll_all_gate (snapshot : list text) :
  forall st w,
    gate (history w) <> None ->
    gate (history (snd (poll_all output_dir snapshot st w))) <> None.
Proof.
  induction snapshot as [|batch_id rest IH]; intros st w Hg; [exact Hg|].
  simpl poll_all. rewrite bind_run. apply IH.
  rewrite poll_one_gate by exact Hg. discriminate.
Qed.

Lemma resubmit_gate (snapshot : list text) :
  forall st w,
    gate (history w) = Some true ->
    gate (history (snd (resubmit snapshot st w))) = Some true.
Proof.
  induction snapshot as [|file_id rest IH]; intros st w Hg; [exact Hg|].
  simpl resubmit. rewrite bind_run. apply IH.
  unfold submit. rewrite call_history, gate_snoc, Hg. reflexivity.
Qed.

Lemma monitor_round_gate (st : monitor) (w : world) :
  gate (history w) <> None ->
  gate (history (snd (monitor_round output_dir st w))) <> None.
Proof.
  intros Hg. unfold monitor_round. rewrite bind_run.
  pose proof (poll_all_gate (batch_ids st) st w Hg) as H1.
  set (st1 := fst (poll_all output_dir (batch_ids st) st w)) in *.
  set (w1 := snd (poll_all output_dir (batch_ids st) st w)) in *.
  destruct (batch_ids st1); [|exact H1].
  destruct (retry_batches st1) as [|f fs]; [exact H1|].
  rewrite bind_run.
  assert (H2 : gate (history (snd (manage_batches w1)))
               = Some (active_count (fst (manage_batches w1)) =? 0)).
  { unfold manage_batches. rewrite call_history, gate_snoc.
    destruct (gate (history w1)); [reflexivity | contradiction]. }
  destruct (active_count (fst (manage_batches w1)) =? 0).
  - rewrite resubmit_gate by exact H2. discriminate.
  - rewrite bind_run. cbn [ret snd sleep history].
    rewrite gate_quiet; [discriminate | exact I | rewrite H2; discriminate].
Qed.

Lemma monitor_loop_gate (fuel : nat) :
  forall st w,
    gate (history w) <> None ->
    gate (history (snd (monitor_loop fuel output_dir st w))) <> None.
Proof.
  induction fuel as [|fuel IH]; intros st w Hg; simpl.
  - destruct (batch_ids st), (retry_batches st); exact Hg.
  - destruct (batch_ids st), (retry_batches st); try exact Hg;
      rewrite bind_run; apply IH; apply monitor_round_gate; exact Hg.
Qed.

End Monitoring.

(** ** Admission in [create_all_batches] *)

Lemma admission_snoc (h : list event) (e : event) :
  admission (h ++ [e]) = admission_step (admission h) e.
Proof. unfold admission. rewrite fold_left_app. reflexivity. Qed.

(** Every job that [create_all_batches] creates directly follows a listing
    that reported fewer than two active jobs. *)
Lemma create_all_batches_admits_below_two {remote : Remote} (fuel : nat) :
  forall pending_files batch_ids0 w,
    admission (history w) <> None ->
    admission (history (snd (create_all_batches_loop fuel pending_files batch_ids0 w)))
    <> None.
Proof.
  induction fuel as [|fuel IH]; intros pending ids w Hw; simpl.
  - destruct pending; exact Hw.
  - destruct pending as [|file_id rest]; [exact Hw|].
    rewrite bind_run.
    assert (H1 : admission (history (snd (manage_batches w)))
                 = Some (active_count (fst (manage_batches w)) <? 2)).
    { unfold manage_batches. rewrite call_history, admission_snoc.
      destruct (admission (history w)); [reflexivity | contradiction]. }
    destruct (active_count (fst (manage_batches w)) <? 2).
    + rewrite !bind_run. apply IH. cbn [sleep snd history].
      rewrite admission_snoc. unfold submit. rewrite call_history, admission_snoc, H1.
      discriminate.
    + rewrite bind_run. apply IH. cbn [sleep snd history].
      rewrite admission_snoc, H1. discriminate.
Qed.

(** ** The drain *)

(** On a service that accepts every job, the drain creates a job for every
    input file of the queue, however many they are. *)
Lemma resubmit_creates_all {remote : Remote} (snapshot : list text) :
  (forall t file_id, truthy (create_batch t file_id) = true) ->
  forall st w,
    length (batch_ids (fst (resubmit snapshot st w)))
    = length (batch_ids st) + length snapshot.
Proof.
  intros Hok. induction snapshot as [|file_id rest IH]; intros st w.
  - simpl. lia.
  - simpl resubmit. rewrite bind_run, IH.
    unfold submit at 1. unfold call. cbn [fst]. rewrite Hok.
    cbn [batch_ids]. rewrite length_app. simpl. lia.
Qed.

(** ** C3: the retry barrier *)

(** C3: whatever the remote service answers and however long the monitor
    runs, a job for a queued input file is created only when the listing
    just made reported no job as validating, in progress, finalizing or
    cancelling: between that listing and the creation there are only other
    creations of the same drain. *)
Theorem retry_drained_behind_barrier {remote : Remote}
  (fuel : nat) (batch_ids0 : list text) (output_dir : text) :
  behind_barrier
    (history (snd (monitor_and_download_results fuel batch_ids0 output_dir world_start))).
Proof.
  unfold behind_barrier, monitor_and_download_results.
  apply monitor_loop_gate. discriminate.
Qed.

(** ** C4: the classification of a failure *)

(** C4, as stated, fails: a failed job one of whose messages names the
    quota, but not the first, is dropped and its input file is not queued. *)
Lemma quota_in_second_message_not_retried :
  let st' :=
    fst (@poll_one answers_quota_named_second "output_jsonl/"
           {| batch_ids := ["batch_1"]; retry_batches := [] |} "batch_1" world_start) in
  some_error_is_quota quota_named_second = true
  /\ batch_ids st' = []
  /\ ~ In "file-1" (retry_batches st').
Proof. vm_compute. repeat split. intros []. Qed.

(** C4, amended: a job reported as failed is removed from the active set;
    its input file id is added to the retry queue exactly when the first of
    its error messages names the quota and the report carries an input file
    id; otherwise nothing is queued.  Nothing is created or downloaded for
    it in either case. *)
Theorem failed_job_classified {remote : Remote}
  (output_dir : text) (st : monitor) (batch_id : text) (w : world)
  (bs : batch_status) :
  check_batch_status (clock w) batch_id = Some bs ->
  status bs = "failed" ->
  let st' := fst (poll_one output_dir st batch_id w) in
  let w' := snd (poll_one output_dir st batch_id w) in
  batch_ids st' = remove_first batch_id (batch_ids st)
  /\ retry_batches st'
     = (if first_error_is_quota bs && truthy (input_file_id bs)
        then retry_batches st ++ [unwrap (input_file_id bs)]
        else retry_batches st)
  /\ history w' = history w ++ [Polled batch_id (Some bs)].
Proof.
  intros Hbs Hfailed st' w'.
  assert (E : poll_one output_dir st batch_id w
              = (on_failed batch_id bs st,
                 {| clock := S (clock w);
                    history := history w ++ [Polled batch_id (Some bs)] |})).
  { unfold poll_one, bind, poll_status, call. rewrite Hbs, Hfailed. reflexivity. }
  subst st' w'. rewrite E. cbn [fst snd history on_failed batch_ids retry_batches].
  repeat split.
  unfold first_error_is_quota, error_message.
  destruct (errors bs) as [|[m|] rest].
  - reflexivity.
  - destruct (contains _ m); reflexivity.
  - reflexivity.
Qed.

Lemma failed_job_classified_witness :
  let st := {| batch_ids := ["batch_1"; "batch_2"]; retry_batches := [] |} in
  let st' := fst (@poll_one answers_quota_named_first "output_jsonl/" st "batch_1" world_start) in
  let w' := snd (@poll_one answers_quota_named_first "output_jsonl/" st "batch_1" world_start) in
  @check_batch_status answers_quota_named_first (clock world_start) "batch_1"
  = Some quota_named_first
  /\ status quota_named_first = "failed"
  /\ batch_ids st' = remove_first "batch_1" (batch_ids st)
  /\ retry_batches st'
     = (if first_error_is_quota quota_named_first
           && truthy (input_file_id quota_named_first)
        then retry_batches st ++ [unwrap (input_file_id quota_named_first)]
        else retry_batches st)
  /\ history w' = history world_start ++ [Polled "batch_1" (Some quota_named_first)].
Proof.
  split; [reflexivity|]. split; [reflexivity|].
  apply (@failed_job_classified answers_quota_named_first "output_jsonl/"
           {| batch_ids := ["batch_1"; "batch_2"]; retry_batches := [] |}
           "batch_1" world_start quota_named_first);
    reflexivity.
Defined.

(** ** C2: the bound on the jobs in flight *)

(** C2: the monitor, started on three jobs that have all failed on the
    quota, finds no active job, creates three jobs in one drain, and on its
    next turn finds all three validating: three of its jobs are active at
    once. *)
Theorem drain_puts_three_jobs_in_flight :
  let run :=
    @monitor_and_download_results three_quota_failures 2
      ["batch_1"; "batch_2"; "batch_3"] "output_jsonl/" world_start in
  batch_ids (fst run) = ["retry_of_file_1"; "retry_of_file_2"; "retry_of_file_3"]
  /\ history (snd run)
     = [ Polled "batch_1" (Some (failed_on_quota "file_1"));
         Polled "batch_2" (Some (failed_on_quota "file_2"));
         Polled "batch_3" (Some (failed_on_quota "file_3"));
         Listed [("batch_1", "failed"); ("batch_2", "failed"); ("batch_3", "failed")];
         Created "file_1" (Some "retry_of_file_1");
         Created "file_2" (Some "retry_of_file_2");
         Created "file_3" (Some "retry_of_file_3");
         Polled "retry_of_file_1" (Some (validating "file_1"));
         Slept 5;
         Polled "retry_of_file_2" (Some (validating "file_2"));
         Slept 5;
         Polled "retry_of_file_3" (Some (validating "file_3"));
         Slept 5 ].
Proof. vm_compute. split; reflexivity. Qed.

(* ================================================================== *)
(** * More of the TagExtractor *)

(** ** The callback of the substitution *)

Lemma sub_pieces_lit {St : Type} (repl : text -> St -> text * St)
  (c : ascii) (ps : list piece) (st : St) :
  sub_pieces repl (Lit c :: ps) st
  = (c :: fst (sub_pieces repl ps st), snd (sub_pieces repl ps st)).
Proof. simpl. destruct (sub_pieces repl ps st). reflexivity. Qed.

Lemma sub_pieces_span {St : Type} (repl : text -> St -> text * St)
  (m : text) (ps : list piece) (st : St) :
  sub_pieces repl (Span m :: ps) st
  = (fst (repl m st) ++ fst (sub_pieces repl ps (snd (repl m st))),
     snd (sub_pieces repl ps (snd (repl m st)))).
Proof.
  simpl. destruct (repl m st) as [r st1]. simpl.
  destruct (sub_pieces repl ps st1). reflexivity.
Qed.

Lemma has_value_values (tag : text) (d : tag_dict) :
  has_value tag d = existsb (fun v => text_eqb v tag) (map snd d).
Proof.
  unfold has_value. induction d as [|kv d IH]; simpl; [|rewrite IH]; reflexivity.
Qed.

Lemma find_id_none (tag : text) (d : tag_dict) :
  has_value tag d = false -> find_id tag d = None.
Proof.
  induction d as [|[k v] d IH]; simpl; [reflexivity|].
  destruct (text_eqb v tag); simpl; [discriminate | exact IH].
Qed.

Lemma find_id_app_l (tag id : text) (d e : tag_dict) :
  find_id tag d = Some id -> find_id tag (d ++ e) = Some id.
Proof.
  induction d as [|[k v] d IH]; simpl; [discriminate|].
  destruct (text_eqb v tag); [intros H; exact H | exact IH].
Qed.

Lemma find_id_app_r (tag : text) (d e : tag_dict) :
  find_id tag d = None -> find_id tag (d ++ e) = find_id tag e.
Proof.
  induction d as [|[k v] d IH]; simpl; [reflexivity|].
  destruct (text_eqb v tag); [discriminate | exact IH].
Qed.

(** The state in which the callback leaves the dictionary and the counter,
    and the text it returns. *)
Lemma replacement_known (m : text) (d : tag_dict) (n : nat) :
  has_value m d = true ->
  exists id, find_id m d = Some id /\ replacement m (d, n) = (id, (d, n)).
Proof.
  intros H. destruct (find_id_has_value m d H) as [id [Ef _]].
  exists id. split; [exact Ef|]. unfold replacement. rewrite H, Ef. reflexivity.
Qed.

Lemma replacement_fresh (m : text) (d : tag_dict) (n : nat) :
  keys_from 1 d -> n = S (length d) -> has_value m d = false ->
  replacement m (d, n) = (tag_id n, (d ++ [(tag_id n, m)], S n)).
Proof.
  intros Hd Hn H. unfold replacement. rewrite H. simpl negb. cbv iota.
  rewrite dict_set_fresh; [reflexivity|].
  intros k' v' Hin E. destruct (keys_from_in 1 d k' v' Hd Hin) as [j [-> Hj]].
  apply tag_id_inj in E. lia.
Qed.

Lemma keys_from_grow (d : tag_dict) (n : nat) (m : text) :
  keys_from 1 d -> n = S (length d) ->
  keys_from 1 (d ++ [(tag_id n, m)]) /\ S n = S (length (d ++ [(tag_id n, m)])).
Proof.
  intros Hd Hn. split.
  - replace n with (1 + length d) by lia. apply keys_from_snoc. exact Hd.
  - rewrite length_app. simpl. lia.
Qed.

(** What [re.sub] does with the callback, from any state of the
    dictionary: the dictionary grows by the spans not yet in it, in the
    order of their first occurrence, and every span is written as the
    placeholder that the final dictionary holds for it. *)
Lemma sub_pieces_grows (ps : list piece) :
  forall d n,
    keys_from 1 d -> n = S (length d) ->
    exists e,
      fst (snd (sub_pieces replacement ps (d, n))) = d ++ e
      /\ keys_from 1 (d ++ e)
      /\ map snd e = first_occurrences (map snd d) (spans ps)
      /\ fst (sub_pieces replacement ps (d, n)) = flat_map (masked_piece (d ++ e)) ps.
Proof.
  induction ps as [|[c|m] ps IH]; intros d n Hd Hn.
  - exists []. simpl. rewrite app_nil_r. repeat split. exact Hd.
  - destruct (IH d n Hd Hn) as [e [E1 [E2 [E3 E4]]]].
    exists e. rewrite sub_pieces_lit. cbn [fst snd]. repeat split; try assumption.
    simpl. rewrite E4. reflexivity.
  - rewrite sub_pieces_span. cbn [fst snd spans first_occurrences].
    rewrite <- has_value_values.
    destruct (has_value m d) eqn:Ev.
    + destruct (replacement_known m d n Ev) as [id [Ef ->]]. cbn [fst snd].
      destruct (IH d n Hd Hn) as [e [E1 [E2 [E3 E4]]]].
      exists e. repeat split; try assumption.
      simpl. rewrite (find_id_app_l _ _ _ _ Ef), E4. reflexivity.
    + rewrite (replacement_fresh m d n Hd Hn Ev). cbn [fst snd].
      destruct (keys_from_grow d n m Hd Hn) as [Hd1 Hn1].
      destruct (IH _ _ Hd1 Hn1) as [e [E1 [E2 [E3 E4]]]].
      rewrite <- app_assoc in E1, E2, E4.
      exists ((tag_id n, m) :: e). split; [exact E1|]. split; [exact E2|]. split.
      * cbn [map snd]. f_equal. rewrite map_app in E3. exact E3.
      * cbn [flat_map masked_piece].
        rewrite (find_id_app_r _ _ _ (find_id_none m d Ev)).
        cbn [find_id]. rewrite text_eqb_refl. f_equal. exact E4.
Qed.

Lemma existsb_text_in (x : text) (l : list text) :
  existsb (fun v => text_eqb v x) l = true <-> In x l.
Proof.
  rewrite existsb_exists. split.
  - intros [v [Hin E]]. apply text_eqb_eq in E. subst v. exact Hin.
  - intros Hin. exists x. split; [exact Hin | apply text_eqb_refl].
Qed.

Lemma first_occurrences_distinct (l : list text) :
  forall seen, NoDup seen -> NoDup (seen ++ first_occurrences seen l).
Proof.
  induction l as [|x l IH]; intros seen Hs; simpl.
  - rewrite app_nil_r. exact Hs.
  - destruct (existsb (fun v => text_eqb v x) seen) eqn:E; [apply IH; exact Hs|].
    change (seen ++ x :: first_occurrences (seen ++ [x]) l)
      with (seen ++ [x] ++ first_occurrences (seen ++ [x]) l).
    rewrite app_assoc. apply IH.
    apply NoDup_app; [exact Hs | repeat constructor; intros [] |].
    intros y Hy [<-|[]]. apply existsb_text_in in Hy. congruence.
Qed.

Lemma first_occurrences_in (l : list text) :
  forall seen x, In x l -> In x (seen ++ first_occurrences seen l).
Proof.
  induction l as [|y l IH]; intros seen x Hin; [destruct Hin|].
  destruct Hin as [<-|Hin]; simpl.
  - destruct (existsb (fun v => text_eqb v y) seen) eqn:E.
    + apply in_or_app. left. apply existsb_text_in. exact E.
    + apply in_or_app. right. left. reflexivity.
  - destruct (existsb (fun v => text_eqb v y) seen) eqn:E; [apply IH; exact Hin|].
    specialize (IH (seen ++ [y]) x Hin). rewrite <- app_assoc in IH. exact IH.
Qed.

Lemma combine_fst_snd {A B : Type} (l : list (A * B)) :
  combine (map fst l) (map snd l) = l.
Proof. induction l as [|[a b] l IH]; simpl; [|rewrite IH]; reflexivity. Qed.

Lemma extract_as_re_sub (t : text) :
  extract_html_tags t
  = (fst (re_sub span_pattern replacement t ([], 1)),
     fst (snd (re_sub span_pattern replacement t ([], 1)))).
Proof.
  unfold extract_html_tags.
  destruct (re_sub span_pattern replacement t ([], 1)) as [m st]. reflexivity.
Qed.

(** What extraction returns, in full. *)
Lemma extract_grows (t : text) :
  keys_from 1 (snd (extract_html_tags t))
  /\ map snd (snd (extract_html_tags t))
     = first_occurrences [] (re_findall span_pattern t)
  /\ fst (extract_html_tags t)
     = flat_map (masked_piece (snd (extract_html_tags t))) (finditer span_pattern t).
Proof.
  destruct (sub_pieces_grows (finditer span_pattern t) [] 1)
    as [e [E1 [E2 [E3 E4]]]]; [reflexivity | reflexivity |].
  rewrite extract_as_re_sub. cbn [fst snd].
  assert (Ed : fst (snd (re_sub span_pattern replacement t ([], 1))) = e)
    by exact E1.
  rewrite Ed. split; [exact E2|]. split; [exact E3 | exact E4].
Qed.

(** ** The dictionary *)

(** X1: the dictionary of an extraction holds the distinct spans of the text in
    the order in which they first occur, under the keys [{{tag_1}}],
    [{{tag_2}}], ... in that order. *)
Theorem extract_dict_first_occurrences (t : text) :
  let found := first_occurrences [] (re_findall span_pattern t) in
  snd (extract_html_tags t)
  = combine (map tag_id (seq 1 (length found))) found.
Proof.
  intros found. destruct (extract_grows t) as [Hk [Hv _]].
  rewrite <- (combine_fst_snd (snd (extract_html_tags t))).
  unfold keys_from in Hk. rewrite Hk, Hv.
  fold found. f_equal. f_equal. f_equal.
  rewrite <- (length_map snd), Hv. reflexivity.
Qed.

(** X2: no two placeholders of a dictionary stand for the same span, and no two
    spans share a placeholder. *)
Theorem extract_dict_one_to_one (t : text) :
  NoDup (map snd (snd (extract_html_tags t)))
  /\ NoDup (map fst (snd (extract_html_tags t))).
Proof.
  destruct (extract_grows t) as [Hk [Hv _]]. split.
  - rewrite Hv. apply (first_occurrences_distinct _ []). constructor.
  - unfold keys_from in Hk. rewrite Hk.
    apply Finite.Injective_map_NoDup; [|apply seq_NoDup].
    intros a b. apply tag_id_inj.
Qed.

(** ** The masked text *)

(** X3: every span found in the text has its placeholder in the dictionary, and
    the masked text is the text with each span written as that
    placeholder: equal spans are written alike. *)
Theorem extract_masks_every_span (t : text) :
  let d := snd (extract_html_tags t) in
  (forall m, In m (re_findall span_pattern t) ->
             exists n, find_id m d = Some (tag_id n) /\ In (tag_id n, m) d)
  /\ fst (extract_html_tags t) = flat_map (masked_piece d) (finditer span_pattern t).
Proof.
  intros d. destruct (extract_grows t) as [Hk [Hv Hm]]. split; [|exact Hm].
  intros m Hin.
  assert (Hval : has_value m d = true).
  { rewrite has_value_values. apply existsb_text_in. fold d in Hv. rewrite Hv.
    apply (first_occurrences_in _ [] m Hin). }
  destruct (find_id_has_value m d Hval) as [id [Ef Hid]].
  destruct (keys_from_in 1 d id m Hk Hid) as [n [-> _]].
  exists n. split; assumption.
Qed.

Lemma sub_pieces_no_span {St : Type} (repl : text -> St -> text * St)
  (ps : list piece) (st : St) :
  spans ps = [] -> sub_pieces repl ps st = (flatten ps, st).
Proof.
  induction ps as [|[c|m] ps IH]; simpl; intros H; [reflexivity | | discriminate].
  rewrite (IH H). reflexivity.
Qed.

(** X4: a text in which the pattern finds nothing is returned as it is, with an
    empty dictionary. *)
Theorem extract_plain_text (t : text) :
  re_findall span_pattern t = [] -> extract_html_tags t = (t, []).
Proof.
  intros H. rewrite extract_as_re_sub. unfold re_sub.
  rewrite sub_pieces_no_span by exact H.
  cbn [fst snd]. rewrite flatten_finditer. reflexivity.
Qed.

Lemma extract_plain_text_witness :
  re_findall span_pattern "plain text, 12 || 3 <> a|||b" = []
  /\ extract_html_tags "plain text, 12 || 3 <> a|||b"
     = ("plain text, 12 || 3 <> a|||b", []).
Proof.
  split; [reflexivity|].
  apply (extract_plain_text "plain text, 12 || 3 <> a|||b"). reflexivity.
Defined.

(** A character that the scanner leaves in place stands where the pattern
    matches nothing. *)
Lemma scan_lit_unmatched (r : regex) (c : ascii) (s : text) :
  forall skip prev,
    In (Lit c) (scan r skip prev s) ->
    exists prev' s',
      match_len r prev' (c :: s') = None \/ match_len r prev' (c :: s') = Some 0.
Proof.
  induction s as [|x s IH]; intros skip prev H; [destruct H|].
  destruct skip as [|k]; [|exact (IH _ _ H)].
  cbn [scan] in H.
  destruct (match_len r prev (x :: s)) as [[|k]|] eqn:E.
  - destruct H as [H|H]; [|exact (IH _ _ H)].
    injection H as ->. exists prev, s. right. exact E.
  - destruct H as [H|H]; [discriminate | exact (IH _ _ H)].
  - destruct H as [H|H]; [|exact (IH _ _ H)].
    injection H as ->. exists prev, s. left. exact E.
Qed.

Lemma span_matches_newline (prev : option ascii) (s : text) :
  match_len span_pattern prev (newline :: s) = Some 1.
Proof.
  unfold match_len, span_pattern.
  cbn [run one flat_map snd fst in_cls app].
  change (Ascii.eqb "<" newline) with false.
  change (Ascii.eqb newline newline) with true.
  cbn [flat_map app length]. f_equal. lia.
Qed.

Lemma span_matches_dquote (prev : option ascii) (s : text) :
  match_len span_pattern prev (dquote :: s) = Some 1.
Proof.
  unfold match_len, span_pattern.
  cbn [run one flat_map snd fst in_cls app].
  change (Ascii.eqb "<" dquote) with false.
  change (Ascii.eqb newline dquote) with false.
  change (Ascii.eqb dquote dquote) with true.
  cbn [flat_map app length]. f_equal. lia.
Qed.

Lemma find_id_in (m : text) (d : tag_dict) (id : text) :
  find_id m d = Some id -> In (id, m) d.
Proof.
  induction d as [|[k v] d IH]; simpl; [discriminate|].
  destruct (text_eqb v m) eqn:E.
  - intros H. injection H as <-. apply text_eqb_eq in E. subst v. left. reflexivity.
  - intros H. right. exact (IH H).
Qed.

Lemma digit_not_newline_or_dquote (c : ascii) :
  is_digit c = true -> c <> newline /\ c <> dquote.
Proof. intros H; split; intros ->; discriminate. Qed.

Lemma tag_id_one_line (n : nat) :
  Forall (fun c => c <> newline /\ c <> dquote) (tag_id n).
Proof.
  unfold tag_id. repeat (constructor; [split; discriminate|]).
  apply Forall_app. split.
  - eapply Forall_impl; [|apply str_of_nat_digits].
    intros c Hc. apply digit_not_newline_or_dquote. exact Hc.
  - repeat (constructor; [split; discriminate|]). constructor.
Qed.

(** X5: the masked text holds no line feed and no double quote: each of them is
    a span of its own, and no placeholder holds one. *)
Theorem masked_text_on_one_line (t : text) :
  ~ In newline (fst (extract_html_tags t))
  /\ ~ In dquote (fst (extract_html_tags t)).
Proof.
  destruct (extract_grows t) as [Hk [_ Hm]]. rewrite Hm.
  assert (H : forall c, In c (flat_map (masked_piece (snd (extract_html_tags t)))
                                (finditer span_pattern t)) ->
                        (forall prev s, match_len span_pattern prev (c :: s) = Some 1) ->
                        c = newline \/ c = dquote -> False).
  { intros c Hin Hmatch Hc.
    apply in_flat_map in Hin as [[x|m] [Hp Hx]].
    - destruct Hx as [->|[]].
      apply scan_lit_unmatched in Hp as [prev [s [E|E]]];
        rewrite Hmatch in E; discriminate.
    - cbn [masked_piece] in Hx.
      destruct (find_id m (snd (extract_html_tags t))) as [id|] eqn:Ef; [|destruct Hx].
      apply find_id_in in Ef.
      destruct (keys_from_in 1 _ id m Hk Ef) as [n [-> _]].
      pose proof (tag_id_one_line n) as Hn. rewrite Forall_forall in Hn.
      destruct (Hn c Hx) as [H1 H2]. destruct Hc; contradiction. }
  split; intros Hin.
  - apply (H newline Hin); [apply span_matches_newline|]. left. reflexivity.
  - apply (H dquote Hin); [apply span_matches_dquote|]. right. reflexivity.
Qed.

(** ** Restoring *)








(** ** The sort *)

Lemma insert_sorted_perm (x : nat * (text * text)) (l : list (nat * (text * text))) :
  Permutation (insert_sorted x l) (x :: l).
Proof.
  induction l as [|y l IH]; simpl; [apply Permutation_refl|].
  destruct (fst x <=? fst y); [apply Permutation_refl|].
  eapply perm_trans; [apply perm_skip, IH | apply perm_swap].
Qed.

Lemma sorted_by_key_perm (l : list (nat * (text * text))) :
  Permutation (sorted_by_key l) l.
Proof.
  induction l as [|x l IH]; [apply Permutation_refl|].
  unfold sorted_by_key in *. simpl.
  eapply perm_trans; [apply insert_sorted_perm | apply perm_skip, IH].
Qed.

Lemma insert_sorted_sorted (x : nat * (text * text)) (l : list (nat * (text * text))) :
  StronglySorted key_le l -> StronglySorted key_le (insert_sorted x l).
Proof.
  induction 1 as [|y l Hl IH Hy]; simpl.
  - constructor; constructor.
  - destruct (fst x <=? fst y) eqn:E.
    + apply Nat.leb_le in E. constructor; [constructor; assumption|].
      constructor; [exact E|].
      eapply Forall_impl; [|exact Hy]. unfold key_le. intros z Hz. lia.
    + apply Nat.leb_gt in E. constructor; [exact IH|].
      apply (Permutation_Forall (Permutation_sym (insert_sorted_perm x l))).
      constructor; [unfold key_le; lia | exact Hy].
Qed.

Lemma sorted_by_key_sorted (l : list (nat * (text * text))) :
  StronglySorted key_le (sorted_by_key l).
Proof.
  induction l as [|x l IH]; [constructor|].
  unfold sorted_by_key in *. simpl. apply insert_sorted_sorted, IH.
Qed.

(** Two sorted lists with the same items, no two of them under one key, are
    the same list. *)
Lemma sorted_unique (l1 : list (nat * (text * text))) :
  forall l2,
    StronglySorted key_le l1 -> StronglySorted key_le l2 ->
    Permutation l1 l2 -> NoDup (map fst l1) -> l1 = l2.
Proof.
  induction l1 as [|a l1 IH]; intros l2 H1 H2 Hp Hn.
  - apply Permutation_nil in Hp. congruence.
  - destruct l2 as [|b l2]; [apply Permutation_sym, Permutation_nil in Hp; discriminate|].
    inversion H1 as [|? ? H1' Ha]; subst. inversion H2 as [|? ? H2' Hb]; subst.
    inversion Hn as [|? ? Hna Hn']; subst.
    rewrite Forall_forall in Ha, Hb.
    assert (E : a = b).
    { assert (Hba : In b (a :: l1))
        by (apply (Permutation_in _ (Permutation_sym Hp)); left; reflexivity).
      assert (Hab : In a (b :: l2))
        by (apply (Permutation_in _ Hp); left; reflexivity).
      destruct Hba as [Hba|Hba]; [exact Hba|].
      destruct Hab as [Hab|Hab]; [symmetry; exact Hab|].
      exfalso. apply Hna.
      pose proof (Ha b Hba) as Hle1. pose proof (Hb a Hab) as Hle2.
      unfold key_le in *.
      replace (fst a) with (fst b) by lia. apply in_map. exact Hba. }
    subst b. f_equal. apply (IH l2 H1' H2'); [|exact Hn'].
    exact (Permutation_cons_inv Hp).
Qed.

Lemma keyed_items (d : tag_dict) :
  forall l, keyed d = Some l ->
            map snd l = d
            /\ map (fun kv => first_number (fst kv)) d = map Some (map fst l).
Proof.
  induction d as [|kv d IH]; simpl; intros l H.
  - injection H as <-. split; reflexivity.
  - destruct (first_number (fst kv)) as [n|]; [|discriminate].
    destruct (keyed d) as [l'|]; [|discriminate].
    injection H as <-. destruct (IH l' eq_refl) as [E1 E2].
    simpl. rewrite E1, E2. split; reflexivity.
Qed.

Lemma keyed_perm (d d' : tag_dict) :
  Permutation d d' ->
  forall l, keyed d = Some l -> exists l', keyed d' = Some l' /\ Permutation l l'.
Proof.
  induction 1 as [|kv d d' Hp IH|kv1 kv2 d|d1 d2 d3 Hp1 IH1 Hp2 IH2]; intros l H.
  - exists l. split; [exact H | apply Permutation_refl].
  - simpl in *. destruct (first_number (fst kv)) as [n|]; [|discriminate].
    destruct (keyed d) as [l0|]; [|discriminate]. injection H as <-.
    destruct (IH l0 eq_refl) as [l' [E Hl]]. rewrite E.
    exists ((n, kv) :: l'). split; [reflexivity | apply perm_skip, Hl].
  - simpl in *. destruct (first_number (fst kv2)) as [n2|]; [|discriminate].
    destruct (first_number (fst kv1)) as [n1|]; [|discriminate].
    destruct (keyed d) as [l0|]; [|discriminate]. injection H as <-.
    exists ((n1, kv1) :: (n2, kv2) :: l0). split; [reflexivity | apply perm_swap].
  - destruct (IH1 l H) as [l2 [E2 Hl2]]. destruct (IH2 l2 E2) as [l3 [E3 Hl3]].
    exists l3. split; [exact E3 | eapply perm_trans; eassumption].
Qed.

(** Sorting undoes any reordering of items with distinct numbers. *)
Lemma sorted_by_key_perm_eq (l l' : list (nat * (text * text))) :
  Permutation l l' -> NoDup (map fst l) -> sorted_by_key l = sorted_by_key l'.
Proof.
  intros Hp Hn. apply sorted_unique; try apply sorted_by_key_sorted.
  - eapply perm_trans; [apply sorted_by_key_perm|].
    eapply perm_trans; [exact Hp | apply Permutation_sym, sorted_by_key_perm].
  - apply (Permutation_NoDup (l := map fst l)); [|exact Hn].
    apply Permutation_map, Permutation_sym, sorted_by_key_perm.
Qed.

Lemma keyed_distinct (d : tag_dict) (l : list (nat * (text * text))) :
  keyed d = Some l ->
  NoDup (map (fun kv => first_number (fst kv)) d) -> NoDup (map fst l).
Proof.
  intros H Hn. apply keyed_items in H as [_ E]. rewrite E in Hn.
  exact (NoDup_map_inv _ _ Hn).
Qed.

(** X7: the text restored does not depend on the order of the dictionary, as
    long as no two keys carry the same number. *)
Theorem restore_order_independent (s : text) (d d' : tag_dict) :
  Permutation d d' ->
  NoDup (map (fun kv => first_number (fst kv)) d) ->
  restore_img_tags s d = restore_img_tags s d'.
Proof.
  intros Hp Hn. unfold restore_img_tags.
  destruct (keyed d) as [l|] eqn:E.
  - destruct (keyed_perm d d' Hp l E) as [l' [E' Hl]]. rewrite E'.
    rewrite (sorted_by_key_perm_eq l l' Hl (keyed_distinct d l E Hn)). reflexivity.
  - destruct (keyed d') as [l'|] eqn:E'; [|reflexivity].
    destruct (keyed_perm d' d (Permutation_sym Hp) l' E') as [l [E2 _]]. congruence.
Qed.

Lemma restore_order_independent_witness :
  let d := [("{{tag_1}}", "<b>"); ("{{tag_2}}", "</b>"); ("{{tag_10}}", "<i>")] in
  let d' := [("{{tag_10}}", "<i>"); ("{{tag_1}}", "<b>"); ("{{tag_2}}", "</b>")] in
  Permutation d d'
  /\ NoDup (map (fun kv => first_number (fst kv)) d)
  /\ restore_img_tags "{{tag_2}}a{{tag_10}}{{tag_1}}" d
     = restore_img_tags "{{tag_2}}a{{tag_10}}{{tag_1}}" d'.
Proof.
  assert (Hp : Permutation
                 [("{{tag_1}}", "<b>"); ("{{tag_2}}", "</b>"); ("{{tag_10}}", "<i>")]
                 [("{{tag_10}}", "<i>"); ("{{tag_1}}", "<b>"); ("{{tag_2}}", "</b>")]).
  { apply Permutation_sym.
    apply (Permutation_cons_app [("{{tag_1}}", "<b>"); ("{{tag_2}}", "</b>")] []).
    rewrite app_nil_r. apply Permutation_refl. }
  assert (Hn : NoDup (map (fun kv => first_number (fst kv))
                        [("{{tag_1}}", "<b>"); ("{{tag_2}}", "</b>"); ("{{tag_10}}", "<i>")])).
  { vm_compute. repeat constructor; simpl; intuition (try discriminate). }
  split; [exact Hp|]. split; [exact Hn|].
  exact (restore_order_independent "{{tag_2}}a{{tag_10}}{{tag_1}}" _ _ Hp Hn).
Defined.



(* ================================================================== *)
(** * More of the Chunker *)

(** ** Stripping *)

Lemma visible_app (a b : text) : visible (a ++ b) = visible a ++ visible b.
Proof. apply filter_app. Qed.

Lemma visible_drop_while (s : text) : visible (drop_while is_space s) = visible s.
Proof.
  induction s as [|c s IH]; [reflexivity|].
  cbn [drop_while]. destruct (is_space c) eqn:E; [|reflexivity].
  rewrite IH. unfold visible. simpl. rewrite E. reflexivity.
Qed.

Lemma visible_rev (s : text) : visible (rev s) = rev (visible s).
Proof.
  induction s as [|c s IH]; [reflexivity|].
  simpl rev. rewrite visible_app, IH. simpl.
  destruct (is_space c); simpl; [apply app_nil_r | reflexivity].
Qed.

Lemma visible_strip (s : text) : visible (strip s) = visible s.
Proof.
  unfold strip, rstrip, lstrip.
  rewrite visible_rev, visible_drop_while, visible_rev, rev_involutive.
  apply visible_drop_while.
Qed.

Lemma drop_while_idempotent (f : ascii -> bool) (s : text) :
  drop_while f (drop_while f s) = drop_while f s.
Proof.
  induction s as [|c s IH]; [reflexivity|].
  simpl. destruct (f c) eqn:E; [exact IH|]. simpl. rewrite E. reflexivity.
Qed.

Lemma drop_while_nil (f : ascii -> bool) (s : text) :
  drop_while f s = [] -> Forall (fun c => f c = true) s.
Proof.
  induction s as [|c s IH]; [constructor|].
  simpl. destruct (f c) eqn:E; [|discriminate].
  intros H. constructor; [exact E | exact (IH H)].
Qed.

Lemma rstrip_keeps_head (c : ascii) (s : text) :
  is_space c = false -> exists r, rstrip (c :: s) = c :: r.
Proof.
  intros Hc. unfold rstrip.
  destruct (drop_while_split is_space (rev (c :: s))) as [w [E Hw]].
  assert (E' : c :: s = rev (drop_while is_space (rev (c :: s))) ++ rev w).
  { rewrite <- rev_app_distr, <- E, rev_involutive. reflexivity. }
  destruct (rev (drop_while is_space (rev (c :: s)))) as [|x r].
  - exfalso. simpl in E'.
    assert (Hin : In c (rev w)) by (rewrite <- E'; left; reflexivity).
    apply in_rev in Hin. rewrite Forall_forall in Hw. specialize (Hw c Hin). congruence.
  - injection E' as <- _. exists r. reflexivity.
Qed.

(** Stripping a stripped text changes nothing. *)
Lemma strip_idempotent (s : text) : strip (strip s) = strip s.
Proof.
  change (strip s) with (rstrip (drop_while is_space s)).
  destruct (drop_while is_space s) as [|c a] eqn:E; [reflexivity|].
  assert (Hc : is_space c = false).
  { pose proof (drop_while_idempotent is_space s) as H. rewrite E in H.
    simpl in H. destruct (is_space c); [|reflexivity].
    exfalso. pose proof (f_equal (@length ascii) H) as Hl.
    destruct (drop_while_split is_space a) as [w [Ew _]].
    rewrite Ew in Hl at 2. simpl in Hl. rewrite length_app in Hl. lia. }
  destruct (rstrip_keeps_head c a Hc) as [r Er].
  unfold strip, lstrip. rewrite Er. cbn [drop_while]. rewrite Hc. rewrite <- Er.
  unfold rstrip. rewrite rev_involutive, drop_while_idempotent. reflexivity.
Qed.

Section SplittingMore.
Context {tiktoken : Tiktoken}.
Variables (max_tokens : Z) (model : text).

(** ** Nothing visible is lost *)

Lemma split_step_held (st : splitter) (part : text) :
  held (split_step max_tokens model st part) = held st ++ visible part.
Proof.
  unfold split_step, held. destruct part as [|c part]; [symmetry; apply app_nil_r|].
  destruct (over_threshold _ _).
  - destruct (ends_with "{{tag_1}}" (current_chunk st)) eqn:E; cbn [chunks current_chunk].
    + apply ends_with_iff in E as [a E]. rewrite E, drop_last_app.
      rewrite concat_app. cbn [concat]. rewrite app_nil_r.
      rewrite !visible_app, visible_strip, <- !app_assoc. reflexivity.
    + rewrite concat_app. cbn [concat]. rewrite app_nil_r.
      rewrite !visible_app, visible_strip. reflexivity.
  - cbn [chunks current_chunk]. rewrite !visible_app, <- app_assoc. reflexivity.
Qed.

Lemma split_loop_held (parts : list text) :
  forall st,
    held (fold_left (split_step max_tokens model) parts st)
    = held st ++ visible (concat parts).
Proof.
  induction parts as [|part parts IH]; intros st; simpl.
  - symmetry. apply app_nil_r.
  - rewrite IH, split_step_held, visible_app, <- app_assoc. reflexivity.
Qed.

Lemma flush_held (st : splitter) : visible (concat (flush st)) = held st.
Proof.
  unfold flush, held. rewrite visible_app.
  rewrite <- (visible_strip (current_chunk st)).
  destruct (strip (current_chunk st)) as [|c s].
  - cbn [visible filter]. rewrite app_nil_r. reflexivity.
  - rewrite concat_app, visible_app. cbn [concat]. rewrite app_nil_r. reflexivity.
Qed.

(** X9: the chunks, put end to end, hold the characters of the text that are
    not white space, all of them and in their order: the splitter drops and
    moves nothing but white space. *)
Theorem chunks_keep_visible_text (s : text) :
  visible (concat (split_text_into_chunks_with_tags s max_tokens model))
  = visible s.
Proof.
  unfold split_text_into_chunks_with_tags.
  rewrite flush_held, split_loop_held, concat_re_split. reflexivity.
Qed.

(** ** Every chunk is stripped *)

Lemma split_step_stripped (st : splitter) (part : text) :
  Forall (fun c => strip c = c) (chunks st) ->
  Forall (fun c => strip c = c) (chunks (split_step max_tokens model st part)).
Proof.
  intros H. unfold split_step. destruct part as [|c part]; [exact H|].
  destruct (over_threshold _ _); [|exact H].
  destruct (ends_with "{{tag_1}}" (current_chunk st)); cbn [chunks];
    (apply Forall_app; split; [exact H|]);
    (constructor; [apply strip_idempotent | constructor]).
Qed.

Lemma split_loop_stripped (parts : list text) :
  forall st,
    Forall (fun c => strip c = c) (chunks st) ->
    Forall (fun c => strip c = c)
      (chunks (fold_left (split_step max_tokens model) parts st)).
Proof.
  induction parts as [|part parts IH]; intros st H; [exact H|].
  simpl. apply IH, split_step_stripped, H.
Qed.

(** X10: no chunk begins or ends with white space: stripping a chunk changes
    nothing. *)
Theorem chunks_are_stripped (s : text) :
  Forall (fun c => strip c = c)
    (split_text_into_chunks_with_tags s max_tokens model).
Proof.
  unfold split_text_into_chunks_with_tags, flush.
  set (st := fold_left (split_step max_tokens model) (re_split tag_pattern s)
               splitter_start).
  assert (H : Forall (fun c => strip c = c) (chunks st))
    by (apply split_loop_stripped; constructor).
  destruct (strip (current_chunk st)) as [|c r] eqn:E; [exact H|].
  apply Forall_app. split; [exact H|].
  constructor; [|constructor]. rewrite <- E. apply strip_idempotent.
Qed.

(** ** A text within the threshold *)

Lemma over_threshold_mono (a b : nat) :
  a <= b -> over_threshold b max_tokens = false -> over_threshold a max_tokens = false.
Proof. unfold over_threshold. intros H Hb. apply Z.ltb_ge in Hb. apply Z.ltb_ge. lia. Qed.

Lemma split_loop_within (parts : list text) :
  forall st,
    over_threshold
      (current_chunk_length st
       + list_sum (map (fun p => count_tokens p model) parts)) max_tokens = false ->
    chunks (fold_left (split_step max_tokens model) parts st) = chunks st
    /\ current_chunk (fold_left (split_step max_tokens model) parts st)
       = current_chunk st ++ concat parts.
Proof.
  induction parts as [|part parts IH]; intros st H.
  - simpl. rewrite app_nil_r. split; reflexivity.
  - change (list_sum (map (fun p => count_tokens p model) (part :: parts)))
      with (count_tokens part model
            + list_sum (map (fun p => count_tokens p model) parts)) in H.
    cbn [fold_left concat].
    destruct part as [|c part].
    + cbn [split_step]. apply IH.
      eapply over_threshold_mono; [|exact H]. lia.
    + cbn [split_step].
      rewrite (over_threshold_mono
                 (current_chunk_length st + count_tokens (c :: part) model)
                 (current_chunk_length st
                  + (count_tokens (c :: part) model
                     + list_sum (map (fun p => count_tokens p model) parts))));
        [|lia | exact H].
      destruct (IH {| chunks := chunks st;
                      current_chunk := current_chunk st ++ c :: part;
                      current_chunk_length :=
                        current_chunk_length st + count_tokens (c :: part) model |})
        as [E1 E2].
      * cbn [current_chunk_length]. rewrite <- Nat.add_assoc. exact H.
      * rewrite E1, E2. cbn [chunks current_chunk]. rewrite <- app_assoc.
        split; reflexivity.
Qed.

(** X11: a text whose parts count together no more than the threshold comes back
    as one chunk, stripped; as no chunk at all when it is blank. *)
Theorem text_within_threshold_is_one_chunk (s : text) :
  over_threshold
    (list_sum (map (fun p => count_tokens p model) (re_split tag_pattern s)))
    max_tokens = false ->
  split_text_into_chunks_with_tags s max_tokens model
  = match strip s with
    | [] => []
    | _ :: _ => [strip s]
    end.
Proof.
  intros H. unfold split_text_into_chunks_with_tags, flush.
  destruct (split_loop_within (re_split tag_pattern s) splitter_start H) as [E1 E2].
  rewrite E1, E2, concat_re_split. reflexivity.
Qed.

End SplittingMore.

Lemma text_within_threshold_is_one_chunk_witness :
  let s := "  Bonjour {{tag_1}}le monde{{tag_2}} " in
  over_threshold
    (list_sum (map (fun p => @count_tokens one_token_per_character p "gpt-4o")
                 (re_split tag_pattern s))) 50 = false
  /\ @split_text_into_chunks_with_tags one_token_per_character s 50 "gpt-4o"
     = ["Bonjour {{tag_1}}le monde{{tag_2}}"].
Proof.
  split; [reflexivity|].
  apply (@text_within_threshold_is_one_chunk one_token_per_character 50 "gpt-4o"
           "  Bonjour {{tag_1}}le monde{{tag_2}} ").
  reflexivity.
Defined.

(* ================================================================== *)
(** * More of the BatchRequestBuilder *)

Section PackingMore.
Context {tiktoken : Tiktoken}.
Variables (system : text) (system_tokens : nat) (budget cap : Z).

(** A property of the packer that every turn of the loop keeps, over chunks
    that satisfy [Q], holds when the loop is over. *)
Lemma pack_loop_keeps (P : packer -> Prop) (Q : chunk -> Prop) :
  (forall st ch st',
      P st -> Q ch ->
      pack_step system system_tokens budget cap st ch = Returned st' -> P st') ->
  forall chs st st',
    Forall Q chs -> P st ->
    pack_loop system system_tokens budget cap chs st = Returned st' -> P st'.
Proof.
  intros Hstep chs. induction chs as [|ch chs IH]; intros st st' Hq Hp H; simpl in H.
  - injection H as <-. exact Hp.
  - destruct (pack_step system system_tokens budget cap st ch) as [st1|] eqn:E;
      [|discriminate].
    inversion Hq as [|? ? Hch Hchs]; subst.
    exact (IH st1 st' Hchs (Hstep st ch st1 Hp Hch E) H).
Qed.

(** ** The names of the files *)

Lemma files_in_order_seal (st : packer) :
  files_in_order st -> files_in_order (seal st).
Proof.
  intros [Hn Hc]. unfold files_in_order, seal. cbn [written file_count].
  rewrite !length_app. cbn [length]. rewrite Nat.add_1_r.
  split; [|rewrite Hc; reflexivity].
  rewrite map_app, seq_S, map_app. cbn [map fst].
  f_equal; [exact Hn | rewrite Hc; reflexivity].
Qed.

Lemma files_in_order_step (st st' : packer) (ch : chunk) :
  files_in_order st -> True ->
  pack_step system system_tokens budget cap st ch = Returned st' ->
  files_in_order st'.
Proof.
  intros Hst _. unfold pack_step.
  destruct (encode_chunk ch) as [toks|]; [|discriminate].
  intros H. injection H as <-.
  destruct (_ || _); [apply files_in_order_seal in Hst|]; exact Hst.
Qed.

Lemma files_in_order_finish (st : packer) :
  files_in_order st ->
  map fst (finish st) = map batch_file_name (seq 1 (length (finish st))).
Proof.
  intros Hst. unfold finish.
  destruct (current_batch_requests st) as [|r reqs] eqn:E; [exact (proj1 Hst)|].
  pose proof (files_in_order_seal st Hst) as [Hn _].
  unfold seal in Hn. cbn [written] in Hn. rewrite E in Hn.
  rewrite !length_app in *. rewrite !map_app in *. exact Hn.
Qed.

(** ** Empty files *)

Lemma only_first_empty_step (st st' : packer) (ch : chunk) :
  only_first_empty st -> True ->
  pack_step system system_tokens budget cap st ch = Returned st' ->
  only_first_empty st'.
Proof.
  intros Hst _. unfold pack_step.
  destruct (encode_chunk ch) as [toks|]; [|discriminate].
  intros H. injection H as <-. right.
  destruct (_ || _); cbn [seal written current_batch_requests].
  - split; [discriminate|].
    destruct Hst as [[Hw Hc]|[Hc Hw]].
    + rewrite Hw. constructor.
    + destruct (written st) as [|f fs]; [constructor|].
      cbn [app tl] in *. apply Forall_app. split; [exact Hw|].
      constructor; [exact Hc | constructor].
  - split; [destruct (current_batch_requests st); discriminate|].
    destruct Hst as [[Hw Hc]|[Hc Hw]]; [rewrite Hw; constructor | exact Hw].
Qed.

Lemma only_first_empty_finish (st : packer) :
  only_first_empty st -> Forall (fun f => snd f <> []) (tl (finish st)).
Proof.
  unfold finish. intros [[Hw Hc]|[Hc Hw]].
  - rewrite Hc, Hw. constructor.
  - destruct (current_batch_requests st) as [|r reqs] eqn:E; [exact Hw|].
    destruct (written st) as [|f fs]; [constructor|].
    cbn [app tl] in *. apply Forall_app. split; [exact Hw|].
    constructor; [discriminate | constructor].
Qed.

(** ** Requests that fit *)

Lemma file_cost_one (r : batch_request) :
  file_cost system_tokens [r] = request_cost system_tokens r.
Proof. unfold file_cost. simpl. lia. Qed.

Lemma snug_step (st st' : packer) (ch : chunk) :
  (1 <= cap)%Z ->
  snug system_tokens budget cap st ->
  (exists s, ch = TextChunk s /\ (Z.of_nat (chunk_cost system_tokens s) <= budget)%Z) ->
  pack_step system system_tokens budget cap st ch = Returned st' ->
  snug system_tokens budget cap st'.
Proof.
  intros Hcap [Ht [Hr [Hw Hf]]] [s [-> Hs]].
  unfold pack_step. cbn [encode_chunk]. intros H. injection H as <-.
  unfold chunk_cost in Hs.
  set (total := system_tokens + length (get_encoding "cl100k_base" s) + 100) in *.
  assert (Hcost : forall id, request_cost system_tokens (make_request system id (TextChunk s))
                             = total) by reflexivity.
  assert (Hone : forall id,
             within_limits system_tokens budget cap [make_request system id (TextChunk s)]
             = true).
  { intros id. unfold within_limits. rewrite file_cost_one, Hcost. cbn [length].
    apply andb_true_iff. split; apply Z.leb_le; lia. }
  destruct (_ || _) eqn:E.
  - unfold snug. cbn [seal written current_batch_tokens current_batch_requests
                      request_count global_request_id app length].
    split; [rewrite file_cost_one, Hcost; lia|].
    split; [reflexivity|]. split; [right; apply Hone|].
    apply Forall_app. split; [exact Hf|]. constructor; [|constructor].
    cbn [snd].
    assert (Hne : current_batch_requests st <> []).
    { intros Hnil. rewrite Hnil in Ht, Hr. unfold file_cost in Ht. cbn in Ht.
      rewrite Ht, Hr in E. apply orb_true_iff in E as [E|E].
      - apply Z.ltb_lt in E. lia.
      - apply Z.leb_le in E. cbn in E. lia. }
    split; [exact Hne|]. destruct Hw as [Hw|Hw]; [contradiction | exact Hw].
  - apply orb_false_iff in E as [E1 E2]. apply Z.ltb_ge in E1. apply Z.leb_gt in E2.
    unfold snug. cbn [written current_batch_tokens current_batch_requests request_count].
    rewrite file_cost_app, length_app, file_cost_one, Hcost. cbn [length].
    split; [lia|]. split; [lia|]. split; [|exact Hf]. right.
    unfold within_limits. rewrite file_cost_app, length_app, file_cost_one, Hcost.
    cbn [length]. destruct Hw as [Hw|Hw].
    + rewrite Hw in *. unfold file_cost in *. cbn [map list_sum length] in *.
      apply andb_true_iff. split; apply Z.leb_le; lia.
    + unfold within_limits in Hw. apply andb_true_iff in Hw as [Hw1 Hw2].
      apply Z.leb_le in Hw1, Hw2.
      apply andb_true_iff. split; apply Z.leb_le; lia.
Qed.

Lemma snug_finish (st : packer) :
  snug system_tokens budget cap st ->
  Forall (fun f => snd f <> [] /\ within_limits system_tokens budget cap (snd f) = true)
    (finish st).
Proof.
  intros [_ [_ [Hw Hf]]]. unfold finish.
  destruct (current_batch_requests st) as [|r reqs] eqn:E; [exact Hf|].
  apply Forall_app. split; [exact Hf|].
  constructor; [|constructor]. cbn [snd].
  split; [discriminate | destruct Hw as [Hw|Hw]; [discriminate | exact Hw]].
Qed.

End PackingMore.

(** The run of [file_to_jsonl] on an input that does not fit in one
    request: the loop over the chunks returns, and the files are those of
    its last state. *)
Lemma file_to_jsonl_long_run {tiktoken : Tiktoken}
  (translation_language raw_input : text)
  (max_tokens_per_batch max_tokens_per_request max_requests_per_file : Z) :
  let system := system_message translation_language in
  let system_tokens := count_tokens system "gpt-4o" in
  let raw_data := fst (extract_html_tags raw_input) in
  (max_tokens_per_request < Z.of_nat (count_tokens raw_data "gpt-4o"))%Z ->
  exists st,
    pack_loop system system_tokens max_tokens_per_batch max_requests_per_file
      (map TextChunk
         (split_text_into_chunks_with_tags raw_data
            (max_tokens_per_request - Z.of_nat system_tokens - 100) "gpt-4o"))
      packer_start = Returned st
    /\ file_to_jsonl translation_language raw_input max_tokens_per_batch
         max_tokens_per_request max_requests_per_file
       = Returned (finish st, snd (extract_html_tags raw_input)).
Proof.
  intros system system_tokens raw_data Hlong.
  unfold file_to_jsonl. subst raw_data.
  destruct (extract_html_tags raw_input) as [raw_data tags]. simpl fst in *. simpl snd.
  apply Z.ltb_lt in Hlong. rewrite Hlong.
  fold system. fold system_tokens.
  set (chs := split_text_into_chunks_with_tags raw_data _ _).
  destruct (pack_loop_returns system system_tokens max_tokens_per_batch
              max_requests_per_file chs packer_start) as [st E].
  exists st. rewrite E. split; reflexivity.
Qed.

(** X12: an input whose masked text fits in one request is never written to a
    batch file: the run ends in a [TypeError], whatever the language, the
    tokenizer and the limits. *)
Theorem input_within_request_limit_raises {tiktoken : Tiktoken}
  (translation_language raw_input : text)
  (max_tokens_per_batch max_tokens_per_request max_requests_per_file : Z) :
  (Z.of_nat (count_tokens (fst (extract_html_tags raw_input)) "gpt-4o")
   <= max_tokens_per_request)%Z ->
  file_to_jsonl translation_language raw_input max_tokens_per_batch
    max_tokens_per_request max_requests_per_file = TypeError.
Proof.
  intros H. unfold file_to_jsonl.
  destruct (extract_html_tags raw_input) as [raw_data tags]. cbn [fst] in H.
  apply Z.ltb_ge in H. rewrite H. reflexivity.
Qed.

Lemma input_within_request_limit_raises_witness :
  (Z.of_nat (@count_tokens one_token_per_character
               (fst (extract_html_tags "id;text;<p>Guten Tag</p>")) "gpt-4o")
   <= 950)%Z
  /\ @file_to_jsonl one_token_per_character "Polish" "id;text;<p>Guten Tag</p>"
       89900 950 500 = TypeError.
Proof.
  split; [vm_compute; discriminate|].
  apply (@input_within_request_limit_raises one_token_per_character).
  vm_compute. discriminate.
Defined.

(** X13: the batch files are named [batch_requests_part_1.jsonl],
    [batch_requests_part_2.jsonl], ... in the order in which they are
    written, without a gap. *)
Theorem batch_files_named_in_order {tiktoken : Tiktoken}
  (translation_language raw_input : text)
  (max_tokens_per_batch max_tokens_per_request max_requests_per_file : Z) :
  (max_tokens_per_request
   < Z.of_nat (count_tokens (fst (extract_html_tags raw_input)) "gpt-4o"))%Z ->
  exists files tags,
    file_to_jsonl translation_language raw_input max_tokens_per_batch
      max_tokens_per_request max_requests_per_file = Returned (files, tags)
    /\ map fst files = map batch_file_name (seq 1 (length files)).
Proof.
  intros H.
  destruct (file_to_jsonl_long_run translation_language raw_input
              max_tokens_per_batch max_tokens_per_request max_requests_per_file H)
    as [st [E ->]].
  do 2 eexists. split; [reflexivity|].
  apply files_in_order_finish.
  refine (pack_loop_keeps _ _ _ _ files_in_order (fun _ => True) _ _ _ _ _ _ E).
  - intros st0 ch st1 Hp Hq Hs.
    exact (files_in_order_step _ _ _ _ st0 st1 ch Hp Hq Hs).
  - apply Forall_forall. intros; exact I.
  - split; reflexivity.
Qed.

Lemma batch_files_named_in_order_witness :
  (950 < Z.of_nat (@count_tokens one_token_per_character
                     (fst (extract_html_tags long_input)) "gpt-4o"))%Z
  /\ exists files tags,
       @file_to_jsonl one_token_per_character "French" long_input 1500 950 500
       = Returned (files, tags)
       /\ map fst files = map batch_file_name (seq 1 (length files)).
Proof.
  split; [vm_compute; reflexivity|].
  apply (@batch_files_named_in_order one_token_per_character).
  vm_compute. reflexivity.
Defined.

(** X14: only the first batch file can be empty: every file written after it
    holds a request. *)
Theorem only_first_batch_file_can_be_empty {tiktoken : Tiktoken}
  (translation_language raw_input : text)
  (max_tokens_per_batch max_tokens_per_request max_requests_per_file : Z) :
  (max_tokens_per_request
   < Z.of_nat (count_tokens (fst (extract_html_tags raw_input)) "gpt-4o"))%Z ->
  exists files tags,
    file_to_jsonl translation_language raw_input max_tokens_per_batch
      max_tokens_per_request max_requests_per_file = Returned (files, tags)
    /\ Forall (fun f => snd f <> []) (tl files).
Proof.
  intros H.
  destruct (file_to_jsonl_long_run translation_language raw_input
              max_tokens_per_batch max_tokens_per_request max_requests_per_file H)
    as [st [E ->]].
  do 2 eexists. split; [reflexivity|].
  apply only_first_empty_finish.
  refine (pack_loop_keeps _ _ _ _ only_first_empty (fun _ => True) _ _ _ _ _ _ E).
  - intros st0 ch st1 Hp Hq Hs.
    exact (only_first_empty_step _ _ _ _ st0 st1 ch Hp Hq Hs).
  - apply Forall_forall. intros; exact I.
  - left. split; reflexivity.
Qed.

Lemma only_first_batch_file_can_be_empty_witness :
  (950 < Z.of_nat (@count_tokens one_token_per_character
                     (fst (extract_html_tags long_input)) "gpt-4o"))%Z
  /\ exists files tags,
       @file_to_jsonl one_token_per_character "French" long_input 100 950 500
       = Returned (files, tags)
       /\ Forall (fun f => snd f <> []) (tl files).
Proof.
  split; [vm_compute; reflexivity|].
  apply (@only_first_batch_file_can_be_empty one_token_per_character).
  vm_compute. reflexivity.
Defined.

(** X15: where every request fits the budget of a batch by itself and a file may
    hold a request at all, every batch file written holds at least one
    request and is within both limits. *)
Theorem batch_files_within_both_limits {tiktoken : Tiktoken}
  (translation_language raw_input : text)
  (max_tokens_per_batch max_tokens_per_request max_requests_per_file : Z) :
  let system_tokens := count_tokens (system_message translation_language) "gpt-4o" in
  let raw_data := fst (extract_html_tags raw_input) in
  (max_tokens_per_request < Z.of_nat (count_tokens raw_data "gpt-4o"))%Z ->
  (1 <= max_requests_per_file)%Z ->
  forallb
    (fun c => (Z.of_nat (chunk_cost system_tokens c) <=? max_tokens_per_batch)%Z)
    (split_text_into_chunks_with_tags raw_data
       (max_tokens_per_request - Z.of_nat system_tokens - 100) "gpt-4o") = true ->
  exists files tags,
    file_to_jsonl translation_language raw_input max_tokens_per_batch
      max_tokens_per_request max_requests_per_file = Returned (files, tags)
    /\ Forall
         (fun f =>
            snd f <> []
            /\ within_limits system_tokens max_tokens_per_batch
                 max_requests_per_file (snd f) = true)
         files.
Proof.
  intros system_tokens raw_data H Hcap Hfit.
  destruct (file_to_jsonl_long_run translation_language raw_input
              max_tokens_per_batch max_tokens_per_request max_requests_per_file H)
    as [st [E ->]].
  do 2 eexists. split; [reflexivity|].
  apply snug_finish.
  refine (pack_loop_keeps _ _ _ _
            (snug system_tokens max_tokens_per_batch max_requests_per_file)
            (fun ch => exists s, ch = TextChunk s
                        /\ (Z.of_nat (chunk_cost system_tokens s)
                            <= max_tokens_per_batch)%Z)
            _ _ _ _ _ _ E).
  - intros st0 ch st1 Hst Hch. apply snug_step; assumption.
  - rewrite forallb_forall in Hfit. apply Forall_forall. intros ch Hin.
    apply in_map_iff in Hin as [s [<- Hs]]. exists s. split; [reflexivity|].
    apply Z.leb_le, Hfit, Hs.
  - unfold snug, packer_start.
    cbn [current_batch_tokens current_batch_requests request_count written].
    split; [reflexivity|]. split; [reflexivity|]. split; [left; reflexivity | constructor].
Qed.

Lemma batch_files_within_both_limits_witness :
  let system_tokens :=
    @count_tokens one_token_per_character (system_message "French") "gpt-4o" in
  let raw_data := fst (extract_html_tags long_input) in
  (950 < Z.of_nat (@count_tokens one_token_per_character raw_data "gpt-4o"))%Z
  /\ (1 <= 500)%Z
  /\ forallb
       (fun c => (Z.of_nat (@chunk_cost one_token_per_character system_tokens c)
                  <=? 2000)%Z)
       (@split_text_into_chunks_with_tags one_token_per_character raw_data
          (950 - Z.of_nat system_tokens - 100) "gpt-4o") = true
  /\ exists files tags,
       @file_to_jsonl one_token_per_character "French" long_input 2000 950 500
       = Returned (files, tags)
       /\ Forall
            (fun f =>
               snd f <> []
               /\ @within_limits one_token_per_character system_tokens 2000 500 (snd f)
                  = true)
            files.
Proof.
  split; [vm_compute; reflexivity|]. split; [lia|]. split; [vm_compute; reflexivity|].
  apply (@batch_files_within_both_limits one_token_per_character "French" long_input
           2000 950 500); [vm_compute; reflexivity | lia | vm_compute; reflexivity].
Defined.

(* ================================================================== *)
(** * More of the JobOrchestrator *)

(** ** Reading a history *)

Lemma created_files_app (h1 h2 : list event) :
  created_files (h1 ++ h2) = created_files h1 ++ created_files h2.
Proof. apply flat_map_app. Qed.

Lemma accepted_jobs_app (h1 h2 : list event) :
  accepted_jobs (h1 ++ h2) = accepted_jobs h1 ++ accepted_jobs h2.
Proof. apply flat_map_app. Qed.


Lemma sleeps_app (h1 h2 : list event) : sleeps (h1 ++ h2) = sleeps h1 ++ sleeps h2.
Proof. apply flat_map_app. Qed.

Section Creating.
Context {remote : Remote}.

Lemma manage_batches_run (w : world) :
  manage_batches w
  = (listing (clock w),
     {| clock := S (clock w);
        history := history w ++ [Listed (listing (clock w))] |}).
Proof. reflexivity. Qed.

Lemma submit_run (file_id : text) (w : world) :
  submit file_id w
  = (create_batch (clock w) file_id,
     {| clock := S (clock w);
        history := history w ++ [Created file_id (create_batch (clock w) file_id)] |}).
Proof. reflexivity. Qed.

(** ** [create_all_batches]: one job for each file *)

Lemma create_loop_submits (fuel : nat) :
  forall pending ids w,
    let r := create_all_batches_loop fuel pending ids w in
    exists done rest new,
      pending = done ++ rest
      /\ created_files (history (snd r)) = created_files (history w) ++ done
      /\ accepted_jobs (history (snd r)) = accepted_jobs (history w) ++ new
      /\ match fst r with
         | Some out => rest = [] /\ out = ids ++ new
         | None => rest <> []
         end.
Proof.
  induction fuel as [|fuel IH]; intros pending ids w r; subst r.
  - destruct pending as [|f pending]; cbn [create_all_batches_loop ret fst snd].
    + exists [], [], []. rewrite !app_nil_r. repeat split; reflexivity.
    + exists [], (f :: pending), []. rewrite !app_nil_r.
      repeat split; try reflexivity. discriminate.
  - destruct pending as [|f pending]; cbn [create_all_batches_loop].
    + exists [], [], []. cbn [ret fst snd]. rewrite !app_nil_r.
      repeat split; reflexivity.
    + rewrite bind_run, manage_batches_run. cbn [fst snd].
      destruct (active_count (listing (clock w)) <? 2).
      * rewrite bind_run, submit_run. cbn [fst snd]. rewrite bind_run.
        cbn [sleep fst snd clock history].
        match goal with
        | |- context [create_all_batches_loop fuel pending ?i ?v] =>
            destruct (IH pending i v) as [done [rest [new [E1 [E2 [E3 E4]]]]]]
        end.
        exists (f :: done), rest,
          ((if truthy (create_batch (S (clock w)) f)
            then [unwrap (create_batch (S (clock w)) f)] else []) ++ new).
        split; [rewrite E1; reflexivity|].
        split.
        { rewrite E2. cbn [history]. rewrite !created_files_app.
          cbn [created_files flat_map app]. rewrite <- !app_assoc. reflexivity. }
        split.
        { rewrite E3. cbn [history]. rewrite !accepted_jobs_app.
          cbn [accepted_jobs flat_map app]. rewrite !app_nil_r, <- !app_assoc.
          reflexivity. }
        destruct (fst (create_all_batches_loop fuel pending _ _)) as [out|];
          [|exact E4].
        destruct E4 as [E4 E5]. split; [exact E4|]. rewrite E5.
        destruct (truthy (create_batch (S (clock w)) f));
          [rewrite <- app_assoc|]; reflexivity.
      * rewrite bind_run. cbn [sleep fst snd clock history].
        match goal with
        | |- context [create_all_batches_loop fuel (f :: pending) ?i ?v] =>
            destruct (IH (f :: pending) i v) as [done [rest [new [E1 [E2 [E3 E4]]]]]]
        end.
        exists done, rest, new.
        split; [exact E1|]. split.
        { rewrite E2. cbn [history]. rewrite !created_files_app.
          cbn [created_files flat_map app]. rewrite !app_nil_r. reflexivity. }
        split; [|exact E4].
        rewrite E3. cbn [history]. rewrite !accepted_jobs_app.
        cbn [accepted_jobs flat_map app]. rewrite !app_nil_r. reflexivity.
Qed.

Lemma create_loop_returns (pending : list text) :
  (forall t, (active_count (listing t) <? 2) = true) ->
  forall ids w,
    fst (create_all_batches_loop (length pending) pending ids w) <> None.
Proof.
  intros Hidle. induction pending as [|f pending IH]; intros ids w.
  - discriminate.
  - cbn [length create_all_batches_loop].
    rewrite bind_run, manage_batches_run. cbn [fst snd]. rewrite Hidle.
    rewrite bind_run, submit_run. cbn [fst snd]. rewrite bind_run. apply IH.
Qed.

Lemma create_loop_starves (fuel : nat) :
  (forall t, (active_count (listing t) <? 2) = false) ->
  forall f pending ids w,
    fst (create_all_batches_loop fuel (f :: pending) ids w) = None
    /\ created_files (history (snd (create_all_batches_loop fuel (f :: pending) ids w)))
       = created_files (history w).
Proof.
  intros Hbusy. induction fuel as [|fuel IH]; intros f pending ids w.
  - split; reflexivity.
  - cbn [create_all_batches_loop].
    rewrite bind_run, manage_batches_run. cbn [fst snd]. rewrite Hbusy.
    rewrite bind_run. cbn [sleep fst snd clock history].
    match goal with
    | |- context [create_all_batches_loop fuel (f :: pending) ?i ?v] =>
        destruct (IH f pending i v) as [E1 E2]
    end.
    split; [exact E1|]. rewrite E2. cbn [history].
    rewrite <- app_assoc, created_files_app. cbn. apply app_nil_r.
Qed.

End Creating.

(** X16: every job that [create_all_batches] creates directly follows a listing
    that reported fewer than two active jobs, and no listing lets in more
    than one job, whatever the service answers. *)
Theorem create_all_batches_one_job_per_listing {remote : Remote}
  (fuel : nat) (file_ids : list text) :
  admission (history (snd (create_all_batches fuel file_ids world_start))) <> None.
Proof.
  unfold create_all_batches.
  apply create_all_batches_admits_below_two. discriminate.
Qed.


(** X17: [create_all_batches] asks for a job for the files in their order, once
    each: at any moment the files asked for are the first of the list, and
    when it returns it has asked for every file and returns the ids of the
    jobs that the service accepted, in that order.  A file whose job was
    refused is not asked for again. *)
Theorem create_all_batches_asks_once_per_file {remote : Remote}
  (fuel : nat) (file_ids : list text) :
  let r := create_all_batches fuel file_ids world_start in
  exists rest,
    file_ids = created_files (history (snd r)) ++ rest
    /\ match fst r with
       | Some batch_ids => rest = [] /\ batch_ids = accepted_jobs (history (snd r))
       | None => rest <> []
       end.
Proof.
  intros r. subst r. unfold create_all_batches.
  destruct (create_loop_submits fuel file_ids [] world_start)
    as [done [rest [new [E1 [E2 [E3 E4]]]]]].
  cbn [world_start history created_files accepted_jobs flat_map app] in E2, E3.
  exists rest. rewrite E2, E3. split; [exact E1 | exact E4].
Qed.

(** X18: on a service that never lists two active jobs, [create_all_batches]
    returns after one turn for each file. *)
Theorem create_all_batches_returns {remote : Remote} (file_ids : list text) (w : world) :
  (forall t, (active_count (listing t) <? 2) = true) ->
  fst (create_all_batches (length file_ids) file_ids w) <> None.
Proof. intros H. apply create_loop_returns. exact H. Qed.

Lemma create_all_batches_returns_witness :
  fst (@create_all_batches three_quota_failures 2 ["file_1"; "file_2"] world_start)
  <> None.
Proof.
  apply (@create_all_batches_returns three_quota_failures ["file_1"; "file_2"]).
  intros t. reflexivity.
Defined.

(** X19: while the service lists two or more active jobs, of this run or of any
    other, [create_all_batches] creates nothing and does not return. *)
Theorem create_all_batches_waits_for_a_free_slot {remote : Remote}
  (fuel : nat) (file_id : text) (file_ids : list text) :
  (forall t, (active_count (listing t) <? 2) = false) ->
  let r := create_all_batches fuel (file_id :: file_ids) world_start in
  fst r = None /\ created_files (history (snd r)) = [].
Proof.
  intros H r. subst r. unfold create_all_batches.
  exact (create_loop_starves fuel H file_id file_ids [] world_start).
Qed.

Lemma create_all_batches_waits_for_a_free_slot_witness :
  let r := @create_all_batches two_jobs_in_progress 7 ["file_1"; "file_2"] world_start in
  fst r = None /\ created_files (history (snd r)) = [].
Proof.
  apply (@create_all_batches_waits_for_a_free_slot two_jobs_in_progress 7
           "file_1" ["file_2"]).
  intros t. reflexivity.
Defined.


Section MonitoringMore.
Context {remote : Remote}.
Variable output_dir : text.

(** ** One job *)

Lemma poll_one_run (st : monitor) (batch_id : text) (w : world) :
  poll_one output_dir st batch_id w
  = let answer := check_batch_status (clock w) batch_id in
    let h1 := history w ++ [Polled batch_id answer] in
    let w1 := {| clock := S (clock w); history := h1 |} in
    match answer with
    | None => (st, w1)
    | Some bs =>
        if text_eqb (status bs) "completed" then
          ({| batch_ids := remove_first batch_id (batch_ids st);
              retry_batches := retry_batches st |},
           if truthy (output_file_id bs)
           then {| clock := S (S (clock w));
                   history :=
                     h1 ++ [Downloaded (unwrap (output_file_id bs))
                              (output_dir ++ "output_" ++ batch_id ++ ".jsonl")] |}
           else w1)
        else if text_eqb (status bs) "failed" then (on_failed batch_id bs st, w1)
        else if is_active (status bs)
             then (st, {| clock := S (clock w); history := h1 ++ [Slept 5] |})
             else (st, w1)
    end.
Proof.
  unfold poll_one. rewrite bind_run. unfold poll_status, call. cbn [fst snd].
  destruct (check_batch_status (clock w) batch_id) as [bs|]; [|reflexivity].
  destruct (text_eqb (status bs) "completed").
  - rewrite bind_run. destruct (truthy (output_file_id bs)); reflexivity.
  - destruct (text_eqb (status bs) "failed"); [reflexivity|].
    destruct (is_active (status bs)); reflexivity.
Qed.

(** ** Jobs that do not finish *)

Lemma poll_all_unfinished (ok : event -> bool) (snapshot : list text) :
  (forall id a, ok (Polled id a) = true) ->
  (forall t id, unfinished (check_batch_status t id) = true) ->
  (forall t id, abandoned (check_batch_status t id) = true \/ ok (Slept 5) = true) ->
  forall st w,
    fst (poll_all output_dir snapshot st w) = st
    /\ exists new,
         history (snd (poll_all output_dir snapshot st w)) = history w ++ new
         /\ forallb ok new = true.
Proof.
  intros Hpoll Hun Hsleep.
  induction snapshot as [|batch_id rest IH]; intros st w.
  - split; [reflexivity|]. exists []. rewrite app_nil_r. split; reflexivity.
  - cbn [poll_all]. rewrite bind_run, poll_one_run.
    specialize (Hun (clock w) batch_id). specialize (Hsleep (clock w) batch_id).
    destruct (check_batch_status (clock w) batch_id) as [bs|]; cbn zeta.
    + cbn [unfinished abandoned] in Hun, Hsleep.
      apply andb_true_iff in Hun as [H1 H2].
      apply negb_true_iff in H1, H2. rewrite H1, H2.
      destruct (is_active (status bs)) eqn:Ea; cbn [fst snd].
      * destruct Hsleep as [Hs|Hs];
          [rewrite andb_false_r in Hs; discriminate|].
        match goal with
        | |- context [poll_all output_dir rest st ?v] =>
            destruct (IH st v) as [E1 [new [E2 E3]]]
        end.
        split; [exact E1|]. rewrite E2. cbn [history].
        exists ([Polled batch_id (Some bs); Slept 5] ++ new).
        rewrite <- !app_assoc. split; [reflexivity|].
        cbn [app forallb]. rewrite Hpoll, Hs, E3. reflexivity.
      * match goal with
        | |- context [poll_all output_dir rest st ?v] =>
            destruct (IH st v) as [E1 [new [E2 E3]]]
        end.
        split; [exact E1|]. rewrite E2. cbn [history].
        exists ([Polled batch_id (Some bs)] ++ new).
        rewrite <- !app_assoc. split; [reflexivity|].
        cbn [app forallb]. rewrite Hpoll, E3. reflexivity.
    + cbn [fst snd].
      match goal with
      | |- context [poll_all output_dir rest st ?v] =>
          destruct (IH st v) as [E1 [new [E2 E3]]]
      end.
      split; [exact E1|]. rewrite E2. cbn [history].
      exists ([Polled batch_id None] ++ new).
      rewrite <- !app_assoc. split; [reflexivity|].
      cbn [app forallb]. rewrite Hpoll, E3. reflexivity.
Qed.

Lemma monitor_loop_unfinished (ok : event -> bool) (fuel : nat) :
  (forall id a, ok (Polled id a) = true) ->
  (forall t id, unfinished (check_batch_status t id) = true) ->
  (forall t id, abandoned (check_batch_status t id) = true \/ ok (Slept 5) = true) ->
  forall ids w,
    let st := {| batch_ids := ids; retry_batches := [] |} in
    fst (monitor_loop fuel output_dir st w) = st
    /\ exists new,
         history (snd (monitor_loop fuel output_dir st w)) = history w ++ new
         /\ forallb ok new = true.
Proof.
  intros Hpoll Hun Hsleep.
  induction fuel as [|fuel IH]; intros ids w st.
  - assert (E : monitor_loop 0 output_dir st w = (st, w))
      by (subst st; destruct ids; reflexivity).
    rewrite E. split; [reflexivity|]. exists []. rewrite app_nil_r. split; reflexivity.
  - destruct ids as [|id ids].
    + subst st. cbn [monitor_loop batch_ids retry_batches ret fst snd].
      split; [reflexivity|]. exists []. rewrite app_nil_r. split; reflexivity.
    + assert (E : monitor_loop (S fuel) output_dir st w
                  = monitor_loop fuel output_dir
                      (fst (monitor_round output_dir st w))
                      (snd (monitor_round output_dir st w)))
        by (subst st; cbn [monitor_loop batch_ids retry_batches]; apply bind_run).
      rewrite E. clear E.
      destruct (poll_all_unfinished ok (batch_ids st) Hpoll Hun Hsleep st w)
        as [E1 [new [E2 E3]]].
      assert (Er : monitor_round output_dir st w
                   = (st, snd (poll_all output_dir (batch_ids st) st w))).
      { unfold monitor_round. rewrite bind_run, E1. subst st. reflexivity. }
      rewrite Er. cbn [fst snd].
      destruct (IH (id :: ids) (snd (poll_all output_dir (batch_ids st) st w)))
        as [F1 [new' [F2 F3]]].
      fold st in F1, F2. split; [exact F1|].
      exists (new ++ new'). rewrite F2, E2, <- app_assoc. split; [reflexivity|].
      rewrite forallb_app, E3, F3. reflexivity.
Qed.

End MonitoringMore.




(** X21: the monitor never gives up on a job: as long as the service reports
    the jobs as neither completed nor failed, or does not answer, the
    monitor keeps every one of them, whatever the number of turns, and does
    nothing but ask and sleep. *)
Theorem unfinished_jobs_are_polled_forever {remote : Remote}
  (fuel : nat) (batch_ids0 : list text) (output_dir : text) :
  (forall t id, unfinished (check_batch_status t id) = true) ->
  let r := monitor_and_download_results fuel batch_ids0 output_dir world_start in
  fst r = {| batch_ids := batch_ids0; retry_batches := [] |}
  /\ forallb waiting (history (snd r)) = true.
Proof.
  intros H r. subst r. unfold monitor_and_download_results.
  destruct (monitor_loop_unfinished output_dir waiting fuel
              (fun _ _ => eq_refl) H (fun _ _ => or_intror eq_refl)
              batch_ids0 world_start) as [E1 [new [E2 E3]]].
  split; [exact E1|]. rewrite E2. exact E3.
Qed.

Lemma unfinished_jobs_are_polled_forever_witness :
  let r := @monitor_and_download_results always_in_progress 3
             ["batch_1"; "batch_2"] "output_jsonl/" world_start in
  fst r = {| batch_ids := ["batch_1"; "batch_2"]; retry_batches := [] |}
  /\ forallb waiting (history (snd r)) = true.
Proof.
  apply (@unfinished_jobs_are_polled_forever always_in_progress 3
           ["batch_1"; "batch_2"] "output_jsonl/").
  intros t id. reflexivity.
Defined.


(** X22: a job whose status is none of those the monitor knows, as an expired or
    a cancelled job, or for which the service does not answer, is kept and
    asked for again at once: the monitor does nothing but ask, without a
    pause. *)
Theorem abandoned_jobs_are_polled_without_pause {remote : Remote}
  (fuel : nat) (batch_ids0 : list text) (output_dir : text) :
  (forall t id, abandoned (check_batch_status t id) = true) ->
  let r := monitor_and_download_results fuel batch_ids0 output_dir world_start in
  fst r = {| batch_ids := batch_ids0; retry_batches := [] |}
  /\ forallb polling (history (snd r)) = true.
Proof.
  intros H r. subst r. unfold monitor_and_download_results.
  assert (Hun : forall t id, unfinished (check_batch_status t id) = true).
  { intros t id. specialize (H t id).
    destruct (check_batch_status t id) as [bs|]; [|reflexivity].
    cbn [abandoned unfinished] in *. apply andb_true_iff in H as [H _]. exact H. }
  destruct (monitor_loop_unfinished output_dir polling fuel
              (fun _ _ => eq_refl) Hun (fun t id => or_introl (H t id))
              batch_ids0 world_start) as [E1 [new [E2 E3]]].
  split; [exact E1|]. rewrite E2. exact E3.
Qed.

Lemma abandoned_jobs_are_polled_without_pause_witness :
  let r := @monitor_and_download_results always_expired 4
             ["batch_1"; "batch_2"] "output_jsonl/" world_start in
  fst r = {| batch_ids := ["batch_1"; "batch_2"]; retry_batches := [] |}
  /\ forallb polling (history (snd r)) = true.
Proof.
  apply (@abandoned_jobs_are_polled_without_pause always_expired 4
           ["batch_1"; "batch_2"] "output_jsonl/").
  intros t id. reflexivity.
Defined.

Section MonitoringDone.
Context {remote : Remote}.
Variable output_dir : text.

(** ** Jobs that are completed *)

Lemma remove_first_head (x : text) (l : list text) : remove_first x (x :: l) = l.
Proof. simpl. rewrite text_eqb_refl. reflexivity. Qed.


(** ** The drain *)

Lemma resubmit_accepted (snapshot : list text) :
  (forall t f, truthy (create_batch t f) = true) ->
  forall ids w,
    let r := resubmit snapshot {| batch_ids := ids; retry_batches := snapshot |} w in
    retry_batches (fst r) = []
    /\ created_files (history (snd r)) = created_files (history w) ++ snapshot.
Proof.
  intros Hok. induction snapshot as [|f rest IH]; intros ids w r; subst r.
  - cbn [resubmit ret fst snd retry_batches]. rewrite app_nil_r. split; reflexivity.
  - cbn [resubmit]. rewrite bind_run, submit_run. cbn [fst snd].
    rewrite Hok. cbn [batch_ids retry_batches]. rewrite remove_first_head.
    match goal with
    | |- context [resubmit rest {| batch_ids := ?i; retry_batches := rest |} ?v] =>
        destruct (IH i v) as [E1 E2]
    end.
    split; [exact E1|]. rewrite E2. cbn [history]. rewrite created_files_app.
    cbn [created_files flat_map app]. rewrite <- app_assoc. reflexivity.
Qed.

Lemma resubmit_refused (snapshot : list text) :
  (forall t f, truthy (create_batch t f) = false) ->
  forall st w,
    fst (resubmit snapshot st w) = st
    /\ sleeps (history (snd (resubmit snapshot st w))) = sleeps (history w)
    /\ created_files (history (snd (resubmit snapshot st w)))
       = created_files (history w) ++ snapshot.
Proof.
  intros Hno. induction snapshot as [|f rest IH]; intros st w.
  - cbn [resubmit ret fst snd]. rewrite app_nil_r. repeat split; reflexivity.
  - cbn [resubmit]. rewrite bind_run, submit_run. cbn [fst snd]. rewrite Hno.
    match goal with
    | |- context [resubmit rest st ?v] => destruct (IH st v) as [E1 [E2 E3]]
    end.
    split; [exact E1|]. split.
    + rewrite E2. cbn [history]. rewrite sleeps_app. cbn. apply app_nil_r.
    + rewrite E3. cbn [history]. rewrite created_files_app.
      cbn [created_files flat_map app]. rewrite <- app_assoc. reflexivity.
Qed.

Lemma monitor_loop_refused (fuel : nat) :
  (forall t f, truthy (create_batch t f) = false) ->
  (forall t, (active_count (listing t) =? 0) = true) ->
  forall f queue w,
    let st := {| batch_ids := []; retry_batches := f :: queue |} in
    fst (monitor_loop fuel output_dir st w) = st
    /\ sleeps (history (snd (monitor_loop fuel output_dir st w))) = sleeps (history w)
    /\ created_files (history (snd (monitor_loop fuel output_dir st w)))
       = created_files (history w) ++ concat (repeat (f :: queue) fuel).
Proof.
  intros Hno Hidle. induction fuel as [|fuel IH]; intros f queue w st; subst st.
  - cbn [monitor_loop batch_ids retry_batches ret fst snd repeat concat].
    rewrite app_nil_r. repeat split; reflexivity.
  - cbn [monitor_loop batch_ids retry_batches]. rewrite bind_run.
    assert (Er : monitor_round output_dir
                   {| batch_ids := []; retry_batches := f :: queue |} w
                 = resubmit (f :: queue)
                     {| batch_ids := []; retry_batches := f :: queue |}
                     (snd (manage_batches w))).
    { unfold monitor_round. cbn [batch_ids poll_all]. rewrite bind_run.
      cbn [ret fst snd batch_ids retry_batches].
      rewrite bind_run, manage_batches_run. cbn [fst snd]. rewrite Hidle. reflexivity. }
    rewrite Er.
    destruct (resubmit_refused (f :: queue) Hno
                {| batch_ids := []; retry_batches := f :: queue |}
                (snd (manage_batches w))) as [E1 [E2 E3]].
    rewrite E1.
    destruct (IH f queue
                (snd (resubmit (f :: queue)
                        {| batch_ids := []; retry_batches := f :: queue |}
                        (snd (manage_batches w))))) as [F1 [F2 F3]].
    split; [exact F1|]. split.
    + rewrite F2, E2, manage_batches_run. cbn [snd history].
      rewrite sleeps_app. cbn. apply app_nil_r.
    + rewrite F3, E3, manage_batches_run. cbn [snd history].
      rewrite created_files_app. cbn [created_files flat_map app repeat concat].
      rewrite app_nil_r, <- app_assoc. reflexivity.
Qed.

End MonitoringDone.



(** X24: on a service that accepts every job, a drain empties the retry queue
    and asks for one job for each of its files, in the order of the queue. *)
Theorem accepted_drain_empties_queue {remote : Remote} (st : monitor) (w : world) :
  (forall t f, truthy (create_batch t f) = true) ->
  let r := resubmit (retry_batches st) st w in
  retry_batches (fst r) = []
  /\ created_files (history (snd r)) = created_files (history w) ++ retry_batches st.
Proof.
  intros H r. subst r. destruct st as [ids queue]. cbn [retry_batches].
  exact (resubmit_accepted queue H ids w).
Qed.

Lemma accepted_drain_empties_queue_witness :
  let st := {| batch_ids := []; retry_batches := ["file_2"; "file_1"; "file_2"] |} in
  let r := @resubmit three_quota_failures (retry_batches st) st world_start in
  retry_batches (fst r) = []
  /\ created_files (history (snd r)) = ["file_2"; "file_1"; "file_2"].
Proof.
  apply (@accepted_drain_empties_queue three_quota_failures
           {| batch_ids := []; retry_batches := ["file_2"; "file_1"; "file_2"] |}
           world_start).
  intros t f. reflexivity.
Defined.

(** X25: while the service is idle and refuses every job, the monitor asks again
    for a job for every file of the retry queue on every turn, keeps the
    queue as it is, and never sleeps. *)
Theorem refused_retries_are_repeated_without_pause {remote : Remote}
  (fuel : nat) (output_dir : text) (file_id : text) (queue : list text) (w : world) :
  (forall t f, truthy (create_batch t f) = false) ->
  (forall t, (active_count (listing t) =? 0) = true) ->
  let st := {| batch_ids := []; retry_batches := file_id :: queue |} in
  let r := monitor_loop fuel output_dir st w in
  fst r = st
  /\ sleeps (history (snd r)) = sleeps (history w)
  /\ created_files (history (snd r))
     = created_files (history w) ++ concat (repeat (file_id :: queue) fuel).
Proof.
  intros Hno Hidle st r. subst st r.
  exact (monitor_loop_refused output_dir fuel Hno Hidle file_id queue w).
Qed.

Lemma refused_retries_are_repeated_without_pause_witness :
  let st := {| batch_ids := []; retry_batches := ["file_1"; "file_2"] |} in
  let r := @monitor_loop refusing 3 "output_jsonl/" st world_start in
  fst r = st
  /\ sleeps (history (snd r)) = []
  /\ created_files (history (snd r))
     = ["file_1"; "file_2"; "file_1"; "file_2"; "file_1"; "file_2"].
Proof.
  apply (@refused_retries_are_repeated_without_pause refusing 3 "output_jsonl/"
           "file_1" ["file_2"] world_start); intros; reflexivity.
Defined.

(* ================================================================== *)
(** * Uploads and the Reassembler *)

(** ** The order of the names *)

Lemma code_inj (x y : ascii) : code x = code y -> x = y.
Proof.
  unfold code. intros H.
  rewrite <- (ascii_nat_embedding x), <- (ascii_nat_embedding y), H. reflexivity.
Qed.

Lemma text_leb_total (a : text) : forall b, text_leb a b = true \/ text_leb b a = true.
Proof.
  induction a as [|x a IH]; intros [|y b]; simpl; auto.
  destruct (code x <? code y) eqn:E1; [left; reflexivity|].
  destruct (code y <? code x) eqn:E2; [right; reflexivity|].
  apply IH.
Qed.

Lemma text_leb_antisym (a : text) :
  forall b, text_leb a b = true -> text_leb b a = true -> a = b.
Proof.
  induction a as [|x a IH]; intros [|y b]; simpl; try discriminate; [reflexivity|].
  destruct (code x <? code y) eqn:E1; destruct (code y <? code x) eqn:E2;
    try discriminate.
  - apply Nat.ltb_lt in E1, E2. lia.
  - intros H1 H2. apply Nat.ltb_ge in E1, E2.
    rewrite (code_inj x y) by lia. f_equal. apply IH; assumption.
Qed.

Lemma text_leb_trans (a : text) :
  forall b c, text_leb a b = true -> text_leb b c = true -> text_leb a c = true.
Proof.
  induction a as [|x a IH]; intros [|y b] [|z c]; simpl; try discriminate;
    try reflexivity.
  intros H1 H2.
  destruct (code x <? code y) eqn:E1.
  - apply Nat.ltb_lt in E1.
    destruct (code y <? code z) eqn:E2.
    + apply Nat.ltb_lt in E2.
      replace (code x <? code z) with true by (symmetry; apply Nat.ltb_lt; lia).
      reflexivity.
    + destruct (code z <? code y) eqn:E3; [discriminate|].
      apply Nat.ltb_ge in E2, E3.
      replace (code x <? code z) with true by (symmetry; apply Nat.ltb_lt; lia).
      reflexivity.
  - destruct (code y <? code x) eqn:E4; [discriminate|].
    apply Nat.ltb_ge in E1, E4.
    destruct (code y <? code z) eqn:E2.
    + apply Nat.ltb_lt in E2.
      replace (code x <? code z) with true by (symmetry; apply Nat.ltb_lt; lia).
      reflexivity.
    + destruct (code z <? code y) eqn:E3; [discriminate|].
      apply Nat.ltb_ge in E2, E3.
      replace (code x <? code z) with false by (symmetry; apply Nat.ltb_ge; lia).
      replace (code z <? code x) with false by (symmetry; apply Nat.ltb_ge; lia).
      exact (IH b c H1 H2).
Qed.

Section SortedByName.
Context {A : Type}.

Lemma insert_by_name_perm (x : text * A) (l : list (text * A)) :
  Permutation (insert_by_name x l) (x :: l).
Proof.
  induction l as [|y l IH]; simpl; [apply Permutation_refl|].
  destruct (text_leb (fst x) (fst y)); [apply Permutation_refl|].
  eapply perm_trans; [apply perm_skip, IH | apply perm_swap].
Qed.

Lemma sorted_by_name_perm (l : list (text * A)) : Permutation (sorted_by_name l) l.
Proof.
  induction l as [|x l IH]; [apply Permutation_refl|].
  unfold sorted_by_name in *. simpl.
  eapply perm_trans; [apply insert_by_name_perm | apply perm_skip, IH].
Qed.

Lemma insert_by_name_sorted (x : text * A) (l : list (text * A)) :
  StronglySorted name_le l -> StronglySorted name_le (insert_by_name x l).
Proof.
  induction 1 as [|y l Hl IH Hy]; simpl.
  - constructor; constructor.
  - destruct (text_leb (fst x) (fst y)) eqn:E.
    + constructor; [constructor; assumption|].
      constructor; [exact E|].
      eapply Forall_impl; [|exact Hy]. unfold name_le. intros z Hz.
      exact (text_leb_trans _ _ _ E Hz).
    + constructor; [exact IH|].
      apply (Permutation_Forall (Permutation_sym (insert_by_name_perm x l))).
      constructor; [|exact Hy]. unfold name_le.
      destruct (text_leb_total (fst x) (fst y)) as [H|H]; [congruence | exact H].
Qed.

Lemma sorted_by_name_sorted (l : list (text * A)) :
  StronglySorted name_le (sorted_by_name l).
Proof.
  induction l as [|x l IH]; [constructor|].
  unfold sorted_by_name in *. simpl. apply insert_by_name_sorted, IH.
Qed.

Lemma sorted_names_unique (l1 : list (text * A)) :
  forall l2,
    StronglySorted name_le l1 -> StronglySorted name_le l2 ->
    Permutation l1 l2 -> NoDup (map fst l1) -> l1 = l2.
Proof.
  induction l1 as [|a l1 IH]; intros l2 H1 H2 Hp Hn.
  - apply Permutation_nil in Hp. congruence.
  - destruct l2 as [|b l2]; [apply Permutation_sym, Permutation_nil in Hp; discriminate|].
    inversion H1 as [|? ? H1' Ha]; subst. inversion H2 as [|? ? H2' Hb]; subst.
    inversion Hn as [|? ? Hna Hn']; subst.
    rewrite Forall_forall in Ha, Hb.
    assert (E : a = b).
    { assert (Hba : In b (a :: l1))
        by (apply (Permutation_in _ (Permutation_sym Hp)); left; reflexivity).
      assert (Hab : In a (b :: l2))
        by (apply (Permutation_in _ Hp); left; reflexivity).
      destruct Hba as [Hba|Hba]; [exact Hba|].
      destruct Hab as [Hab|Hab]; [symmetry; exact Hab|].
      exfalso. apply Hna.
      rewrite (text_leb_antisym _ _ (Ha b Hba) (Hb a Hab)).
      apply in_map. exact Hba. }
    subst b. f_equal. apply (IH l2 H1' H2'); [|exact Hn'].
    exact (Permutation_cons_inv Hp).
Qed.

(** Sorting undoes any reordering of entries with distinct names. *)
Lemma sorted_by_name_perm_eq (l l' : list (text * A)) :
  Permutation l l' -> NoDup (map fst l) -> sorted_by_name l = sorted_by_name l'.
Proof.
  intros Hp Hn. apply sorted_names_unique; try apply sorted_by_name_sorted.
  - eapply perm_trans; [apply sorted_by_name_perm|].
    eapply perm_trans; [exact Hp | apply Permutation_sym, sorted_by_name_perm].
  - apply (Permutation_NoDup (l := map fst l)); [|exact Hn].
    apply Permutation_map, Permutation_sym, sorted_by_name_perm.
Qed.

End SortedByName.


Lemma sorted_names_perm_eq (names names' : list text) :
  Permutation names names' -> NoDup names -> sorted_names names = sorted_names names'.
Proof.
  intros Hp Hn. unfold sorted_names. f_equal. apply sorted_by_name_perm_eq.
  - apply Permutation_map. exact Hp.
  - rewrite map_map. cbn [fst]. rewrite map_id. exact Hn.
Qed.



(** ** [upload_all_files] *)






(** ** [merge_jsonl_files] *)

Lemma merge_choices_no_answer (img_dict : tag_dict) (id : option text)
  (cs : list choice) :
  forallb (fun c => negb (is_assistant c)) cs = true ->
  merge_choices img_dict id cs = Some [].
Proof.
  induction cs as [|c cs IH]; [reflexivity|].
  cbn [forallb merge_choices]. intros H. apply andb_true_iff in H as [H1 H2].
  apply negb_true_iff in H1. rewrite H1. exact (IH H2).
Qed.

Lemma merge_lines_no_answer (img_dict : tag_dict) (ls : list answer_line) :
  forallb no_answer ls = true -> merge_lines img_dict ls = Some [].
Proof.
  induction ls as [|l ls IH]; [reflexivity|].
  cbn [forallb merge_lines]. intros H. apply andb_true_iff in H as [H1 H2].
  rewrite (merge_choices_no_answer _ _ _ H1), (IH H2). reflexivity.
Qed.

Lemma merge_files_insert (img_dict : tag_dict) (x : text * list answer_line)
  (files : list (text * list answer_line)) :
  merge_lines img_dict (snd x) = Some [] ->
  merge_files img_dict (insert_by_name x files) = merge_files img_dict files.
Proof.
  intros Hx.
  assert (H0 : (if ends_with ".jsonl" (fst x) then merge_lines img_dict (snd x)
                else Some []) = Some [])
    by (destruct (ends_with ".jsonl" (fst x)); [exact Hx | reflexivity]).
  induction files as [|y files IH].
  - cbn [insert_by_name merge_files]. rewrite H0. reflexivity.
  - cbn [insert_by_name]. destruct (text_leb (fst x) (fst y)).
    + cbn [merge_files]. rewrite H0. cbn [merge_files] in *.
      destruct (if ends_with ".jsonl" (fst y) then merge_lines img_dict (snd y)
                else Some []) as [a|]; [|reflexivity].
      destruct (merge_files img_dict files) as [b|]; reflexivity.
    + cbn [merge_files]. rewrite IH. reflexivity.
Qed.

(** X27: a file that holds no answer of the assistant, as the batch files of
    the requests, which stay in the same directory, adds nothing to the
    rows and nothing to the output. *)
Theorem request_files_are_ignored (jsonl_dir : directory) (img_dict : tag_dict)
  (name : text) (lines : list answer_line) :
  forallb no_answer lines = true ->
  merge_jsonl_files ((name, lines) :: jsonl_dir) img_dict
  = merge_jsonl_files jsonl_dir img_dict
  /\ jsonl_to_csv_manual ((name, lines) :: jsonl_dir) img_dict
     = jsonl_to_csv_manual jsonl_dir img_dict.
Proof.
  intros H.
  assert (E : merge_jsonl_files ((name, lines) :: jsonl_dir) img_dict
              = merge_jsonl_files jsonl_dir img_dict).
  { unfold merge_jsonl_files, sorted_by_name. cbn [fold_right].
    apply merge_files_insert. cbn [snd]. apply merge_lines_no_answer, H. }
  split; [exact E|]. unfold jsonl_to_csv_manual. rewrite E. reflexivity.
Qed.

Lemma request_files_are_ignored_witness :
  let lines := [request_line "request-1"; request_line "request-2"] in
  forallb no_answer lines = true
  /\ jsonl_to_csv_manual (("batch_requests_part_1.jsonl", lines) :: answers_in_one_file)
       [("{{tag_1}}", "<br>")]
     = jsonl_to_csv_manual answers_in_one_file [("{{tag_1}}", "<br>")].
Proof.
  split; [reflexivity|].
  apply (request_files_are_ignored answers_in_one_file [("{{tag_1}}", "<br>")]
           "batch_requests_part_1.jsonl"
           [request_line "request-1"; request_line "request-2"]).
  reflexivity.
Defined.

(** X28: the rows merged, and so the output, do not depend on the order in which
    the directory is listed. *)
Theorem merge_independent_of_listing_order (jsonl_dir jsonl_dir' : directory)
  (img_dict : tag_dict) :
  Permutation jsonl_dir jsonl_dir' -> NoDup (map fst jsonl_dir) ->
  merge_jsonl_files jsonl_dir img_dict = merge_jsonl_files jsonl_dir' img_dict
  /\ jsonl_to_csv_manual jsonl_dir img_dict = jsonl_to_csv_manual jsonl_dir' img_dict.
Proof.
  intros Hp Hn. unfold jsonl_to_csv_manual, merge_jsonl_files.
  rewrite (sorted_by_name_perm_eq jsonl_dir jsonl_dir' Hp Hn). split; reflexivity.
Qed.

Lemma merge_independent_of_listing_order_witness :
  merge_jsonl_files answers_in_two_files [("{{tag_1}}", "<br>")]
  = merge_jsonl_files (rev answers_in_two_files) [("{{tag_1}}", "<br>")].
Proof.
  apply merge_independent_of_listing_order.
  - apply Permutation_rev.
  - repeat constructor; simpl; intuition (try discriminate).
Defined.

(** ** [jsonl_to_csv_manual] *)



(** X30: the output does not depend on how the answers are spread over the
    files of the directory nor on their order there, as long as no two rows
    carry the same request number. *)
Theorem csv_independent_of_file_layout (jsonl_dir jsonl_dir' : directory)
  (img_dict : tag_dict) (rows rows' : list (text * text)) :
  merge_jsonl_files jsonl_dir img_dict = Some rows ->
  merge_jsonl_files jsonl_dir' img_dict = Some rows' ->
  Permutation rows rows' ->
  NoDup (map (fun r => first_number (fst r)) rows) ->
  jsonl_to_csv_manual jsonl_dir img_dict = jsonl_to_csv_manual jsonl_dir' img_dict.
Proof.
  intros H1 H2 Hp Hn. unfold jsonl_to_csv_manual. rewrite H1, H2.
  destruct (keyed rows) as [l|] eqn:E.
  - destruct (keyed_perm rows rows' Hp l E) as [l' [E' Hl]]. rewrite E'.
    rewrite (sorted_by_key_perm_eq l l' Hl (keyed_distinct rows l E Hn)). reflexivity.
  - destruct (keyed rows') as [l'|] eqn:E'; [|reflexivity].
    destruct (keyed_perm rows' rows (Permutation_sym Hp) l' E') as [l [E2 _]].
    congruence.
Qed.

Lemma csv_independent_of_file_layout_witness :
  jsonl_to_csv_manual answers_in_one_file [("{{tag_1}}", "<br>")]
  = jsonl_to_csv_manual answers_in_two_files [("{{tag_1}}", "<br>")].
Proof.
  apply (csv_independent_of_file_layout answers_in_one_file answers_in_two_files
           [("{{tag_1}}", "<br>")]
           [("request-2", "deux<br>"); ("request-10", "dix"); ("request-1", "un<br>")]
           [("request-1", "un<br>"); ("request-2", "deux<br>"); ("request-10", "dix")]).
  - reflexivity.
  - reflexivity.
  - eapply perm_trans; [apply Permutation_cons_append|]. cbn [app].
    apply (Permutation_cons_append [("request-1", "un<br>"); ("request-2", "deux<br>")]).
  - vm_compute. repeat constructor; simpl; intuition (try discriminate).
Defined.
